(** * Range inference for the integer types of the optimizing compiler
      (opto/rangeinference.cpp)

    A shallow embedding of the bound / known-bits canonicalisation of
    [TypeIntPrototype<S, U>] with its self-check [verify_constraints], of
    the meet / join, widening and narrowing operators of [TypeIntHelper]
    and of its naming functions, followed by the properties established
    about them.

    The C++ code is a template over an unsigned type [U] of [W] bits and its
    signed counterpart [S].  Here a value of type [U] is an integer in
    [0, 2^W) and a value of type [S] an integer in [-2^(W-1), 2^(W-1));
    every operation that can leave the range has its wrap-around written
    out.  [W] is the first argument of every definition, so the same text is
    instantiated at 32 and 64 (the widths of [juint] and [julong]) and, for
    the worked examples of the source comments, at 4. *)

From Stdlib Require Import ZArith Lia Bool List Ascii String.
From Stdlib Require Decimal DecimalString DecimalZ DecimalPos.
Import ListNotations.
Local Open Scope Z_scope.

(** ** Data model

    [RangeInt], [KnownBits] and [TypeIntPrototype] are declared in
    opto/rangeinference.hpp; the records below have the members that the
    code of rangeinference.cpp reads and writes. *)

(** [RangeInt<T>]: an inclusive interval. *)
Record RangeInt : Set := mkRange { _lo : Z; _hi : Z }.

(** [KnownBits<U>]: a bit set in [_zeros] (resp. [_ones]) is known to be 0
    (resp. 1). *)
Record KnownBits : Set := mkBits { _zeros : Z; _ones : Z }.

(** [AdjustResult<T>]: the result of one tightening step. *)
Record AdjustResult (T : Type) : Type := mkAdjust {
  _progress : bool;
  _is_result_consistent : bool;
  _result : T
}.
Arguments mkAdjust {T} _ _ _.
Arguments _progress {T} _.
Arguments _is_result_consistent {T} _.
Arguments _result {T} _.

(** [SimpleCanonicalResult<U>]; its members are [_present], [_bounds] and
    [_bits] in the source and carry the prefix [sc] here, the plain names
    being those of the members of the two prototype classes below. *)
Record SimpleCanonicalResult : Set := mkSimple {
  sc_present : bool;
  sc_bounds : RangeInt;
  sc_bits : KnownBits
}.

(** [TypeIntPrototype<S, U>]: [_srange] holds signed values, [_urange]
    unsigned ones. *)
Record TypeIntPrototype : Set := mkProto {
  _srange : RangeInt;
  _urange : RangeInt;
  _bits : KnownBits
}.

(** [TypeIntPrototype<S, U>::CanonicalizedTypeIntPrototype]. *)
Record CanonicalizedTypeIntPrototype : Set := mkCanon {
  _present : bool;
  _data : TypeIntPrototype
}.

Definition RangeInt_eqb (a b : RangeInt) : bool :=
  (_lo a =? _lo b) && (_hi a =? _hi b).

Definition KnownBits_eqb (a b : KnownBits) : bool :=
  (_zeros a =? _zeros b) && (_ones a =? _ones b).

Definition TypeIntPrototype_eqb (a b : TypeIntPrototype) : bool :=
  RangeInt_eqb (_srange a) (_srange b) &&
  RangeInt_eqb (_urange a) (_urange b) &&
  KnownBits_eqb (_bits a) (_bits b).

(** ** Machine arithmetic at width [W] *)

Section Width.

Variable W : Z.

(** Reduction of a mathematical integer to its [W] low bits. *)
Definition wrap (x : Z) : Z := x mod 2 ^ W.

(** [std::numeric_limits<U>::max()] and [std::numeric_limits<U>::min()]. *)
Definition umax : Z := 2 ^ W - 1.
Definition umin : Z := 0.

(** [std::numeric_limits<S>::min()] and [std::numeric_limits<S>::max()]. *)
Definition smin : Z := - 2 ^ (W - 1).
Definition smax : Z := 2 ^ (W - 1) - 1.

(** [~x], [-x], [x + y] on [U]. *)
Definition unot (x : Z) : Z := wrap (Z.lnot x).
Definition uneg (x : Z) : Z := wrap (- x).
Definition uadd (x y : Z) : Z := wrap (x + y).

(** [x << n] and [x >> n] on [U].  The source shifts by [n = W] in one place
    ([find_mask] of [adjust_lo], when the most significant bit is the first
    violation), a shift that C++ leaves undefined.  The processors that the
    code is compiled for take the count of a shift of a [W]-bit register
    modulo [W], so that the compiled shift by [W] leaves the value as it
    is; the model follows them.  Every other shift of the source has a
    count below [W]. *)
Definition ushl (x n : Z) : Z := wrap (Z.shiftl x (n mod W)).
Definition ushr (x n : Z) : Z := Z.shiftr x n.

(** Modelled from the spec: [count_leading_zeros]
    (utilities/count_leading_zeros.hpp, not part of the sources at hand):
    the count of leading zero bits of a non-zero value of type [U]. *)
Definition count_leading_zeros (x : Z) : Z := W - 1 - Z.log2 x.

(** The conversions [S(u)] and [U(s)]. *)
Definition to_S (u : Z) : Z := if u <? 2 ^ (W - 1) then u else u - 2 ^ W.
Definition to_U (s : Z) : Z := wrap s.

(** The values of type [U] and of type [S]. *)
Definition in_U (x : Z) : Prop := 0 <= x < 2 ^ W.
Definition in_S (x : Z) : Prop := - 2 ^ (W - 1) <= x < 2 ^ (W - 1).

(** A bounds pair and a bits pair whose members are values of type [U]. *)
Definition range_in_U (r : RangeInt) : Prop := in_U (_lo r) /\ in_U (_hi r).
Definition bits_in_U (b : KnownBits) : Prop :=
  in_U (_zeros b) /\ in_U (_ones b).

(** Modelled from the spec: [KnownBits<U>::is_satisfied_by]
    (opto/rangeinference.hpp, not part of the sources at hand): [v] is
    satisfied by [bits] iff [(v & zeros) == 0 && (~v & ones) == 0]. *)
Definition is_satisfied_by (bits : KnownBits) (v : Z) : bool :=
  (Z.land v (_zeros bits) =? 0) && (Z.land (unot v) (_ones bits) =? 0).

(** ** adjust_lo *)

Definition adjust_lo (lo : Z) (bits : KnownBits) : Z :=
  let zero_violation := Z.land lo (_zeros bits) in
  let one_violation := Z.land (unot lo) (_ones bits) in
  if zero_violation =? one_violation then lo
  else if zero_violation <? one_violation then
    let first_violation := W - 1 - count_leading_zeros one_violation in
    let alignment := ushl 1 first_violation in
    let new_lo := uadd (Z.land lo (uneg alignment)) alignment in
    Z.lor new_lo (_ones bits)
  else
    let first_violation := W - count_leading_zeros zero_violation in
    let find_mask := ushl umax first_violation in
    let either := Z.lor lo (_zeros bits) in
    let tmp := Z.land (unot either) find_mask in
    let alignment := Z.land tmp (uneg tmp) in
    let new_lo := uadd (Z.land lo (uneg alignment)) alignment in
    Z.lor new_lo (_ones bits).

(** The situation in which [adjust_lo] shifts by [W]: [lo] and
    [bits._zeros] both have the most significant bit set, so that the
    [first_violation] of the last branch is [W]. *)
Definition msb_violation (lo : Z) (bits : KnownBits) : bool :=
  Z.testbit lo (W - 1) && Z.testbit (_zeros bits) (W - 1).

(** The vocabulary of the proof given in the comment of [adjust_lo].
    [bit_ok bits v j]: bit [j] of [v] satisfies [bits]. *)
Definition bit_ok (bits : KnownBits) (v j : Z) : Prop :=
  (Z.testbit (_zeros bits) j = true -> Z.testbit v j = false) /\
  (Z.testbit (_ones bits) j = true -> Z.testbit v j = true).

(** [pivot lo bits i]: bit [i] is 0 in [lo] and in [zeros], and every bit of
    [lo] above [i] satisfies [bits] (the conditions on the position called
    [i] in that comment). *)
Definition pivot (lo : Z) (bits : KnownBits) (i : Z) : Prop :=
  Z.testbit lo i = false /\ Z.testbit (_zeros bits) i = false /\
  forall j, i < j < W -> bit_ok bits lo j.

(** The value that both branches of [adjust_lo] compute from an alignment
    [1 << i]. *)
Definition candidate (lo : Z) (bits : KnownBits) (i : Z) : Z :=
  Z.lor (uadd (Z.land lo (uneg (2 ^ i))) (2 ^ i)) (_ones bits).

(** [v] is a value of type [U], not less than [lo], that satisfies
    [bits]. *)
Definition satisfies_from (lo : Z) (bits : KnownBits) (v : Z) : Prop :=
  in_U v /\ lo <= v /\ is_satisfied_by bits v = true.

(** [v] is a value of type [U], not larger than [hi], that satisfies
    [bits]. *)
Definition satisfies_upto (hi : Z) (bits : KnownBits) (v : Z) : Prop :=
  in_U v /\ v <= hi /\ is_satisfied_by bits v = true.

(** ** adjust_bounds_from_bits *)

(** [AdjustResult<RangeInt<U>>::make_empty()]. *)
Definition make_empty_bounds : AdjustResult RangeInt :=
  mkAdjust true false (mkRange 0 0).

Definition adjust_bounds_from_bits (bounds : RangeInt) (bits : KnownBits)
  : AdjustResult RangeInt :=
  let new_lo := adjust_lo (_lo bounds) bits in
  if new_lo <? _lo bounds then make_empty_bounds
  else
    let new_hi :=
      unot (adjust_lo (unot (_hi bounds)) (mkBits (_ones bits) (_zeros bits))) in
    if new_hi >? _hi bounds then make_empty_bounds
    else
      let progress :=
        negb (new_lo =? _lo bounds) || negb (new_hi =? _hi bounds) in
      let present := new_lo <=? new_hi in
      mkAdjust progress present (mkRange new_lo new_hi).

(** ** adjust_bits_from_bounds *)

Definition adjust_bits_from_bounds (bits : KnownBits) (bounds : RangeInt)
  : AdjustResult KnownBits :=
  let mismatch := Z.lxor (_lo bounds) (_hi bounds) in
  let match_mask :=
    if mismatch =? 0 then umax
    else unot (ushr umax (count_leading_zeros mismatch)) in
  let new_zeros := Z.lor (_zeros bits) (Z.land match_mask (unot (_lo bounds))) in
  let new_ones := Z.lor (_ones bits) (Z.land match_mask (_lo bounds)) in
  let progress :=
    negb (new_zeros =? _zeros bits) || negb (new_ones =? _ones bits) in
  let present := Z.land new_zeros new_ones =? 0 in
  mkAdjust progress present (mkBits new_zeros new_ones).

(** ** canonicalize_constraints_simple *)

(** [SimpleCanonicalResult<U>::make_empty()]. *)
Definition make_empty_simple : SimpleCanonicalResult :=
  mkSimple false (mkRange 0 0) (mkBits 0 0).

(** The [while (true)] loop, with the number of iterations it may still
    start as fuel.  The result carries the number of iterations that were
    started; [None] means that the fuel ran out before the loop returned. *)
Fixpoint canonicalize_loop (fuel : nat) (count : nat)
    (nbounds : RangeInt) (nbits : KnownBits)
  : option (nat * SimpleCanonicalResult) :=
  match fuel with
  | O => None
  | S fuel' =>
    let nbounds' := adjust_bounds_from_bits nbounds nbits in
    if negb (_progress nbounds') || negb (_is_result_consistent nbounds') then
      Some (S count,
            mkSimple (_is_result_consistent nbounds') (_result nbounds') nbits)
    else
      let nbits' := adjust_bits_from_bounds nbits (_result nbounds') in
      if negb (_progress nbits') || negb (_is_result_consistent nbits') then
        Some (S count,
              mkSimple (_is_result_consistent nbits') (_result nbounds')
                       (_result nbits'))
      else canonicalize_loop fuel' (S count) (_result nbounds') (_result nbits')
  end.

(** The function with explicit fuel for its loop: the number of loop
    iterations and the result. *)
Definition canonicalize_constraints_simple_fuel (fuel : nat)
    (bounds : RangeInt) (bits : KnownBits)
  : option (nat * SimpleCanonicalResult) :=
  let nbits := adjust_bits_from_bounds bits bounds in
  if negb (_is_result_consistent nbits) then Some (O, make_empty_simple)
  else canonicalize_loop fuel O bounds (_result nbits).

(** The function itself.  Its loop is given [W] iterations, the bound that
    the comment above it in the source states; the loop has always returned
    by then (see the section on this function below), so that the default
    is never produced. *)
Definition canonicalize_constraints_simple
    (bounds : RangeInt) (bits : KnownBits) : SimpleCanonicalResult :=
  match canonicalize_constraints_simple_fuel (Z.to_nat W) bounds bits with
  | Some (_, r) => r
  | None => make_empty_simple
  end.

(** ** TypeIntPrototype<S, U>::canonicalize_constraints *)

(** [CanonicalizedTypeIntPrototype::make_empty()]. *)
Definition make_empty_canon : CanonicalizedTypeIntPrototype :=
  mkCanon false (mkProto (mkRange 0 0) (mkRange 0 0) (mkBits 0 0)).

(** The trivial contradictions tested first. *)
Definition trivially_empty (p : TypeIntPrototype) : bool :=
  (_lo (_srange p) >? _hi (_srange p)) ||
  (_lo (_urange p) >? _hi (_urange p)) ||
  negb (Z.land (_zeros (_bits p)) (_ones (_bits p)) =? 0).

(** The first adjustment of the local [urange]: when its bounds have
    different signs and the signed range misses one of the two halves, the
    bound in that half is moved to the sign boundary. *)
Definition tighten_urange (srange urange : RangeInt) : RangeInt :=
  if to_S (_lo urange) >? to_S (_hi urange) then
    if to_S (_hi urange) <? _lo srange then
      mkRange (_lo urange) (to_U smax)
    else if to_S (_lo urange) >? _hi srange then
      mkRange (to_U smin) (_hi urange)
    else urange
  else urange.

(** The result built from a [SimpleCanonicalResult]. *)
Definition canon_of_simple (present : bool) (type : SimpleCanonicalResult)
  : CanonicalizedTypeIntPrototype :=
  mkCanon present
    (mkProto (mkRange (to_S (_lo (sc_bounds type))) (to_S (_hi (sc_bounds type))))
             (sc_bounds type) (sc_bits type)).

Definition canonicalize_constraints (p : TypeIntPrototype)
  : CanonicalizedTypeIntPrototype :=
  let srange := _srange p in
  if trivially_empty p then make_empty_canon
  else
    let urange := tighten_urange srange (_urange p) in
    if to_S (_lo urange) <=? to_S (_hi urange) then
      let urange :=
        mkRange (to_U (Z.max (to_S (_lo urange)) (_lo srange)))
                (to_U (Z.min (to_S (_hi urange)) (_hi srange))) in
      if _lo urange >? _hi urange then make_empty_canon
      else
        let type := canonicalize_constraints_simple urange (_bits p) in
        canon_of_simple (sc_present type) type
    else
      let neg_type :=
        canonicalize_constraints_simple
          (mkRange (to_U (_lo srange)) (_hi urange)) (_bits p) in
      let pos_type :=
        canonicalize_constraints_simple
          (mkRange (_lo urange) (to_U (_hi srange))) (_bits p) in
      if negb (sc_present neg_type) && negb (sc_present pos_type) then
        make_empty_canon
      else if negb (sc_present neg_type) then canon_of_simple true pos_type
      else if negb (sc_present pos_type) then canon_of_simple true neg_type
      else
        mkCanon true
          (mkProto
             (mkRange (to_S (_lo (sc_bounds neg_type)))
                      (to_S (_hi (sc_bounds pos_type))))
             (mkRange (_lo (sc_bounds pos_type)) (_hi (sc_bounds neg_type)))
             (mkBits
                (Z.land (_zeros (sc_bits neg_type)) (_zeros (sc_bits pos_type)))
                (Z.land (_ones (sc_bits neg_type)) (_ones (sc_bits pos_type))))).

(** [TypeIntPrototype<S, U>::contains], on a signed value [v]. *)
Definition contains (p : TypeIntPrototype) (v : Z) : bool :=
  let u := to_U v in
  (v >=? _lo (_srange p)) && (v <=? _hi (_srange p)) &&
  (u >=? _lo (_urange p)) && (u <=? _hi (_urange p)) &&
  is_satisfied_by (_bits p) u.

(** ** TypeIntPrototype<S, U>::normalize_widen *)

(** [SMALL_TYPEINT_THRESHOLD]. *)
Definition SMALL_TYPEINT_THRESHOLD : Z := 3.

(** [Type::WidenMin] and [Type::WidenMax] are declared in opto/type.hpp,
    which is not part of the sources at hand; they are parameters here. *)
Variables WidenMin WidenMax : Z.

(** Modelled from the spec: [TypeIntHelper::cardinality_from_bounds], whose
    body is in opto/rangeinference.hpp, not part of the sources at hand.
    The spec speaks of the cardinality of the set; it is counted from the
    bounds: one interval when the signed and the unsigned range coincide,
    and otherwise the two intervals [[srange._lo, urange._hi]] and
    [[urange._lo, srange._hi]] in which they intersect. *)
Definition cardinality_from_bounds (srange urange : RangeInt) : Z :=
  if to_U (_lo srange) =? _lo urange then _hi urange - _lo urange + 1
  else (_hi urange - to_U (_lo srange) + 1)
       + (to_U (_hi srange) - _lo urange + 1).

Definition normalize_widen (p : TypeIntPrototype) (w : Z) : Z :=
  if cardinality_from_bounds (_srange p) (_urange p)
       <=? SMALL_TYPEINT_THRESHOLD
  then WidenMin
  else if (_lo (_srange p) =? smin) && (_hi (_srange p) =? smax) &&
          (_lo (_urange p) =? umin) && (_hi (_urange p) =? umax) &&
          (_zeros (_bits p) =? 0) && (_ones (_bits p) =? 0)
  then WidenMax
  else w.

End Width.

(** ** TypeIntHelper::int_type_widen *)

(** The class [CT] of [int_type_widen] is [TypeInt] or [TypeLong], declared
    in opto/type.hpp; the record has the members that the function reads. *)
Module TypeInt.

Record t : Set := mk {
  _lo : Z;
  _hi : Z;
  _ulo : Z;
  _uhi : Z;
  _bits : KnownBits;
  _widen : Z
}.

End TypeInt.

Section Widen.

Variable W : Z.
Variables WidenMin WidenMax : Z.

(** The prototype that [int_type_widen] builds from the members of a
    type. *)
Definition prototype_of (ty : TypeInt.t) : TypeIntPrototype :=
  mkProto (mkRange (TypeInt._lo ty) (TypeInt._hi ty))
          (mkRange (TypeInt._ulo ty) (TypeInt._uhi ty))
          (TypeInt._bits ty).

(** Modelled from the spec: [TypeIntHelper::int_type_is_equal]
    (opto/rangeinference.hpp): the new type is structurally equal to the
    old one, that is, the signed range, the unsigned range and the bits
    are the same. *)
Definition int_type_is_equal (t1 t2 : TypeInt.t) : bool :=
  TypeIntPrototype_eqb (prototype_of t1) (prototype_of t2).

(** Modelled from the spec: [TypeIntHelper::int_type_is_subset]
    (opto/rangeinference.hpp): [super] is a superset of [sub], that is, its
    ranges contain those of [sub] and every bit it knows is known with the
    same value in [sub]. *)
Definition int_type_is_subset (super sub : TypeInt.t) : bool :=
  (TypeInt._lo super <=? TypeInt._lo sub) &&
  (TypeInt._hi super >=? TypeInt._hi sub) &&
  (TypeInt._ulo super <=? TypeInt._ulo sub) &&
  (TypeInt._uhi super >=? TypeInt._uhi sub) &&
  (Z.land (_zeros (TypeInt._bits super))
          (unot W (_zeros (TypeInt._bits sub))) =? 0) &&
  (Z.land (_ones (TypeInt._bits super))
          (unot W (_ones (TypeInt._bits sub))) =? 0).

(** Modelled from the spec: [CT::singleton] (opto/type.cpp): the type is a
    single-value constant. *)
Definition singleton (ty : TypeInt.t) : bool :=
  TypeInt._lo ty =? TypeInt._hi ty.

(** Modelled from the spec: [CT::TYPE_DOMAIN] (opto/type.cpp): the universal
    domain of the width, which carries the maximum widen hint. *)
Definition TYPE_DOMAIN : TypeInt.t :=
  TypeInt.mk (smin W) (smax W) (umin) (umax W) (mkBits 0 0) WidenMax.

(** Modelled from the spec: [CT::try_make] (opto/type.cpp): the prototype
    is canonicalised; an empty result gives no integer type ([None]), and
    otherwise the type is built from the canonical triple, with the widen
    hint classified by [normalize_widen]. *)
Definition try_make (p : TypeIntPrototype) (widen : Z) : option TypeInt.t :=
  let c := canonicalize_constraints W p in
  if _present c then
    let d := _data c in
    Some (TypeInt.mk (_lo (_srange d)) (_hi (_srange d))
                     (_lo (_urange d)) (_hi (_urange d)) (_bits d)
                     (normalize_widen W WidenMin WidenMax d widen))
  else None.

(** [old_type] and [limit_type] may be [nullptr] ([None]); the result is
    [None] when [try_make] gives no integer type. *)
Definition int_type_widen (new_type : TypeInt.t)
    (old_type limit_type : option TypeInt.t) : option TypeInt.t :=
  match old_type with
  | None => Some new_type
  | Some old =>
    if int_type_is_equal new_type old then Some old
    else if int_type_is_subset old new_type then Some old
    else if negb (int_type_is_subset new_type old) then Some TYPE_DOMAIN
    else if singleton old then Some new_type
    else if TypeInt._widen new_type >? TypeInt._widen old then Some new_type
    else if TypeInt._widen new_type <? WidenMax then
      try_make (prototype_of new_type) (TypeInt._widen new_type + 1)
    else
      let zeros := _zeros (TypeInt._bits new_type) in
      let ones := _ones (TypeInt._bits new_type) in
      let prototype :=
        match limit_type with
        | Some limit =>
          mkProto (mkRange (TypeInt._lo limit) (TypeInt._hi limit))
                  (mkRange (TypeInt._ulo limit) (TypeInt._uhi limit))
                  (mkBits (Z.lor zeros (_zeros (TypeInt._bits limit)))
                          (Z.lor ones (_ones (TypeInt._bits limit))))
        | None =>
          mkProto (mkRange (smin W) (smax W)) (mkRange umin (umax W))
                  (mkBits zeros ones)
        end in
      try_make prototype WidenMax
  end.

(** Repeated widening: the result of each call is the old type of the next
    one.  [widen_run news old limit] is the type after the candidates of
    [news] have been widened against in turn. *)
Fixpoint widen_run (news : list TypeInt.t) (old_type limit_type : option TypeInt.t)
  : option TypeInt.t :=
  match news with
  | [] => old_type
  | new_type :: rest =>
    widen_run rest (int_type_widen new_type old_type limit_type) limit_type
  end.

(** The members of a type are values of their C++ types. *)
Definition type_in_range (ty : TypeInt.t) : Prop :=
  in_S W (TypeInt._lo ty) /\ in_S W (TypeInt._hi ty) /\
  in_U W (TypeInt._ulo ty) /\ in_U W (TypeInt._uhi ty) /\
  bits_in_U W (TypeInt._bits ty).

End Widen.

Definition option_TypeInt_eqb (a b : option TypeInt.t) : bool :=
  match a, b with
  | Some x, Some y =>
    TypeIntPrototype_eqb (prototype_of x) (prototype_of y) &&
    (TypeInt._widen x =? TypeInt._widen y)
  | None, None => true
  | _, _ => false
  end.

(** ** A run of widening calls

    [Type::WidenMin = 0] and [Type::WidenMax = 3] at 32 bits.  The run
    starts from [0..10]; the candidates grow, and each carries the widen
    hint of the previous result, as the merge of the previous result with
    other types would. *)
Definition widen_start : TypeInt.t :=
  TypeInt.mk 0 10 0 10 (mkBits 4294967280 0) 0.

Definition widen_candidates : list TypeInt.t :=
  [ TypeInt.mk 0 11 0 11 (mkBits 4294967280 0) 0;
    TypeInt.mk 0 12 0 12 (mkBits 4294967280 0) 1;
    TypeInt.mk 0 13 0 13 (mkBits 4294967280 0) 2;
    TypeInt.mk 0 14 0 14 (mkBits 4294967280 0) 3;
    TypeInt.mk 0 16 0 16 (mkBits 4294967264 0) 3;
    TypeInt.mk 0 32 0 32 (mkBits 4294967232 0) 3;
    TypeInt.mk 0 64 0 64 (mkBits 4294967168 0) 3 ].

(** ** TypeIntPrototype<S, U>::verify_constraints *)

Section Verify.

Variable W : Z.

(** The function returns nothing: it asserts.  The model is the conjunction
    of the conditions it asserts, so that [true] means that no assertion
    fails.  [contains] takes a value of type [S], to which the unsigned
    bounds are converted at the call. *)
Definition verify_constraints (p : TypeIntPrototype) : bool :=
  let srange := _srange p in
  let urange := _urange p in
  let bits := _bits p in
  (contains W p (_lo srange) && contains W p (_hi srange) &&
   contains W p (to_S W (_lo urange)) && contains W p (to_S W (_hi urange))) &&
  if to_U W (_lo srange) =? _lo urange then
    negb (_progress (adjust_bits_from_bounds W bits urange))
  else
    let neg_range := mkRange (to_U W (_lo srange)) (_hi urange) in
    let neg_bits := adjust_bits_from_bounds W bits neg_range in
    let pos_range := mkRange (_lo urange) (to_U W (_hi srange)) in
    let pos_bits := adjust_bits_from_bounds W bits pos_range in
    _is_result_consistent neg_bits &&
    negb (_progress (adjust_bounds_from_bits W neg_range (_result neg_bits))) &&
    _is_result_consistent pos_bits &&
    negb (_progress (adjust_bounds_from_bits W pos_range (_result pos_bits))) &&
    ((Z.land (_zeros (_result neg_bits)) (_zeros (_result pos_bits))
        =? _zeros bits) &&
     (Z.land (_ones (_result neg_bits)) (_ones (_result pos_bits))
        =? _ones bits)).

End Verify.

(** ** TypeIntHelper::int_type_xmeet *)

(** The values of [Type::base()] (enum [TYPES] of opto/type.hpp) that the
    function meets: the base of [Type::TOP], the values that its [switch]
    names, and one constructor for every other value of the enum. *)
Inductive TYPES : Set :=
  | Top | AnyPtr | RawPtr | OopPtr | InstPtr | AryPtr | MetadataPtr | KlassPtr
  | InstKlassPtr | AryKlassPtr | NarrowOop | NarrowKlass | Int | Long
  | FloatTop | FloatCon | FloatBot | DoubleTop | DoubleCon | DoubleBot
  | Bottom | OtherBase.

(** The second operand and the result of [int_type_xmeet] are of class
    [Type] (opto/type.hpp).  The function tells [Type::TOP], a type of the
    class [CT] of its first operand, and any other type, of which it reads
    [base()]; it returns its first operand, [Type::BOTTOM], or what [make]
    returns. *)
Inductive Type_ : Set :=
  | TOP
  | BOTTOM
  | Integer (ty : TypeInt.t)
  | Other (base : TYPES).

(** [t2->try_cast<CT>()]. *)
Definition try_cast (t2 : Type_) : option TypeInt.t :=
  match t2 with
  | Integer i2 => Some i2
  | _ => None
  end.

(** [t2->base()].  A type of class [CT] has the base [Int] or [Long]; the
    [switch] is not reached for it. *)
Definition base (t2 : Type_) : TYPES :=
  match t2 with
  | TOP => Top
  | BOTTOM => Bottom
  | Integer _ => Int
  | Other b => b
  end.

Definition TypeInt_eqb (x y : TypeInt.t) : bool :=
  TypeIntPrototype_eqb (prototype_of x) (prototype_of y) &&
  (TypeInt._widen x =? TypeInt._widen y).

(** The pointer comparison [i1 == t2].  Types are interned, so that two
    pointers to types of class [CT] are equal exactly when the members of
    the types are. *)
Definition same_pointer (i1 : TypeInt.t) (t2 : Type_) : bool :=
  match t2 with
  | Integer i2 => TypeInt_eqb i1 i2
  | _ => false
  end.

Definition is_TOP (t2 : Type_) : bool :=
  match t2 with
  | TOP => true
  | _ => false
  end.

(** The prototypes that the function passes to [make]. *)
Definition meet_prototype (i1 i2 : TypeInt.t) : TypeIntPrototype :=
  mkProto
    (mkRange (Z.min (TypeInt._lo i1) (TypeInt._lo i2))
             (Z.max (TypeInt._hi i1) (TypeInt._hi i2)))
    (mkRange (Z.min (TypeInt._ulo i1) (TypeInt._ulo i2))
             (Z.max (TypeInt._uhi i1) (TypeInt._uhi i2)))
    (mkBits (Z.land (_zeros (TypeInt._bits i1)) (_zeros (TypeInt._bits i2)))
            (Z.land (_ones (TypeInt._bits i1)) (_ones (TypeInt._bits i2)))).

Definition join_prototype (i1 i2 : TypeInt.t) : TypeIntPrototype :=
  mkProto
    (mkRange (Z.max (TypeInt._lo i1) (TypeInt._lo i2))
             (Z.min (TypeInt._hi i1) (TypeInt._hi i2)))
    (mkRange (Z.max (TypeInt._ulo i1) (TypeInt._ulo i2))
             (Z.min (TypeInt._uhi i1) (TypeInt._uhi i2)))
    (mkBits (Z.lor (_zeros (TypeInt._bits i1)) (_zeros (TypeInt._bits i2)))
            (Z.lor (_ones (TypeInt._bits i1)) (_ones (TypeInt._bits i2)))).

(** [make] is the function pointer that the caller passes.  The result is
    [None] for the [nullptr] that the function returns after [typerr].  The
    assertion before the [switch] has no part in the result. *)
Definition int_type_xmeet (i1 : TypeInt.t) (t2 : Type_)
    (make : TypeIntPrototype -> Z -> bool -> Type_) (dual : bool)
  : option Type_ :=
  if same_pointer i1 t2 || is_TOP t2 then Some (Integer i1)
  else
    match try_cast t2 with
    | Some i2 =>
      if negb dual then
        Some (make (meet_prototype i1 i2)
                   (Z.max (TypeInt._widen i1) (TypeInt._widen i2)) false)
      else
        Some (make (join_prototype i1 i2)
                   (Z.min (TypeInt._widen i1) (TypeInt._widen i2)) true)
    | None =>
      match base t2 with
      | AnyPtr | RawPtr | OopPtr | InstPtr | AryPtr | MetadataPtr | KlassPtr
      | InstKlassPtr | AryKlassPtr | NarrowOop | NarrowKlass | Int | Long
      | FloatTop | FloatCon | FloatBot | DoubleTop | DoubleCon | DoubleBot
      | Bottom => Some BOTTOM
      | _ => None
      end
    end.

(** ** TypeIntHelper::int_type_narrow *)

Section Narrow.

Variable W : Z.
Variable WidenMax : Z.

(** [old_type] may be [nullptr] ([None]); the first test of the function
    returns [new_type] then, as it does for a singleton. *)
Definition int_type_narrow (new_type : TypeInt.t)
    (old_type : option TypeInt.t) : TypeInt.t :=
  match old_type with
  | None => new_type
  | Some old =>
    if singleton new_type then new_type
    else if int_type_is_equal new_type old then old
    else if int_type_is_equal old (TYPE_DOMAIN W WidenMax) then new_type
    else if negb (int_type_is_subset W old new_type) then new_type
    else if negb (_zeros (TypeInt._bits old)
                    =? _zeros (TypeInt._bits new_type))
            || negb (_ones (TypeInt._bits old)
                       =? _ones (TypeInt._bits new_type))
    then new_type
    else
      let oc := cardinality_from_bounds W
                  (mkRange (TypeInt._lo old) (TypeInt._hi old))
                  (mkRange (TypeInt._ulo old) (TypeInt._uhi old)) in
      let nc := cardinality_from_bounds W
                  (mkRange (TypeInt._lo new_type) (TypeInt._hi new_type))
                  (mkRange (TypeInt._ulo new_type) (TypeInt._uhi new_type)) in
      if nc >? uadd W (ushr oc 1) (SMALL_TYPEINT_THRESHOLD * 2) then old
      else new_type
  end.

End Narrow.

(** ** TypeIntHelper::bitname *)

Section Names.

Variable W : Z.

(** The character that the loop writes to [buf[i]]. *)
Definition bitname_char (zeros ones i : Z) : ascii :=
  let mask := ushl W 1 (W - 1 - i) in
  if negb (Z.land zeros mask =? 0) then "0"%char
  else if negb (Z.land ones mask =? 0) then "1"%char
  else "*"%char.

(** The characters written by the iterations [i, i + 1, ...] of the loop,
    [n] of them. *)
Fixpoint bitname_loop (n : nat) (i : Z) (zeros ones : Z) : string :=
  match n with
  | O => EmptyString
  | S n' =>
    String (bitname_char zeros ones i) (bitname_loop n' (i + 1) zeros ones)
  end.

(** The C string that the function returns: the fixed text when the buffer
    is too small, and otherwise the [W] characters that the loop wrote,
    which the terminator at [buf[W]] ends. *)
Definition bitname (buf_size : Z) (zeros ones : Z) : string :=
  if buf_size <? W + 1 then "#####"%string
  else bitname_loop (Z.to_nat W) 0 zeros ones.

End Names.
(** ** int_name_near, intname, uintname, longname, ulongname *)

(** The extreme values of the Java types (utilities/globalDefinitions.hpp,
    not part of the sources at hand): [jint] and [juint] have 32 bits,
    [jlong] and [julong] have 64. *)
Definition max_jint : Z := 2147483647.
Definition min_jint : Z := -2147483648.
Definition max_juint : Z := 4294967295.
Definition max_jlong : Z := 9223372036854775807.
Definition min_jlong : Z := -9223372036854775808.
Definition max_julong : Z := 18446744073709551615.

(** The text that [snprintf] writes for a number under [INT32_FORMAT],
    [UINT32_FORMAT], [JLONG_FORMAT] and [JULONG_FORMAT]: the decimal digits
    of the number, after a minus sign when it is negative. *)
Definition decimal (n : Z) : string :=
  DecimalString.NilZero.string_of_int (Z.to_int n).

(** The function returns [nullptr] ([None]), [xname], or the text that it
    wrote to [buf], which [os::snprintf_checked] requires to be large
    enough.  At the origins that the callers pass, [origin - 10000] and
    [origin + 10000] are evaluated only where they do not overflow [T]. *)
Definition int_name_near (origin : Z) (xname : string) (n : Z)
  : option string :=
  if n <? origin then
    if n <=? origin - 10000 then None
    else Some (xname ++ "-" ++ decimal (origin - n))%string
  else if n >? origin then
    if n >=? origin + 10000 then None
    else Some (xname ++ "+" ++ decimal (n - origin))%string
  else Some xname.

Definition intname (n : Z) : string :=
  match int_name_near max_jint "maxint" n with
  | Some str => str
  | None =>
    match int_name_near min_jint "minint" n with
    | Some str => str
    | None => decimal n
    end
  end.

Definition uintname (n : Z) : string :=
  match int_name_near max_juint "maxuint" n with
  | Some str => str
  | None =>
    match int_name_near max_jint "maxint" n with
    | Some str => str
    | None => (decimal n ++ "u")%string
    end
  end.

Definition longname (n : Z) : string :=
  match int_name_near max_jlong "maxlong" n with
  | Some str => str
  | None =>
    match int_name_near min_jlong "minlong" n with
    | Some str => str
    | None =>
      match int_name_near max_juint "maxuint" n with
      | Some str => str
      | None =>
        match int_name_near max_jint "maxint" n with
        | Some str => str
        | None =>
          match int_name_near min_jint "minint" n with
          | Some str => str
          | None => decimal n
          end
        end
      end
    end
  end.

Definition ulongname (n : Z) : string :=
  match int_name_near max_julong "maxulong" n with
  | Some str => str
  | None =>
    match int_name_near max_jlong "maxlong" n with
    | Some str => str
    | None =>
      match int_name_near max_juint "maxuint" n with
      | Some str => str
      | None =>
        match int_name_near max_jint "maxint" n with
        | Some str => str
        | None => (decimal n ++ "u")%string
        end
      end
    end
  end.

(** A prototype at 32 bits: the signed range [-5..5] with the lowest bit
    known to be 0. *)
Definition even_around_zero : TypeIntPrototype :=
  mkProto (mkRange (-5) 5) (mkRange 0 4294967295) (mkBits 1 0).

(** ** The set that a constraint represents *)

Section Sets.

Variable W : Z.

(** [u] lies within [bounds] and satisfies [bits]. *)
Definition in_simple (bounds : RangeInt) (bits : KnownBits) (u : Z) : Prop :=
  _lo bounds <= u <= _hi bounds /\ is_satisfied_by W bits u = true.

(** Every bit known in [b1] is known, with the same value, in [b2]. *)
Definition bits_subset (b1 b2 : KnownBits) : Prop :=
  forall j, 0 <= j ->
    (Z.testbit (_zeros b1) j = true -> Z.testbit (_zeros b2) j = true) /\
    (Z.testbit (_ones b1) j = true -> Z.testbit (_ones b2) j = true).

(** The members of a prototype are values of their C++ types. *)
Definition proto_in_range (p : TypeIntPrototype) : Prop :=
  in_S W (_lo (_srange p)) /\ in_S W (_hi (_srange p)) /\
  range_in_U W (_urange p) /\ bits_in_U W (_bits p).

(** The situation in which [canonicalize_constraints] overlooks an empty
    intersection: it is on the path on which both unsigned bounds have the
    same sign, the signed bounds [MAX2<S>(...)] and [MIN2<S>(...)] cross,
    and the test [urange._lo > urange._hi], which compares them as unsigned
    values, does not see it. *)
Definition signed_crossing_missed (p : TypeIntPrototype) : bool :=
  negb (trivially_empty p) &&
  let urange := tighten_urange W (_srange p) (_urange p) in
  (to_S W (_lo urange) <=? to_S W (_hi urange)) &&
  let lo := Z.max (to_S W (_lo urange)) (_lo (_srange p)) in
  let hi := Z.min (to_S W (_hi urange)) (_hi (_srange p)) in
  (lo >? hi) && negb (to_U W lo >? to_U W hi).

End Sets.

Section FixedPoint.

Variable W : Z.

(** A bounds pair and bits that neither tightening step changes. *)
Definition simple_fixed (bounds : RangeInt) (bits : KnownBits) : Prop :=
  _lo bounds <= _hi bounds /\ range_in_U W bounds /\ bits_in_U W bits /\
  Z.land (_zeros bits) (_ones bits) = 0 /\
  is_satisfied_by W bits (_lo bounds) = true /\
  is_satisfied_by W bits (_hi bounds) = true /\
  _result (adjust_bits_from_bounds W bits bounds) = bits.

End FixedPoint.

(** * Bit-level facts about non-negative integers *)

Module Bitwise.

(** Two numbers that agree above bit [j] are ordered by bit [j]. *)
Lemma lt_of_bits (x y j : Z) :
  0 <= j ->
  Z.testbit x j = false -> Z.testbit y j = true ->
  (forall k, j < k -> Z.testbit x k = Z.testbit y k) ->
  x < y.
Proof.
  intros Hj Hx Hy Hab.
  assert (Hq : Z.shiftr x (j + 1) = Z.shiftr y (j + 1)).
  { apply Z.bits_inj'. intros n Hn.
    rewrite !Z.shiftr_spec by lia. apply Hab. lia. }
  rewrite !Z.shiftr_div_pow2 in Hq by lia.
  apply Z.testbit_false in Hx; [|lia].
  apply Z.testbit_true in Hy; [|lia].
  assert (Hp : 0 < 2 ^ j) by (apply Z.pow_pos_nonneg; lia).
  assert (Hs : 2 ^ (j + 1) = 2 ^ j * 2) by (rewrite Z.pow_add_r; lia).
  rewrite Hs in Hq.
  rewrite <- !Z.div_div in Hq by lia.
  pose proof (Z.div_mod x (2 ^ j) ltac:(lia)) as Ex.
  pose proof (Z.div_mod y (2 ^ j) ltac:(lia)) as Ey.
  pose proof (Z.mod_pos_bound x (2 ^ j) Hp).
  pose proof (Z.mod_pos_bound y (2 ^ j) Hp).
  pose proof (Z.div_mod (x / 2 ^ j) 2 ltac:(lia)) as Ex2.
  pose proof (Z.div_mod (y / 2 ^ j) 2 ltac:(lia)) as Ey2.
  rewrite Hx in Ex2. rewrite Hy in Ey2.
  rewrite Ex2 in Ex. rewrite Ey2 in Ey.
  clear Ex2 Ey2 Hx Hy Hs.
  nia.
Qed.

(** The most significant bit at which two numbers differ decides their
    order. *)
Lemma highest_differing_bit (x y : Z) :
  0 <= x -> x < y ->
  exists j, 0 <= j /\ Z.testbit x j = false /\ Z.testbit y j = true /\
            forall k, j < k -> Z.testbit x k = Z.testbit y k.
Proof.
  intros Hx Hxy.
  set (d := Z.lxor x y).
  assert (Hd0 : 0 <= d) by (apply Z.lxor_nonneg; lia).
  assert (Hd : 0 < d).
  { destruct (Z.eq_dec d 0) as [E|E]; [|lia].
    apply Z.lxor_eq in E. lia. }
  set (j := Z.log2 d).
  assert (Hj : 0 <= j) by apply Z.log2_nonneg.
  assert (Hbit : Z.testbit d j = true) by (apply Z.bit_log2; exact Hd).
  assert (Habove : forall k, j < k -> Z.testbit x k = Z.testbit y k).
  { intros k Hk.
    assert (E : Z.testbit d k = false) by (apply Z.bits_above_log2; lia).
    unfold d in E. rewrite Z.lxor_spec in E.
    destruct (Z.testbit x k), (Z.testbit y k); simpl in E; congruence. }
  exists j. unfold d in Hbit. rewrite Z.lxor_spec in Hbit.
  destruct (Z.testbit x j) eqn:Ex, (Z.testbit y j) eqn:Ey;
    simpl in Hbit; try discriminate.
  - exfalso.
    assert (y < x); [|lia].
    apply (lt_of_bits y x j); auto.
    intros k Hk. symmetry. auto.
  - auto.
Qed.

(** A number whose set bits are all set in another is not larger. *)
Lemma le_of_subset (x y : Z) :
  0 <= x -> 0 <= y ->
  (forall k, 0 <= k -> Z.testbit x k = true -> Z.testbit y k = true) ->
  x <= y.
Proof.
  intros Hx Hy Hsub.
  destruct (Z_le_gt_dec x y) as [|Hgt]; [assumption|exfalso].
  destruct (highest_differing_bit y x Hy ltac:(lia)) as (j & Hj & Ey & Ex & _).
  rewrite (Hsub j Hj Ex) in Ey. discriminate.
Qed.

(** The variant of [lt_of_bits] in which the smaller number is only
    included in the larger one above bit [j]. *)
Lemma lt_of_bits_subset (x y j : Z) :
  0 <= x -> 0 <= y -> 0 <= j ->
  Z.testbit x j = false -> Z.testbit y j = true ->
  (forall k, j < k -> Z.testbit x k = true -> Z.testbit y k = true) ->
  x < y.
Proof.
  intros Hx0 Hy0 Hj Hx Hy Hab.
  assert (Hq : Z.shiftr x (j + 1) <= Z.shiftr y (j + 1)).
  { apply le_of_subset.
    - apply Z.shiftr_nonneg; lia.
    - apply Z.shiftr_nonneg; lia.
    - intros k Hk. rewrite !Z.shiftr_spec by lia. apply Hab. lia. }
  rewrite !Z.shiftr_div_pow2 in Hq by lia.
  apply Z.testbit_false in Hx; [|lia].
  apply Z.testbit_true in Hy; [|lia].
  assert (Hp : 0 < 2 ^ j) by (apply Z.pow_pos_nonneg; lia).
  assert (Hs : 2 ^ (j + 1) = 2 ^ j * 2) by (rewrite Z.pow_add_r; lia).
  rewrite Hs in Hq.
  rewrite <- !Z.div_div in Hq by lia.
  pose proof (Z.div_mod x (2 ^ j) ltac:(lia)) as Ex.
  pose proof (Z.div_mod y (2 ^ j) ltac:(lia)) as Ey.
  pose proof (Z.mod_pos_bound x (2 ^ j) Hp).
  pose proof (Z.mod_pos_bound y (2 ^ j) Hp).
  pose proof (Z.div_mod (x / 2 ^ j) 2 ltac:(lia)) as Ex2.
  pose proof (Z.div_mod (y / 2 ^ j) 2 ltac:(lia)) as Ey2.
  rewrite Hx in Ex2. rewrite Hy in Ey2.
  rewrite Ex2 in Ex. rewrite Ey2 in Ey.
  clear Ex2 Ey2 Hx Hy Hs.
  nia.
Qed.

(** Bits at or above [n] of a number below [2^n] are clear. *)
Lemma testbit_high (x n k : Z) :
  0 <= x < 2 ^ n -> n <= k -> Z.testbit x k = false.
Proof.
  intros Hx Hk.
  destruct (Z.eq_dec x 0) as [->|Hn]; [apply Z.bits_0|].
  destruct (Z_lt_le_dec n 0) as [Hneg|Hpos].
  - rewrite Z.pow_neg_r in Hx by lia. lia.
  - apply Z.bits_above_log2; [lia|].
    assert (Z.log2 x < n); [|lia].
    apply Z.log2_lt_pow2; lia.
Qed.

(** A number all of whose set bits are below [n] is below [2^n]. *)
Lemma lt_pow2_of_bits (x n : Z) :
  0 <= x -> 0 <= n ->
  (forall k, n <= k -> Z.testbit x k = false) ->
  x < 2 ^ n.
Proof.
  intros Hx Hn Hb.
  destruct (Z.eq_dec x 0) as [->|Hx0].
  - apply Z.pow_pos_nonneg; lia.
  - apply Z.log2_lt_pow2; [lia|].
    destruct (Z_lt_le_dec (Z.log2 x) n) as [|Hle]; [assumption|exfalso].
    specialize (Hb (Z.log2 x) Hle). rewrite Z.bit_log2 in Hb by lia.
    discriminate.
Qed.

(** [x & -x] isolates the lowest set bit of a positive [x]. *)
Lemma land_opp_pos (p : positive) :
  exists i, 0 <= i /\ Z.land (Z.pos p) (- Z.pos p) = 2 ^ i /\
            Z.testbit (Z.pos p) i = true /\
            forall k, 0 <= k < i -> Z.testbit (Z.pos p) k = false.
Proof.
  induction p as [p _|p IH|].
  - exists 0. split; [lia|]. split; [|split].
    + apply Z.bits_inj'. intros n Hn.
      rewrite Z.land_spec.
      destruct (Z.eq_dec n 0) as [->|Hn0]; [reflexivity|].
      replace (- Z.pos p~1) with (Z.lnot (2 * Z.pos p)) by (unfold Z.lnot; lia).
      rewrite Z.lnot_spec by lia.
      replace n with (Z.succ (n - 1)) by lia.
      rewrite Pos2Z.inj_xI, Z.testbit_odd_succ, Z.testbit_even_succ by lia.
      rewrite andb_negb_r.
      symmetry. apply (Z.pow2_bits_false 0). lia.
    + reflexivity.
    + intros k Hk. lia.
  - destruct IH as (i & Hi & E & Hb & Hlow).
    exists (Z.succ i). split; [lia|]. split; [|split].
    + rewrite Pos2Z.inj_xO.
      replace (- (2 * Z.pos p)) with (2 * (- Z.pos p)) by lia.
      rewrite Z.pow_succ_r by lia. rewrite <- E.
      apply Z.bits_inj'. intros n Hn.
      rewrite Z.land_spec.
      destruct (Z.eq_dec n 0) as [->|Hn0].
      * rewrite !Z.testbit_even_0. reflexivity.
      * replace n with (Z.succ (n - 1)) by lia.
        rewrite !Z.testbit_even_succ by lia.
        rewrite Z.land_spec. reflexivity.
    + rewrite Pos2Z.inj_xO, Z.testbit_even_succ by lia. exact Hb.
    + intros k Hk. rewrite Pos2Z.inj_xO.
      destruct (Z.eq_dec k 0) as [->|Hk0]; [apply Z.testbit_even_0|].
      replace k with (Z.succ (k - 1)) by lia.
      rewrite Z.testbit_even_succ by lia. apply Hlow. lia.
  - exists 0. split; [lia|]. split; [reflexivity|]. split; [reflexivity|].
    intros k Hk. lia.
Qed.

End Bitwise.

(** * Properties of the embedding

    Everything below holds at every width [W > 0]. *)

Section Correctness.

Variable W : Z.
Hypothesis W_pos : 0 < W.

(** ** The machine operations *)

Lemma pow2W_pos : 0 < 2 ^ W.
Proof. apply Z.pow_pos_nonneg; lia. Qed.

Lemma wrap_in_U (x : Z) : in_U W (wrap W x).
Proof. unfold in_U, wrap. apply Z.mod_pos_bound, pow2W_pos. Qed.

Lemma wrap_small (x : Z) : in_U W x -> wrap W x = x.
Proof. unfold in_U, wrap. intros H. apply Z.mod_small. exact H. Qed.

Lemma testbit_wrap (x j : Z) :
  0 <= j -> Z.testbit (wrap W x) j = (j <? W) && Z.testbit x j.
Proof.
  intros Hj. unfold wrap.
  destruct (Z.ltb_spec j W).
  - rewrite Z.mod_pow2_bits_low by lia. reflexivity.
  - rewrite Z.mod_pow2_bits_high by lia. reflexivity.
Qed.

Lemma testbit_in_U (x j : Z) :
  in_U W x -> 0 <= j -> Z.testbit x j = (j <? W) && Z.testbit x j.
Proof.
  intros Hx Hj. rewrite <- testbit_wrap by assumption.
  rewrite wrap_small by assumption. reflexivity.
Qed.

Lemma testbit_in_U_high (x j : Z) :
  in_U W x -> W <= j -> Z.testbit x j = false.
Proof. intros Hx Hj. apply (Bitwise.testbit_high x W); assumption. Qed.

Lemma in_U_of_bits (x : Z) :
  0 <= x -> (forall k, W <= k -> Z.testbit x k = false) -> in_U W x.
Proof.
  intros Hx Hb. split; [assumption|].
  apply Bitwise.lt_pow2_of_bits; auto; lia.
Qed.

Lemma unot_in_U (x : Z) : in_U W (unot W x).
Proof. apply wrap_in_U. Qed.

Lemma testbit_unot (x j : Z) :
  0 <= j -> Z.testbit (unot W x) j = (j <? W) && negb (Z.testbit x j).
Proof.
  intros Hj. unfold unot. rewrite testbit_wrap by assumption.
  rewrite Z.lnot_spec by assumption. reflexivity.
Qed.

Lemma unot_eq (x : Z) : in_U W x -> unot W x = 2 ^ W - 1 - x.
Proof.
  unfold in_U, unot, wrap, Z.lnot. intros Hx.
  rewrite <- Z.sub_1_r.
  replace (- x - 1) with ((2 ^ W - 1 - x) + (-1) * 2 ^ W) by lia.
  rewrite Z.mod_add by lia.
  apply Z.mod_small. lia.
Qed.

Lemma unot_involutive (x : Z) : in_U W x -> unot W (unot W x) = x.
Proof.
  intros Hx. rewrite (unot_eq (unot W x)) by apply unot_in_U.
  rewrite unot_eq by assumption. lia.
Qed.

Lemma umax_in_U : in_U W (umax W).
Proof. pose proof pow2W_pos. unfold in_U, umax. lia. Qed.

Lemma testbit_umax (j : Z) : 0 <= j -> Z.testbit (umax W) j = (j <? W).
Proof.
  intros Hj. unfold umax. rewrite Z.sub_1_r, <- Z.ones_equiv.
  apply Z.testbit_ones_nonneg; lia.
Qed.

Lemma pow2_in_U (i : Z) : 0 <= i < W -> in_U W (2 ^ i).
Proof.
  intros Hi. split.
  - apply Z.pow_nonneg. lia.
  - apply Z.pow_lt_mono_r; lia.
Qed.

Lemma testbit_pow2 (i j : Z) : 0 <= i -> Z.testbit (2 ^ i) j = (j =? i).
Proof.
  intros Hi. destruct (Z.eqb_spec j i) as [->|Hne].
  - apply Z.pow2_bits_true. assumption.
  - apply Z.pow2_bits_false. congruence.
Qed.

(** [-(1 << i)] is the mask of the bits at and above [i]. *)
Lemma testbit_uneg_pow2 (i j : Z) :
  0 <= i -> 0 <= j ->
  Z.testbit (uneg W (2 ^ i)) j = (j <? W) && (i <=? j).
Proof.
  intros Hi Hj. unfold uneg. rewrite testbit_wrap by assumption.
  replace (- 2 ^ i) with (Z.lnot (Z.ones i)).
  - rewrite Z.lnot_spec by assumption.
    rewrite Z.testbit_ones_nonneg by assumption.
    f_equal. destruct (Z.ltb_spec j i), (Z.leb_spec i j); simpl; lia || reflexivity.
  - rewrite Z.ones_equiv. unfold Z.lnot. lia.
Qed.

(** [max << n] is the mask of the bits at and above [n], for a count
    below [W]. *)
Lemma testbit_ushl_umax (n j : Z) :
  0 <= n < W -> 0 <= j ->
  Z.testbit (ushl W (umax W) n) j = (j <? W) && (n <=? j).
Proof.
  intros Hn Hj. unfold ushl. rewrite Z.mod_small by assumption.
  rewrite testbit_wrap by assumption.
  rewrite Z.shiftl_spec by assumption.
  destruct (Z.leb_spec n j).
  - rewrite testbit_umax by lia.
    destruct (Z.ltb_spec j W), (Z.ltb_spec (j - n) W); simpl; lia || reflexivity.
  - rewrite Z.testbit_neg_r by lia. reflexivity.
Qed.

(** [~(max >> n)] is the mask of the [n] most significant bits. *)
Lemma testbit_unot_ushr_umax (n j : Z) :
  0 <= n -> 0 <= j ->
  Z.testbit (unot W (ushr (umax W) n)) j = (j <? W) && (W - n <=? j).
Proof.
  intros Hn Hj. rewrite testbit_unot by assumption. unfold ushr.
  rewrite Z.shiftr_spec by assumption.
  rewrite testbit_umax by lia.
  destruct (Z.ltb_spec j W), (Z.ltb_spec (j + n) W), (Z.leb_spec (W - n) j);
    simpl; lia || reflexivity.
Qed.

Lemma ushl_1 (i : Z) : 0 <= i < W -> ushl W 1 i = 2 ^ i.
Proof.
  intros Hi. unfold ushl. rewrite Z.mod_small by assumption.
  rewrite Z.shiftl_1_l.
  apply wrap_small, pow2_in_U, Hi.
Qed.

(** The shift by [W] leaves the value as it is. *)
Lemma ushl_W (x : Z) : in_U W x -> ushl W x W = x.
Proof.
  intros Hx. unfold ushl. rewrite Z.mod_same by lia.
  rewrite Z.shiftl_0_r. apply wrap_small. assumption.
Qed.

(** The most significant bit of a value of type [U]. *)
Lemma testbit_msb (x : Z) :
  in_U W x -> Z.testbit x (W - 1) = (2 ^ (W - 1) <=? x).
Proof.
  intros [Hx0 Hx].
  assert (HD : 2 ^ W = 2 * 2 ^ (W - 1)).
  { replace W with (Z.succ (W - 1)) at 1 by lia.
    rewrite Z.pow_succ_r by lia. reflexivity. }
  assert (HP : 0 < 2 ^ (W - 1)) by (apply Z.pow_pos_nonneg; lia).
  destruct (Z.leb_spec (2 ^ (W - 1)) x).
  - apply Z.testbit_true; [lia|].
    replace (x / 2 ^ (W - 1)) with 1; [reflexivity|].
    apply (Z.div_unique x (2 ^ (W - 1)) 1 (x - 2 ^ (W - 1))); lia.
  - apply Z.testbit_false; [lia|].
    rewrite Z.div_small by lia. reflexivity.
Qed.

Lemma land_in_U (x y : Z) : in_U W x -> 0 <= y -> in_U W (Z.land x y).
Proof.
  intros Hx Hy. apply in_U_of_bits.
  - apply Z.land_nonneg. left. apply Hx.
  - intros k Hk. rewrite Z.land_spec, (testbit_in_U_high x) by assumption.
    reflexivity.
Qed.

Lemma lor_in_U (x y : Z) : in_U W x -> in_U W y -> in_U W (Z.lor x y).
Proof.
  intros Hx Hy. apply in_U_of_bits.
  - apply Z.lor_nonneg. split; [apply Hx|apply Hy].
  - intros k Hk.
    rewrite Z.lor_spec, (testbit_in_U_high x), (testbit_in_U_high y)
      by assumption.
    reflexivity.
Qed.

(** ** adjust_lo *)

Lemma is_satisfied_by_iff (bits : KnownBits) (v : Z) :
  in_U W v ->
  is_satisfied_by W bits v = true <->
  forall j, 0 <= j < W -> bit_ok bits v j.
Proof.
  intros Hv. unfold is_satisfied_by. rewrite andb_true_iff, !Z.eqb_eq.
  split.
  - intros [Hz Ho] j Hj. split; intros Hb.
    + apply (f_equal (fun x => Z.testbit x j)) in Hz.
      rewrite Z.land_spec, Z.bits_0, Hb, andb_true_r in Hz. exact Hz.
    + apply (f_equal (fun x => Z.testbit x j)) in Ho.
      rewrite Z.land_spec, Z.bits_0, Hb, andb_true_r in Ho.
      rewrite testbit_unot in Ho by lia.
      destruct (Z.ltb_spec j W); [|lia].
      destruct (Z.testbit v j); [reflexivity|discriminate].
  - intros Hok. split; apply Z.bits_inj'; intros n Hn;
      rewrite Z.land_spec, Z.bits_0.
    + destruct (Z.ltb_spec n W).
      * destruct (Z.testbit (_zeros bits) n) eqn:E.
        -- destruct (Hok n ltac:(lia)) as [Hz _]. rewrite (Hz E). reflexivity.
        -- apply andb_false_r.
      * rewrite (testbit_in_U_high v n) by assumption. reflexivity.
    + rewrite testbit_unot by assumption.
      destruct (Z.ltb_spec n W); [|reflexivity].
      destruct (Z.testbit (_ones bits) n) eqn:E.
      * destruct (Hok n ltac:(lia)) as [_ Ho]. rewrite (Ho E). reflexivity.
      * apply andb_false_r.
Qed.

Lemma not_satisfied_bit (bits : KnownBits) (v : Z) :
  in_U W v -> (exists j, 0 <= j < W /\ ~ bit_ok bits v j) ->
  is_satisfied_by W bits v = false.
Proof.
  intros Hv (j & Hj & Hn).
  destruct (is_satisfied_by W bits v) eqn:E; [|reflexivity].
  exfalso. apply Hn. apply (proj1 (is_satisfied_by_iff bits v Hv) E). exact Hj.
Qed.

Section Candidate.

Variables (lo : Z) (bits : KnownBits) (i : Z).
Hypothesis lo_in : in_U W lo.
Hypothesis bits_in : bits_in_U W bits.
Hypothesis bits_ok : Z.land (_zeros bits) (_ones bits) = 0.
Hypothesis i_in : 0 <= i < W.
Hypothesis i_pivot : pivot W lo bits i.

Lemma consistent_bit (j : Z) :
  Z.testbit (_zeros bits) j = true -> Z.testbit (_ones bits) j = true -> False.
Proof using bits_ok.
  intros Hz Ho.
  assert (E : Z.testbit (Z.land (_zeros bits) (_ones bits)) j = true)
    by (rewrite Z.land_spec, Hz, Ho; reflexivity).
  rewrite bits_ok, Z.bits_0 in E. discriminate.
Qed.

Lemma candidate_testbit (j : Z) :
  0 <= j ->
  Z.testbit (candidate W lo bits i) j =
  if j <? i then Z.testbit (_ones bits) j
  else if j =? i then true else Z.testbit lo j.
Proof using W_pos lo_in bits_in i_in i_pivot.
  intros Hj. unfold candidate.
  destruct i_pivot as (Hlo & _ & Habove).
  set (a := Z.land lo (uneg W (2 ^ i))).
  assert (Hdisj : Z.land a (2 ^ i) = 0).
  { apply Z.bits_inj'. intros n Hn. unfold a.
    rewrite !Z.land_spec, Z.bits_0, testbit_pow2 by lia.
    destruct (Z.eqb_spec n i) as [->|]; [|apply andb_false_r].
    rewrite Hlo. reflexivity. }
  assert (Hsum : uadd W a (2 ^ i) = Z.lor a (2 ^ i)).
  { unfold uadd. rewrite Z.add_nocarry_lxor, Z.lxor_lor by exact Hdisj.
    apply wrap_small.
    apply lor_in_U; [|apply pow2_in_U; assumption].
    apply land_in_U; [assumption|]. apply wrap_in_U. }
  rewrite Hsum, !Z.lor_spec. unfold a.
  rewrite Z.land_spec, testbit_uneg_pow2, testbit_pow2 by lia.
  destruct (Z.ltb_spec j i), (Z.eqb_spec j i), (Z.ltb_spec j W),
    (Z.leb_spec i j); try lia; simpl;
    rewrite ?andb_false_r, ?andb_true_r, ?orb_false_r; try reflexivity.
  - destruct (Z.testbit (_ones bits) j) eqn:E.
    + destruct (Habove j ltac:(lia)) as [_ Ho]. rewrite (Ho E). reflexivity.
    + apply orb_false_r.
  - rewrite (testbit_in_U_high (_ones bits) j) by (apply bits_in || lia).
    rewrite (testbit_in_U_high lo j) by (assumption || lia).
    reflexivity.
Qed.

Lemma candidate_in_U : in_U W (candidate W lo bits i).
Proof using W_pos lo_in bits_in i_in i_pivot.
  apply in_U_of_bits.
  - unfold candidate. apply Z.lor_nonneg. split.
    + apply wrap_in_U.
    + apply bits_in.
  - intros k Hk. rewrite candidate_testbit by lia.
    destruct (Z.ltb_spec k i), (Z.eqb_spec k i); try lia.
    apply testbit_in_U_high; assumption.
Qed.

Lemma candidate_gt : lo < candidate W lo bits i.
Proof using W_pos lo_in bits_in i_in i_pivot.
  apply (Bitwise.lt_of_bits lo _ i); [lia|exact (proj1 i_pivot)| |].
  - rewrite candidate_testbit by lia.
    rewrite Z.ltb_irrefl, Z.eqb_refl. reflexivity.
  - intros k Hk. rewrite candidate_testbit by lia.
    destruct (Z.ltb_spec k i), (Z.eqb_spec k i); try lia. reflexivity.
Qed.

Lemma candidate_bit_ok (j : Z) :
  0 <= j < W -> bit_ok bits (candidate W lo bits i) j.
Proof using W_pos lo_in bits_in bits_ok i_in i_pivot.
  intros Hj. unfold bit_ok. rewrite candidate_testbit by lia.
  destruct i_pivot as (Hlo & Hz & Habove).
  destruct (Z.ltb_spec j i); [|destruct (Z.eqb_spec j i) as [->|]].
  - split; [|auto]. intros Hzj.
    destruct (Z.testbit (_ones bits) j) eqn:E; [|reflexivity].
    exfalso. exact (consistent_bit j Hzj E).
  - split; [|auto]. intros Hzj. congruence.
  - apply Habove. lia.
Qed.

Lemma candidate_satisfies :
  is_satisfied_by W bits (candidate W lo bits i) = true.
Proof using W_pos lo_in bits_in bits_ok i_in i_pivot.
  apply is_satisfied_by_iff; [apply candidate_in_U|].
  apply candidate_bit_ok.
Qed.

End Candidate.

(** The value computed from the alignment [1 << i] at a bit [i] that is 0
    in [lo], whether or not the bits of [lo] above [i] satisfy [bits]. *)
Section Alignment.

Variables (lo : Z) (bits : KnownBits) (i : Z).
Hypothesis lo_in : in_U W lo.
Hypothesis bits_in : bits_in_U W bits.
Hypothesis i_in : 0 <= i < W.
Hypothesis lo_i : Z.testbit lo i = false.

Lemma aligned_testbit (j : Z) :
  0 <= j ->
  Z.testbit (candidate W lo bits i) j =
  if j <? i then Z.testbit (_ones bits) j
  else if j =? i then true
  else Z.testbit lo j || Z.testbit (_ones bits) j.
Proof using W_pos lo_in bits_in i_in lo_i.
  intros Hj. unfold candidate.
  set (a := Z.land lo (uneg W (2 ^ i))).
  assert (Hdisj : Z.land a (2 ^ i) = 0).
  { apply Z.bits_inj'. intros n Hn. unfold a.
    rewrite !Z.land_spec, Z.bits_0, testbit_pow2 by lia.
    destruct (Z.eqb_spec n i) as [->|]; [|apply andb_false_r].
    rewrite lo_i. reflexivity. }
  assert (Hsum : uadd W a (2 ^ i) = Z.lor a (2 ^ i)).
  { unfold uadd. rewrite Z.add_nocarry_lxor, Z.lxor_lor by exact Hdisj.
    apply wrap_small.
    apply lor_in_U; [|apply pow2_in_U; assumption].
    apply land_in_U; [assumption|]. apply wrap_in_U. }
  rewrite Hsum, !Z.lor_spec. unfold a.
  rewrite Z.land_spec, testbit_uneg_pow2, testbit_pow2 by lia.
  destruct (Z.ltb_spec j i), (Z.eqb_spec j i), (Z.ltb_spec j W),
    (Z.leb_spec i j); try lia; simpl;
    rewrite ?andb_false_r, ?andb_true_r, ?orb_false_r; try reflexivity.
  rewrite (testbit_in_U_high lo j) by (assumption || lia). reflexivity.
Qed.

Lemma aligned_in_U : in_U W (candidate W lo bits i).
Proof using W_pos lo_in bits_in i_in lo_i.
  apply in_U_of_bits.
  - unfold candidate. apply Z.lor_nonneg. split.
    + apply wrap_in_U.
    + apply bits_in.
  - intros k Hk. rewrite aligned_testbit by lia.
    destruct (Z.ltb_spec k i), (Z.eqb_spec k i); try lia.
    rewrite (testbit_in_U_high lo k) by assumption.
    apply testbit_in_U_high; [apply bits_in|assumption].
Qed.

Lemma aligned_gt : lo < candidate W lo bits i.
Proof using W_pos lo_in bits_in i_in lo_i.
  apply (Bitwise.lt_of_bits_subset lo _ i);
    [apply lo_in|apply aligned_in_U|lia|assumption| |].
  - rewrite aligned_testbit by lia.
    rewrite Z.ltb_irrefl, Z.eqb_refl. reflexivity.
  - intros k Hk. rewrite aligned_testbit by lia.
    destruct (Z.ltb_spec k i), (Z.eqb_spec k i); try lia.
    intros ->. reflexivity.
Qed.

End Alignment.

(** Any satisfying value above [lo] first differs from [lo] at a pivot. *)
Lemma larger_satisfying_pivot (lo v : Z) (bits : KnownBits) :
  in_U W lo -> in_U W v -> lo < v ->
  is_satisfied_by W bits v = true ->
  exists j, 0 <= j < W /\ pivot W lo bits j /\
            Z.testbit v j = true /\
            forall k, j < k -> Z.testbit lo k = Z.testbit v k.
Proof.
  intros Hlo Hv Hlt Hsat.
  destruct (Bitwise.highest_differing_bit lo v ltac:(apply Hlo) Hlt)
    as (j & Hj & Elo & Ev & Habove).
  assert (HjW : j < W).
  { destruct (Z_lt_le_dec j W); [assumption|].
    rewrite (testbit_in_U_high v j) in Ev by assumption. discriminate. }
  pose proof (proj1 (is_satisfied_by_iff bits v Hv) Hsat) as Hok.
  exists j. split; [lia|]. split; [|split; assumption].
  split; [assumption|]. split.
  - destruct (Z.testbit (_zeros bits) j) eqn:E; [|reflexivity].
    destruct (Hok j ltac:(lia)) as [Hz _]. rewrite (Hz E) in Ev. discriminate.
  - intros k Hk. unfold bit_ok. rewrite (Habove k) by lia.
    apply Hok. lia.
Qed.

(** The candidate of the lowest pivot is below every satisfying value that
    is not less than [lo], when [lo] itself does not satisfy the bits. *)
Lemma candidate_least (lo v : Z) (bits : KnownBits) (i : Z) :
  in_U W lo -> bits_in_U W bits -> 0 <= i < W ->
  pivot W lo bits i ->
  (forall i', 0 <= i' < i -> ~ pivot W lo bits i') ->
  is_satisfied_by W bits lo = false ->
  in_U W v -> lo <= v -> is_satisfied_by W bits v = true ->
  candidate W lo bits i <= v.
Proof.
  intros Hlo Hbits Hi Hp Hmax Hnlo Hv Hle Hsat.
  assert (Hlt : lo < v).
  { destruct (Z.eq_dec lo v) as [->|]; [congruence|lia]. }
  destruct (larger_satisfying_pivot lo v bits Hlo Hv Hlt Hsat)
    as (j & Hj & Hpj & Ev & Habove).
  pose proof (candidate_in_U lo bits i Hlo Hbits Hi Hp) as Hc.
  pose proof (candidate_testbit lo bits i Hlo Hbits Hi Hp) as Hcb.
  destruct (Z_lt_le_dec j i) as [Hji|Hij].
  { exfalso. apply (Hmax j); [lia|assumption]. }
  destruct (Z.eq_dec j i) as [->|Hne].
  - apply Bitwise.le_of_subset; [apply Hc|apply Hv|].
    intros k Hk. rewrite Hcb by assumption.
    destruct (Z.ltb_spec k i); [|destruct (Z.eqb_spec k i) as [->|]].
    + intros Ho. destruct (Z_lt_le_dec k W).
      * apply (proj1 (is_satisfied_by_iff bits v Hv) Hsat k); [lia|assumption].
      * rewrite (testbit_in_U_high (_ones bits) k) in Ho
          by (apply Hbits || assumption).
        discriminate.
    + intros _. assumption.
    + intros E. rewrite <- Habove by lia. assumption.
  - apply Z.lt_le_incl.
    apply (Bitwise.lt_of_bits _ v j); [lia| |assumption|].
    + rewrite Hcb by lia.
      destruct (Z.ltb_spec j i), (Z.eqb_spec j i); try lia. exact (proj1 Hpj).
    + intros k Hk. rewrite Hcb by lia.
      destruct (Z.ltb_spec k i), (Z.eqb_spec k i); try lia.
      apply Habove. assumption.
Qed.

(** Without a pivot no value above [lo] satisfies the bits. *)
Lemma no_pivot_infeasible (lo v : Z) (bits : KnownBits) :
  in_U W lo ->
  (forall i, 0 <= i < W -> ~ pivot W lo bits i) ->
  is_satisfied_by W bits lo = false ->
  in_U W v -> lo <= v -> is_satisfied_by W bits v = false.
Proof.
  intros Hlo Hnone Hnlo Hv Hle.
  destruct (is_satisfied_by W bits v) eqn:Hsat; [exfalso|reflexivity].
  assert (Hlt : lo < v).
  { destruct (Z.eq_dec lo v) as [->|]; [congruence|lia]. }
  destruct (larger_satisfying_pivot lo v bits Hlo Hv Hlt Hsat)
    as (j & Hj & Hpj & _).
  exact (Hnone j Hj Hpj).
Qed.

(** *** The outcomes of [adjust_lo] *)

Section AdjustLoBranches.

Variables (lo : Z) (bits : KnownBits).
Hypothesis lo_in : in_U W lo.
Hypothesis bits_in : bits_in_U W bits.
Hypothesis bits_ok : Z.land (_zeros bits) (_ones bits) = 0.

Let zero_violation := Z.land lo (_zeros bits).
Let one_violation := Z.land (unot W lo) (_ones bits).

Lemma zero_violation_in_U : in_U W zero_violation.
Proof using lo_in bits_in W_pos.
  apply land_in_U; [assumption|apply bits_in].
Qed.

Lemma one_violation_in_U : in_U W one_violation.
Proof using bits_in W_pos.
  apply land_in_U; [apply unot_in_U|apply bits_in].
Qed.

Lemma testbit_zero_violation (j : Z) :
  Z.testbit zero_violation j = Z.testbit lo j && Z.testbit (_zeros bits) j.
Proof. apply Z.land_spec. Qed.

Lemma testbit_one_violation (j : Z) :
  0 <= j < W ->
  Z.testbit one_violation j = negb (Z.testbit lo j) && Z.testbit (_ones bits) j.
Proof using W_pos.
  intros Hj. unfold one_violation.
  rewrite Z.land_spec, testbit_unot by lia.
  destruct (Z.ltb_spec j W); [reflexivity|lia].
Qed.

(** The violations never share a bit, so they are equal only when both are
    zero: the first assertion of [adjust_lo]. *)
Lemma equal_violations_zero :
  zero_violation = one_violation -> zero_violation = 0 /\ one_violation = 0.
Proof using W_pos.
  intros E.
  assert (Hz : zero_violation = 0).
  { apply Z.bits_inj'. intros n Hn. rewrite Z.bits_0.
    pose proof (f_equal (fun x => Z.testbit x n) E) as En. simpl in En.
    unfold zero_violation, one_violation in *.
    rewrite !Z.land_spec, testbit_unot in En by assumption.
    rewrite Z.land_spec.
    destruct (Z.testbit lo n), (Z.testbit (_zeros bits) n),
      (Z.testbit (_ones bits) n), (n <? W); simpl in *; congruence. }
  split; [assumption|congruence].
Qed.

(** When no bit above [k] is violated, [lo] satisfies the bits there. *)
Lemma bit_ok_above (k : Z) :
  (forall j, k < j -> Z.testbit zero_violation j = false) ->
  (forall j, k < j -> Z.testbit one_violation j = false) ->
  forall j, k < j < W -> 0 <= j -> bit_ok bits lo j.
Proof using W_pos.
  intros Hz Ho j Hj Hj0. split; intros Hb.
  - specialize (Hz j ltac:(lia)). rewrite testbit_zero_violation, Hb in Hz.
    rewrite andb_true_r in Hz. exact Hz.
  - specialize (Ho j ltac:(lia)). rewrite testbit_one_violation, Hb in Ho by lia.
    rewrite andb_true_r in Ho. destruct (Z.testbit lo j); [reflexivity|discriminate].
Qed.

(** A number below another has no set bit above the top bit of the
    latter. *)
Lemma testbit_above_log2_of_lt (x y j : Z) :
  0 <= x -> x < y -> Z.log2 y < j -> Z.testbit x j = false.
Proof.
  intros Hx Hxy Hj.
  apply (Bitwise.testbit_high x (Z.succ (Z.log2 y))); [|lia].
  pose proof (Z.log2_spec y ltac:(lia)). lia.
Qed.

Lemma log2_in_U (x : Z) : in_U W x -> 0 < x -> 0 <= Z.log2 x < W.
Proof using W_pos.
  intros Hx Hpos. split; [apply Z.log2_nonneg|].
  apply Z.log2_lt_pow2; [assumption|apply Hx].
Qed.

(** The branch taken when the first violation is a 0 that should be a 1. *)
Lemma adjust_lo_one_branch :
  zero_violation < one_violation ->
  exists i, 0 <= i < W /\ pivot W lo bits i /\
    (forall i', 0 <= i' < i -> ~ pivot W lo bits i') /\
    is_satisfied_by W bits lo = false /\
    adjust_lo W lo bits = candidate W lo bits i.
Proof using W_pos lo_in bits_in bits_ok.
  intros Hlt.
  pose proof zero_violation_in_U as Hzv.
  pose proof one_violation_in_U as Hov.
  assert (Hpos : 0 < one_violation) by (unfold in_U in Hzv; lia).
  set (i := Z.log2 one_violation).
  assert (Hi : 0 <= i < W) by (apply log2_in_U; assumption).
  assert (Hbit : Z.testbit one_violation i = true) by (apply Z.bit_log2; assumption).
  rewrite testbit_one_violation in Hbit by assumption.
  apply andb_true_iff in Hbit. destruct Hbit as [Hlo Hone].
  apply negb_true_iff in Hlo.
  assert (Hnok : ~ bit_ok bits lo i).
  { intros [_ Ho]. rewrite (Ho Hone) in Hlo. discriminate. }
  exists i. split; [assumption|]. split; [|split; [|split]].
  - split; [assumption|]. split.
    + destruct (Z.testbit (_zeros bits) i) eqn:E; [|reflexivity].
      exfalso. exact (consistent_bit bits bits_ok i E Hone).
    + intros j Hj. apply (bit_ok_above i); try lia.
      * intros j' Hj'. apply (testbit_above_log2_of_lt _ one_violation);
          [apply Hzv|assumption|assumption].
      * intros j' Hj'. apply Z.bits_above_log2; [lia|assumption].
  - intros i' Hi' (_ & _ & Habove). apply Hnok. apply Habove. lia.
  - apply not_satisfied_bit; [assumption|]. exists i. auto.
  - unfold adjust_lo. fold zero_violation one_violation.
    destruct (Z.eqb_spec zero_violation one_violation); [lia|].
    destruct (Z.ltb_spec zero_violation one_violation); [|lia].
    unfold count_leading_zeros, candidate.
    replace (W - 1 - (W - 1 - Z.log2 one_violation)) with i by (unfold i; lia).
    rewrite ushl_1 by assumption. reflexivity.
Qed.

(** The branch taken when the first violation is a 1 that should be a 0,
    below the most significant bit: either a pivot is found above the
    violation, or the computation overflows and leaves [bits._ones]. *)
Lemma adjust_lo_zero_branch :
  one_violation < zero_violation ->
  Z.log2 zero_violation < W - 1 ->
  is_satisfied_by W bits lo = false /\
  ((exists i, 0 <= i < W /\ pivot W lo bits i /\
      (forall i', 0 <= i' < i -> ~ pivot W lo bits i') /\
      adjust_lo W lo bits = candidate W lo bits i) \/
   ((forall i, 0 <= i < W -> ~ pivot W lo bits i) /\
    adjust_lo W lo bits = _ones bits /\ _ones bits < lo)).
Proof using W_pos lo_in bits_in bits_ok.
  intros Hlt Hbelow.
  pose proof zero_violation_in_U as Hzv.
  pose proof one_violation_in_U as Hov.
  assert (Hpos : 0 < zero_violation) by (unfold in_U in Hov; lia).
  set (k := Z.log2 zero_violation) in *.
  assert (Hk : 0 <= k < W) by (apply log2_in_U; assumption).
  assert (Hbit : Z.testbit zero_violation k = true) by (apply Z.bit_log2; assumption).
  rewrite testbit_zero_violation in Hbit.
  apply andb_true_iff in Hbit. destruct Hbit as [Hlo Hzero].
  assert (Hnok : ~ bit_ok bits lo k).
  { intros [Hz _]. rewrite (Hz Hzero) in Hlo. discriminate. }
  assert (Habove : forall j, k < j < W -> bit_ok bits lo j).
  { intros j Hj. apply (bit_ok_above k); try lia.
    - intros j' Hj'. apply Z.bits_above_log2; [lia|assumption].
    - intros j' Hj'. apply (testbit_above_log2_of_lt _ zero_violation);
        [apply Hov|assumption|assumption]. }
  split.
  { apply not_satisfied_bit; [assumption|]. exists k. auto. }
  set (tmp := Z.land (unot W (Z.lor lo (_zeros bits))) (ushl W (umax W) (k + 1))).
  assert (Htmp_bits : forall j, 0 <= j -> Z.testbit tmp j =
            (j <? W) && negb (Z.testbit lo j || Z.testbit (_zeros bits) j)
            && (k + 1 <=? j)).
  { intros j Hj. unfold tmp.
    rewrite Z.land_spec, testbit_unot, testbit_ushl_umax, Z.lor_spec by lia.
    destruct (j <? W), (k + 1 <=? j),
      (Z.testbit lo j || Z.testbit (_zeros bits) j); reflexivity. }
  assert (Htmp_in : in_U W tmp).
  { apply land_in_U; [apply unot_in_U|]. apply wrap_in_U. }
  assert (Hlow_no_pivot : forall i', 0 <= i' <= k -> ~ pivot W lo bits i').
  { intros i' Hi' (Hlo' & _ & Hab').
    destruct (Z.eq_dec i' k) as [->|]; [congruence|].
    apply Hnok, Hab'. lia. }
  assert (Hcode : adjust_lo W lo bits =
     Z.lor (uadd W (Z.land lo (uneg W (Z.land tmp (uneg W tmp))))
                 (Z.land tmp (uneg W tmp))) (_ones bits)).
  { unfold adjust_lo. fold zero_violation one_violation.
    destruct (Z.eqb_spec zero_violation one_violation); [lia|].
    destruct (Z.ltb_spec zero_violation one_violation); [lia|].
    unfold count_leading_zeros.
    replace (W - (W - 1 - Z.log2 zero_violation)) with (k + 1) by (unfold k; lia).
    reflexivity. }
  destruct (Z.eq_dec tmp 0) as [E0|Hne].
  - right. split; [|split].
    + intros i Hi Hp. destruct (Z_le_gt_dec i k); [apply (Hlow_no_pivot i); auto; lia|].
      pose proof (Htmp_bits i ltac:(lia)) as Hb.
      rewrite E0, Z.bits_0 in Hb. destruct Hp as (Hl & Hz & _).
      rewrite Hl, Hz in Hb.
      destruct (Z.ltb_spec i W), (Z.leb_spec (k + 1) i); simpl in Hb;
        try lia; discriminate.
    + rewrite Hcode, E0. unfold uneg, uadd, wrap.
      rewrite Z.land_0_l, Z.opp_0, Z.mod_0_l by (pose proof pow2W_pos; lia).
      rewrite Z.land_0_r, Z.add_0_r, Z.mod_0_l by (pose proof pow2W_pos; lia).
      reflexivity.
    + apply (Bitwise.lt_of_bits_subset _ lo k);
        [apply bits_in|apply lo_in|lia| |assumption|].
      * destruct (Z.testbit (_ones bits) k) eqn:E; [|reflexivity].
        exfalso. exact (consistent_bit bits bits_ok k Hzero E).
      * intros j Hj Ho. destruct (Z_lt_le_dec j W).
        -- apply (Habove j); [lia|assumption].
        -- rewrite (testbit_in_U_high (_ones bits) j) in Ho
             by (apply bits_in || assumption).
           discriminate.
  - left.
    assert (Hpos' : 0 < tmp) by (unfold in_U in Htmp_in; lia).
    destruct tmp as [|p|p] eqn:Etmp; try lia.
    destruct (Bitwise.land_opp_pos p) as (i & Hi0 & Ealign & Hbi & Hlowest).
    assert (Ealign' : Z.land (Z.pos p) (uneg W (Z.pos p)) = 2 ^ i).
    { rewrite <- Ealign. apply Z.bits_inj'. intros n Hn.
      unfold uneg. rewrite !Z.land_spec, testbit_wrap by assumption.
      destruct (Z.ltb_spec n W); [reflexivity|].
      rewrite (testbit_in_U_high (Z.pos p) n) by assumption. reflexivity. }
    rewrite Htmp_bits in Hbi by assumption.
    apply andb_true_iff in Hbi. destruct Hbi as [Hbi Hki].
    apply andb_true_iff in Hbi. destruct Hbi as [HiW Hfree].
    apply Z.ltb_lt in HiW. apply Z.leb_le in Hki.
    apply negb_true_iff, orb_false_iff in Hfree. destruct Hfree as [Hli Hzi].
    exists i. split; [lia|]. split; [|split].
    + split; [assumption|]. split; [assumption|].
      intros j Hj. apply Habove. lia.
    + intros i' Hi' Hp.
      destruct (Z_le_gt_dec i' k); [apply (Hlow_no_pivot i'); auto; lia|].
      pose proof (Hlowest i' Hi') as Hb.
      rewrite Htmp_bits in Hb by lia. destruct Hp as (Hl & Hz & _).
      rewrite Hl, Hz in Hb.
      destruct (Z.ltb_spec i' W), (Z.leb_spec (k + 1) i'); simpl in Hb;
        try lia; discriminate.
    + rewrite Hcode, Ealign'. reflexivity.
Qed.

(** The same branch when the violation is at the most significant bit:
    [first_violation] is [W], the shift leaves [find_mask] with every bit
    set, and the alignment is taken at the lowest bit that is 0 in [lo] and
    in [bits._zeros], if there is one.  No value from [lo] on satisfies the
    bits; the result is [bits._ones] only when [lo | bits._zeros] has every
    bit set, and otherwise it is above [lo]. *)
Lemma adjust_lo_msb_branch :
  one_violation < zero_violation ->
  Z.log2 zero_violation = W - 1 ->
  is_satisfied_by W bits lo = false /\
  (forall i, 0 <= i < W -> ~ pivot W lo bits i) /\
  Z.testbit lo (W - 1) = true /\ Z.testbit (_zeros bits) (W - 1) = true /\
  ((adjust_lo W lo bits = _ones bits /\ _ones bits < lo) \/
   (in_U W (adjust_lo W lo bits) /\ lo < adjust_lo W lo bits /\
    Z.testbit (adjust_lo W lo bits) (W - 1) = true)).
Proof using W_pos lo_in bits_in bits_ok.
  intros Hlt Htop.
  pose proof zero_violation_in_U as Hzv.
  pose proof one_violation_in_U as Hov.
  assert (Hpos : 0 < zero_violation) by (unfold in_U in Hov; lia).
  assert (Hbit : Z.testbit zero_violation (W - 1) = true)
    by (rewrite <- Htop; apply Z.bit_log2; assumption).
  rewrite testbit_zero_violation in Hbit.
  apply andb_true_iff in Hbit. destruct Hbit as [Hlo Hzero].
  assert (Hnok : ~ bit_ok bits lo (W - 1)).
  { intros [Hz _]. rewrite (Hz Hzero) in Hlo. discriminate. }
  assert (Hnone : forall i, 0 <= i < W -> ~ pivot W lo bits i).
  { intros i Hi (Hlo' & _ & Hab').
    destruct (Z.eq_dec i (W - 1)) as [->|]; [congruence|].
    apply Hnok, Hab'. lia. }
  split.
  { apply not_satisfied_bit; [assumption|]. exists (W - 1). split; [lia|auto]. }
  split; [assumption|]. split; [assumption|]. split; [assumption|].
  set (tmp := Z.land (unot W (Z.lor lo (_zeros bits))) (umax W)).
  assert (Htmp_bits : forall j, 0 <= j -> Z.testbit tmp j =
            (j <? W) && negb (Z.testbit lo j || Z.testbit (_zeros bits) j)).
  { intros j Hj. unfold tmp.
    rewrite Z.land_spec, testbit_unot, testbit_umax, Z.lor_spec by lia.
    destruct (j <? W),
      (Z.testbit lo j || Z.testbit (_zeros bits) j); reflexivity. }
  assert (Htmp_in : in_U W tmp).
  { apply land_in_U; [apply unot_in_U|]. pose proof umax_in_U as Hm.
    apply Hm. }
  assert (Hcode : adjust_lo W lo bits =
     Z.lor (uadd W (Z.land lo (uneg W (Z.land tmp (uneg W tmp))))
                 (Z.land tmp (uneg W tmp))) (_ones bits)).
  { unfold adjust_lo. fold zero_violation one_violation.
    destruct (Z.eqb_spec zero_violation one_violation); [lia|].
    destruct (Z.ltb_spec zero_violation one_violation); [lia|].
    unfold count_leading_zeros. rewrite Htop.
    replace (W - (W - 1 - (W - 1))) with W by lia.
    rewrite (ushl_W (umax W) umax_in_U). reflexivity. }
  destruct (Z.eq_dec tmp 0) as [E0|Hne].
  - left. split.
    + rewrite Hcode, E0. unfold uneg, uadd, wrap.
      rewrite Z.land_0_l, Z.opp_0, Z.mod_0_l by (pose proof pow2W_pos; lia).
      rewrite Z.land_0_r, Z.add_0_r, Z.mod_0_l by (pose proof pow2W_pos; lia).
      reflexivity.
    + apply (Bitwise.lt_of_bits_subset _ lo (W - 1));
        [apply bits_in|apply lo_in|lia| |assumption|].
      * destruct (Z.testbit (_ones bits) (W - 1)) eqn:E; [|reflexivity].
        exfalso. exact (consistent_bit bits bits_ok (W - 1) Hzero E).
      * intros j Hj Ho.
        rewrite (testbit_in_U_high (_ones bits) j) in Ho
          by (apply bits_in || lia).
        discriminate.
  - right.
    assert (Hpos' : 0 < tmp) by (unfold in_U in Htmp_in; lia).
    destruct tmp as [|p|p] eqn:Etmp; try lia.
    destruct (Bitwise.land_opp_pos p) as (i & Hi0 & Ealign & Hbi & Hlowest).
    assert (Ealign' : Z.land (Z.pos p) (uneg W (Z.pos p)) = 2 ^ i).
    { rewrite <- Ealign. apply Z.bits_inj'. intros n Hn.
      unfold uneg. rewrite !Z.land_spec, testbit_wrap by assumption.
      destruct (Z.ltb_spec n W); [reflexivity|].
      rewrite (testbit_in_U_high (Z.pos p) n) by assumption. reflexivity. }
    rewrite Htmp_bits in Hbi by assumption.
    apply andb_true_iff in Hbi. destruct Hbi as [HiW Hfree].
    apply Z.ltb_lt in HiW.
    apply negb_true_iff, orb_false_iff in Hfree. destruct Hfree as [Hli Hzi].
    assert (Hi : 0 <= i < W) by lia.
    assert (Hi' : i < W - 1).
    { destruct (Z.eq_dec i (W - 1)) as [->|]; [congruence|lia]. }
    assert (E : adjust_lo W lo bits = candidate W lo bits i).
    { rewrite Hcode, Ealign'. reflexivity. }
    rewrite E.
    split; [apply aligned_in_U; assumption|].
    split; [apply aligned_gt; assumption|].
    rewrite aligned_testbit by (assumption || lia).
    destruct (Z.ltb_spec (W - 1) i), (Z.eqb_spec (W - 1) i); try lia.
    rewrite Hlo. reflexivity.
Qed.

End AdjustLoBranches.

Lemma adjust_lo_outcome (lo : Z) (bits : KnownBits) :
  in_U W lo -> bits_in_U W bits -> Z.land (_zeros bits) (_ones bits) = 0 ->
  (is_satisfied_by W bits lo = true /\ adjust_lo W lo bits = lo) \/
  (is_satisfied_by W bits lo = false /\
   exists i, 0 <= i < W /\ pivot W lo bits i /\
     (forall i', 0 <= i' < i -> ~ pivot W lo bits i') /\
     adjust_lo W lo bits = candidate W lo bits i) \/
  (is_satisfied_by W bits lo = false /\
   (forall i, 0 <= i < W -> ~ pivot W lo bits i) /\
   adjust_lo W lo bits = _ones bits /\ _ones bits < lo) \/
  (is_satisfied_by W bits lo = false /\
   (forall i, 0 <= i < W -> ~ pivot W lo bits i) /\
   msb_violation W lo bits = true /\
   in_U W (adjust_lo W lo bits) /\ lo < adjust_lo W lo bits /\
   Z.testbit (adjust_lo W lo bits) (W - 1) = true).
Proof.
  intros Hlo Hbits Hok.
  destruct (Z.lt_trichotomy (Z.land lo (_zeros bits))
                            (Z.land (unot W lo) (_ones bits))) as [H|[H|H]].
  - right. left.
    destruct (adjust_lo_one_branch lo bits Hlo Hbits Hok H)
      as (i & Hi & Hp & Hmax & Hns & E).
    split; [assumption|]. exists i. auto.
  - left. destruct (equal_violations_zero lo bits H) as [Hz Ho].
    split.
    + unfold is_satisfied_by. rewrite Hz, Ho. reflexivity.
    + unfold adjust_lo. rewrite H, Z.eqb_refl. reflexivity.
  - right.
    assert (Hpos : 0 < Z.land lo (_zeros bits)).
    { pose proof (one_violation_in_U lo bits Hbits) as Hov.
      unfold in_U in Hov. lia. }
    pose proof (log2_in_U _ (zero_violation_in_U lo bits Hlo Hbits) Hpos)
      as Hlog.
    destruct (Z.eq_dec (Z.log2 (Z.land lo (_zeros bits))) (W - 1))
      as [Htop|Hbelow].
    + destruct (adjust_lo_msb_branch lo bits Hlo Hbits Hok H Htop)
        as (Hns & Hnone & Hl & Hz & [(E & Hlt)|(Hin & Hgt & Ht)]).
      * right. left. auto.
      * right. right. unfold msb_violation. rewrite Hl, Hz.
        repeat (split; [assumption || reflexivity|]). assumption.
    + destruct (adjust_lo_zero_branch lo bits Hlo Hbits Hok H ltac:(lia))
        as (Hns & [(i & Hi & Hp & Hmax & E)|(Hnone & E & Hlt)]).
      * left. split; [assumption|]. exists i. auto.
      * right. left. auto.
Qed.

Lemma adjust_lo_in_U (lo : Z) (bits : KnownBits) :
  in_U W lo -> bits_in_U W bits -> Z.land (_zeros bits) (_ones bits) = 0 ->
  in_U W (adjust_lo W lo bits).
Proof.
  intros Hlo Hbits Hok.
  destruct (adjust_lo_outcome lo bits Hlo Hbits Hok)
    as [(_ & ->)|[(_ & i & Hi & Hp & _ & ->)|[(_ & _ & -> & _)
       |(_ & _ & _ & Hin & _)]]].
  - assumption.
  - apply candidate_in_U; assumption.
  - apply Hbits.
  - assumption.
Qed.

(** A result that did not wrap around satisfies the bits, unless [lo] and
    [bits._zeros] both have the most significant bit set. *)
Lemma adjust_lo_ge_satisfies (lo : Z) (bits : KnownBits) :
  in_U W lo -> bits_in_U W bits -> Z.land (_zeros bits) (_ones bits) = 0 ->
  msb_violation W lo bits = false ->
  lo <= adjust_lo W lo bits ->
  is_satisfied_by W bits (adjust_lo W lo bits) = true.
Proof.
  intros Hlo Hbits Hok Hmsb.
  destruct (adjust_lo_outcome lo bits Hlo Hbits Hok)
    as [(Hs & ->)|[(_ & i & Hi & Hp & _ & ->)|[(_ & _ & -> & Hlt)
       |(_ & _ & Hm & _)]]]; intros Hle.
  - assumption.
  - apply candidate_satisfies; assumption.
  - lia.
  - congruence.
Qed.

(** With the most significant bit set in [lo] and in [bits._zeros], no
    value from [lo] on satisfies the bits. *)
Lemma msb_violation_infeasible (lo v : Z) (bits : KnownBits) :
  in_U W lo -> in_U W v ->
  msb_violation W lo bits = true -> lo <= v ->
  is_satisfied_by W bits v = false.
Proof.
  intros Hlo Hv Hm Hle. unfold msb_violation in Hm.
  apply andb_true_iff in Hm. destruct Hm as [Hl Hz].
  rewrite (testbit_msb lo Hlo) in Hl. apply Z.leb_le in Hl.
  apply not_satisfied_bit; [assumption|].
  exists (W - 1). split; [lia|]. intros [Hok _].
  specialize (Hok Hz). rewrite (testbit_msb v Hv) in Hok.
  apply Z.leb_gt in Hok. lia.
Qed.

(** A satisfying bound is left as it is. *)
Lemma adjust_lo_satisfied (lo : Z) (bits : KnownBits) :
  is_satisfied_by W bits lo = true -> adjust_lo W lo bits = lo.
Proof.
  unfold is_satisfied_by, adjust_lo. intros H.
  apply andb_true_iff in H. destruct H as [Hz Ho].
  apply Z.eqb_eq in Hz, Ho. rewrite Hz, Ho. reflexivity.
Qed.

(** X29.  Outside the situation described by [msb_violation], that is,
    unless [lo] and [bits._zeros] both have the most significant bit set,
    [adjust_lo lo bits] is the smallest value of type [U] that is not less
    than [lo] and satisfies [bits] whenever there is one; when there is
    none, the result is less than [lo]; and the result is less than [lo]
    in that case only. *)
Theorem adjust_lo_least_unless_msb (lo : Z) (bits : KnownBits) :
  in_U W lo -> bits_in_U W bits -> Z.land (_zeros bits) (_ones bits) = 0 ->
  msb_violation W lo bits = false ->
  ((exists v, satisfies_from W lo bits v) ->
     satisfies_from W lo bits (adjust_lo W lo bits) /\
     forall v, satisfies_from W lo bits v -> adjust_lo W lo bits <= v) /\
  (~ (exists v, satisfies_from W lo bits v) ->
     0 <= adjust_lo W lo bits < lo) /\
  (adjust_lo W lo bits < lo <-> ~ exists v, satisfies_from W lo bits v).
Proof.
  intros Hlo Hbits Hok Hmsb.
  pose proof (adjust_lo_in_U lo bits Hlo Hbits Hok) as Hr.
  assert (Hfeas : (exists v, satisfies_from W lo bits v) ->
     satisfies_from W lo bits (adjust_lo W lo bits) /\
     forall v, satisfies_from W lo bits v -> adjust_lo W lo bits <= v).
  { intros (v0 & Hv0 & Hle0 & Hs0).
    destruct (adjust_lo_outcome lo bits Hlo Hbits Hok)
      as [(Hs & E)|[(Hns & i & Hi & Hp & Hmax & E)|[(Hns & Hnone & E & Hlt)
         |(_ & _ & Hm & _)]]].
    - rewrite E. split.
      + split; [assumption|]. split; [lia|assumption].
      + intros v (_ & Hle & _). exact Hle.
    - rewrite E. split.
      + split; [apply candidate_in_U; assumption|]. split.
        * apply Z.lt_le_incl. apply candidate_gt; assumption.
        * apply candidate_satisfies; assumption.
      + intros v (Hv & Hle & Hs).
        apply candidate_least; assumption.
    - exfalso.
      rewrite (no_pivot_infeasible lo v0 bits Hlo Hnone Hns Hv0 Hle0) in Hs0.
      discriminate.
    - congruence. }
  assert (Hinf : ~ (exists v, satisfies_from W lo bits v) ->
     0 <= adjust_lo W lo bits < lo).
  { intros Hnone. split; [apply Hr|].
    destruct (Z_lt_le_dec (adjust_lo W lo bits) lo) as [|Hge]; [assumption|].
    exfalso. apply Hnone. exists (adjust_lo W lo bits).
    split; [assumption|]. split; [assumption|].
    apply adjust_lo_ge_satisfies; assumption. }
  split; [assumption|]. split; [assumption|]. split.
  - intros Hlt Hex. destruct (Hfeas Hex) as [(_ & Hle & _) _]. lia.
  - intros Hnone. apply Hinf. assumption.
Qed.

(** C10.  The assertions of [adjust_lo] hold on every value [lo] of type
    [U] and every consistent [KnownBits]: (a) equal violations are both
    zero, so that [lo] is returned unchanged only when it satisfies the
    bits; (b) in the branch [zero_violation < one_violation] the result is
    greater than [lo]; (c) in the remaining branch the result is greater
    than [lo] or is [bits._ones]. *)
Theorem adjust_lo_assertions (lo : Z) (bits : KnownBits) :
  in_U W lo -> bits_in_U W bits -> Z.land (_zeros bits) (_ones bits) = 0 ->
  let zero_violation := Z.land lo (_zeros bits) in
  let one_violation := Z.land (unot W lo) (_ones bits) in
  (zero_violation = one_violation ->
     zero_violation = 0 /\ one_violation = 0 /\
     adjust_lo W lo bits = lo /\ is_satisfied_by W bits lo = true) /\
  (adjust_lo W lo bits = lo -> is_satisfied_by W bits lo = true) /\
  (zero_violation < one_violation -> lo < adjust_lo W lo bits) /\
  (one_violation < zero_violation ->
     lo < adjust_lo W lo bits \/ adjust_lo W lo bits = _ones bits).
Proof.
  intros Hlo Hbits Hok zero_violation one_violation.
  split; [|split; [|split]].
  - intros E. destruct (equal_violations_zero lo bits E) as [Hz Ho].
    fold zero_violation in Hz. fold one_violation in Ho.
    split; [assumption|]. split; [assumption|].
    assert (Hs : is_satisfied_by W bits lo = true).
    { unfold is_satisfied_by. fold zero_violation one_violation.
      rewrite Hz, Ho. reflexivity. }
    split; [apply adjust_lo_satisfied|]; assumption.
  - intros E.
    destruct (adjust_lo_outcome lo bits Hlo Hbits Hok)
      as [(Hs & _)|[(_ & i & Hi & Hp & _ & E')|[(_ & _ & E' & Hlt)
         |(_ & _ & _ & _ & Hgt & _)]]].
    + assumption.
    + pose proof (candidate_gt lo bits i Hlo Hbits Hi Hp). lia.
    + lia.
    + lia.
  - intros Hlt.
    destruct (adjust_lo_one_branch lo bits Hlo Hbits Hok Hlt)
      as (i & Hi & Hp & _ & _ & ->).
    apply candidate_gt; assumption.
  - intros Hlt.
    destruct (adjust_lo_outcome lo bits Hlo Hbits Hok)
      as [(Hs & _)|[(_ & i & Hi & Hp & _ & ->)|[(_ & _ & E & _)
         |(_ & _ & _ & _ & Hgt & _)]]].
    + exfalso. unfold is_satisfied_by in Hs.
      apply andb_true_iff in Hs. destruct Hs as [Hz _].
      apply Z.eqb_eq in Hz. fold zero_violation in Hz.
      pose proof (one_violation_in_U lo bits Hbits) as Hov.
      fold one_violation in Hov. unfold in_U in Hov. lia.
    + left. apply candidate_gt; assumption.
    + right. assumption.
    + left. assumption.
Qed.

(** ** adjust_bounds_from_bits *)

(** Complementing a value swaps the roles of [_zeros] and [_ones]. *)
Lemma is_satisfied_by_unot (bits : KnownBits) (v : Z) :
  in_U W v ->
  is_satisfied_by W (mkBits (_ones bits) (_zeros bits)) (unot W v) =
  is_satisfied_by W bits v.
Proof.
  intros Hv. unfold is_satisfied_by. simpl.
  rewrite unot_involutive by assumption. apply andb_comm.
Qed.

Lemma swapped_bits_in_U (bits : KnownBits) :
  bits_in_U W bits -> bits_in_U W (mkBits (_ones bits) (_zeros bits)).
Proof. intros [Hz Ho]. split; assumption. Qed.

Lemma swapped_bits_consistent (bits : KnownBits) :
  Z.land (_zeros bits) (_ones bits) = 0 ->
  Z.land (_zeros (mkBits (_ones bits) (_zeros bits)))
         (_ones (mkBits (_ones bits) (_zeros bits))) = 0.
Proof. simpl. rewrite Z.land_comm. auto. Qed.

Section AdjustBounds.

Variables (bounds : RangeInt) (bits : KnownBits).
Hypothesis bounds_in : range_in_U W bounds.
Hypothesis bits_in : bits_in_U W bits.
Hypothesis bits_ok : Z.land (_zeros bits) (_ones bits) = 0.

Let new_lo := adjust_lo W (_lo bounds) bits.
Let new_hi :=
  unot W (adjust_lo W (unot W (_hi bounds)) (mkBits (_ones bits) (_zeros bits))).

Lemma new_lo_in_U : in_U W new_lo.
Proof using W_pos bounds_in bits_in bits_ok.
  apply adjust_lo_in_U; [apply bounds_in|assumption|assumption].
Qed.

Lemma new_hi_in_U : in_U W new_hi.
Proof using W_pos. apply unot_in_U. Qed.

(** Each new bound satisfies the bits when it did not leave the old
    interval, unless the shift by [W] was met on the way to it. *)
Lemma new_lo_satisfies_unless_msb :
  msb_violation W (_lo bounds) bits = false ->
  _lo bounds <= new_lo -> is_satisfied_by W bits new_lo = true.
Proof using W_pos bounds_in bits_in bits_ok.
  apply adjust_lo_ge_satisfies; [apply bounds_in|assumption|assumption].
Qed.

Lemma new_hi_satisfies_unless_msb :
  msb_violation W (unot W (_hi bounds)) (mkBits (_ones bits) (_zeros bits))
    = false ->
  new_hi <= _hi bounds -> is_satisfied_by W bits new_hi = true.
Proof using W_pos bounds_in bits_in bits_ok.
  intros Hmsb Hle. unfold new_hi in *.
  set (a := adjust_lo W (unot W (_hi bounds)) (mkBits (_ones bits) (_zeros bits))) in *.
  assert (Ha : in_U W a).
  { apply adjust_lo_in_U;
      [apply unot_in_U|apply swapped_bits_in_U; assumption
      |apply swapped_bits_consistent; assumption]. }
  rewrite <- is_satisfied_by_unot by apply unot_in_U.
  rewrite unot_involutive by assumption.
  apply adjust_lo_ge_satisfies;
    [apply unot_in_U|apply swapped_bits_in_U; assumption
    |apply swapped_bits_consistent; assumption|assumption|].
  fold a. rewrite (unot_eq a) in Hle by assumption.
  rewrite (unot_eq (_hi bounds)) by apply bounds_in. lia.
Qed.

(** New bounds that lie within the old ones and do not cross satisfy the
    bits.  Where the shift by [W] was met for one bound, that bound lies in
    the half in which no value satisfies the bits, the other bound lies in
    the other half, and the two cross. *)
Lemma new_lo_satisfies :
  _lo bounds <= new_lo -> new_lo <= new_hi -> new_hi <= _hi bounds ->
  is_satisfied_by W bits new_lo = true.
Proof using W_pos bounds_in bits_in bits_ok.
  intros H1 H2 H3.
  destruct (msb_violation W (_lo bounds) bits) eqn:Hm;
    [exfalso|apply new_lo_satisfies_unless_msb; assumption].
  unfold msb_violation in Hm. apply andb_true_iff in Hm.
  destruct Hm as [Hl Hz].
  assert (Hshi : is_satisfied_by W bits new_hi = true).
  { apply new_hi_satisfies_unless_msb; [|assumption].
    unfold msb_violation. cbn [_zeros].
    destruct (Z.testbit (_ones bits) (W - 1)) eqn:Ho;
      [|apply andb_false_r].
    exfalso. exact (consistent_bit bits bits_ok (W - 1) Hz Ho). }
  pose proof (proj1 (is_satisfied_by_iff bits new_hi new_hi_in_U) Hshi
                (W - 1) ltac:(lia)) as [Hok _].
  specialize (Hok Hz).
  rewrite (testbit_msb _ new_hi_in_U) in Hok. apply Z.leb_gt in Hok.
  rewrite (testbit_msb _ (proj1 bounds_in)) in Hl. apply Z.leb_le in Hl.
  lia.
Qed.

Lemma new_hi_satisfies :
  _lo bounds <= new_lo -> new_lo <= new_hi -> new_hi <= _hi bounds ->
  is_satisfied_by W bits new_hi = true.
Proof using W_pos bounds_in bits_in bits_ok.
  intros H1 H2 H3.
  destruct (msb_violation W (unot W (_hi bounds))
              (mkBits (_ones bits) (_zeros bits))) eqn:Hm;
    [exfalso|apply new_hi_satisfies_unless_msb; assumption].
  unfold msb_violation in Hm. cbn [_zeros] in Hm.
  apply andb_true_iff in Hm. destruct Hm as [Hh Ho].
  assert (Hslo : is_satisfied_by W bits new_lo = true).
  { apply new_lo_satisfies_unless_msb; [|assumption].
    unfold msb_violation.
    destruct (Z.testbit (_zeros bits) (W - 1)) eqn:Hz;
      [|apply andb_false_r].
    exfalso. exact (consistent_bit bits bits_ok (W - 1) Hz Ho). }
  pose proof (proj1 (is_satisfied_by_iff bits new_lo new_lo_in_U) Hslo
                (W - 1) ltac:(lia)) as [_ Hok].
  specialize (Hok Ho).
  rewrite (testbit_msb _ new_lo_in_U) in Hok. apply Z.leb_le in Hok.
  rewrite testbit_unot in Hh by lia.
  apply andb_true_iff in Hh. destruct Hh as [_ Hh].
  apply negb_true_iff in Hh.
  rewrite (testbit_msb _ (proj2 bounds_in)) in Hh. apply Z.leb_gt in Hh.
  lia.
Qed.

(** What a result that is flagged consistent looks like. *)
Lemma adjust_bounds_consistent :
  _is_result_consistent (adjust_bounds_from_bits W bounds bits) = true ->
  adjust_bounds_from_bits W bounds bits =
    mkAdjust (negb (new_lo =? _lo bounds) || negb (new_hi =? _hi bounds))
             true (mkRange new_lo new_hi) /\
  _lo bounds <= new_lo /\ new_lo <= new_hi /\ new_hi <= _hi bounds.
Proof using W_pos.
  unfold adjust_bounds_from_bits. fold new_lo new_hi.
  destruct (Z.ltb_spec new_lo (_lo bounds)); [discriminate|].
  destruct (Z.gtb_spec new_hi (_hi bounds)); [discriminate|].
  simpl. intros Hc. rewrite Hc. apply Z.leb_le in Hc. auto.
Qed.

Lemma adjust_bounds_inconsistent :
  _is_result_consistent (adjust_bounds_from_bits W bounds bits) = false <->
  new_lo < _lo bounds \/ new_hi > _hi bounds \/ new_lo > new_hi.
Proof using W_pos.
  unfold adjust_bounds_from_bits. fold new_lo new_hi.
  destruct (Z.ltb_spec new_lo (_lo bounds)); [simpl; intuition lia|].
  destruct (Z.gtb_spec new_hi (_hi bounds)); [simpl; intuition lia|].
  simpl. rewrite Z.leb_gt. intuition lia.
Qed.

End AdjustBounds.

(** C6, as the code has it.  For every bounds pair with [lo <= hi] and
    every consistent [KnownBits], [adjust_bounds_from_bits] reports
    inconsistency if and only if the new lower bound wrapped below the old
    one, or the new upper bound exceeds the old one, or the two new bounds
    cross each other; in every other case it returns the two new bounds,
    which lie between the old ones, are ordered and satisfy the bits, with
    a progress flag that is true exactly when a bound changed. *)
Theorem adjust_bounds_from_bits_outcome (bounds : RangeInt) (bits : KnownBits) :
  range_in_U W bounds -> bits_in_U W bits ->
  _lo bounds <= _hi bounds -> Z.land (_zeros bits) (_ones bits) = 0 ->
  let new_lo := adjust_lo W (_lo bounds) bits in
  let new_hi :=
    unot W (adjust_lo W (unot W (_hi bounds))
                      (mkBits (_ones bits) (_zeros bits))) in
  let r := adjust_bounds_from_bits W bounds bits in
  (_is_result_consistent r = false <->
     new_lo < _lo bounds \/ new_hi > _hi bounds \/ new_lo > new_hi) /\
  (_is_result_consistent r = true ->
     _result r = mkRange new_lo new_hi /\
     _lo bounds <= new_lo /\ new_lo <= new_hi /\ new_hi <= _hi bounds /\
     is_satisfied_by W bits new_lo = true /\
     is_satisfied_by W bits new_hi = true /\
     (_progress r = true <-> new_lo <> _lo bounds \/ new_hi <> _hi bounds)).
Proof.
  intros Hb Hbits Hle Hok new_lo new_hi r. split.
  - apply adjust_bounds_inconsistent.
  - intros Hc. destruct (adjust_bounds_consistent bounds bits Hc)
      as (E & H1 & H2 & H3).
    fold new_lo new_hi r in E, H1, H2, H3.
    split; [rewrite E; reflexivity|].
    split; [assumption|]. split; [assumption|]. split; [assumption|].
    split; [apply new_lo_satisfies; assumption|].
    split; [apply new_hi_satisfies; assumption|].
    rewrite E. simpl. rewrite orb_true_iff, !negb_true_iff, !Z.eqb_neq.
    reflexivity.
Qed.

(** ** adjust_bits_from_bounds *)

Lemma lxor_in_U (x y : Z) : in_U W x -> in_U W y -> in_U W (Z.lxor x y).
Proof.
  intros Hx Hy. apply in_U_of_bits.
  - apply Z.lxor_nonneg. unfold in_U in *. lia.
  - intros k Hk.
    rewrite Z.lxor_spec, (testbit_in_U_high x), (testbit_in_U_high y)
      by assumption.
    reflexivity.
Qed.

Section AdjustBits.

Variables (bits : KnownBits) (bounds : RangeInt).
Hypothesis bounds_in : range_in_U W bounds.
Hypothesis bits_in : bits_in_U W bits.

Let mismatch := Z.lxor (_lo bounds) (_hi bounds).
Let match_mask :=
  if mismatch =? 0 then umax W
  else unot W (ushr (umax W) (count_leading_zeros W mismatch)).

Lemma match_mask_in_U : in_U W match_mask.
Proof using W_pos.
  unfold match_mask. destruct (mismatch =? 0);
    [apply umax_in_U|apply unot_in_U].
Qed.

(** The bounds agree on every bit of the mask. *)
Lemma match_mask_agree (j : Z) :
  0 <= j -> Z.testbit match_mask j = true ->
  Z.testbit (_lo bounds) j = Z.testbit (_hi bounds) j.
Proof using W_pos bounds_in.
  intros Hj. unfold match_mask.
  destruct (Z.eqb_spec mismatch 0) as [E|Hne].
  - intros _. apply Z.lxor_eq in E. rewrite E. reflexivity.
  - assert (Hm : in_U W mismatch) by (apply lxor_in_U; apply bounds_in).
    assert (Hpos : 0 < mismatch) by (unfold in_U in Hm; lia).
    pose proof (log2_in_U mismatch Hm Hpos) as Hlog.
    unfold count_leading_zeros.
    rewrite testbit_unot_ushr_umax by lia.
    intros Hb. apply andb_true_iff in Hb. destruct Hb as [_ Hb].
    apply Z.leb_le in Hb.
    assert (Hz : Z.testbit mismatch j = false)
      by (apply Z.bits_above_log2; lia).
    unfold mismatch in Hz. rewrite Z.lxor_spec in Hz.
    destruct (Z.testbit (_lo bounds) j), (Z.testbit (_hi bounds) j);
      simpl in Hz; congruence.
Qed.

Lemma adjust_bits_in_U :
  bits_in_U W (_result (adjust_bits_from_bounds W bits bounds)).
Proof using W_pos bounds_in bits_in.
  unfold adjust_bits_from_bounds. fold mismatch. fold match_mask. simpl.
  split; simpl; (apply lor_in_U; [apply bits_in|]);
    (apply land_in_U; [apply match_mask_in_U|]).
  - apply unot_in_U.
  - apply bounds_in.
Qed.

Lemma adjust_bits_consistent :
  _is_result_consistent (adjust_bits_from_bounds W bits bounds) = true ->
  Z.land (_zeros (_result (adjust_bits_from_bounds W bits bounds)))
         (_ones (_result (adjust_bits_from_bounds W bits bounds))) = 0.
Proof. unfold adjust_bits_from_bounds. simpl. apply Z.eqb_eq. Qed.

(** Bounds that satisfy the bits satisfy the tightened bits as well. *)
Lemma adjust_bits_keeps_bounds :
  is_satisfied_by W bits (_lo bounds) = true ->
  is_satisfied_by W bits (_hi bounds) = true ->
  is_satisfied_by W (_result (adjust_bits_from_bounds W bits bounds))
                  (_lo bounds) = true /\
  is_satisfied_by W (_result (adjust_bits_from_bounds W bits bounds))
                  (_hi bounds) = true.
Proof using W_pos bounds_in bits_in.
  intros Hlo Hhi.
  destruct bounds_in as [Hlo_in Hhi_in].
  pose proof (proj1 (is_satisfied_by_iff bits _ Hlo_in) Hlo) as Hoklo.
  pose proof (proj1 (is_satisfied_by_iff bits _ Hhi_in) Hhi) as Hokhi.
  unfold adjust_bits_from_bounds. fold mismatch. fold match_mask. simpl.
  split; apply is_satisfied_by_iff; try assumption; intros j Hj;
    unfold bit_ok; simpl;
    rewrite !Z.lor_spec, !Z.land_spec, testbit_unot by lia;
    pose proof (match_mask_agree j ltac:(lia)) as Hag;
    destruct (Hoklo j Hj) as [Hz1 Ho1]; destruct (Hokhi j Hj) as [Hz2 Ho2];
    destruct (Z.testbit match_mask j), (Z.testbit (_zeros bits) j),
      (Z.testbit (_ones bits) j), (j <? W);
    simpl; intuition (try congruence);
    destruct (Z.testbit (_lo bounds) j), (Z.testbit (_hi bounds) j);
    simpl in *; intuition congruence.
Qed.

End AdjustBits.

(** ** canonicalize_constraints_simple *)

(** Bounds that satisfy the bits are left as they are. *)
Lemma adjust_bounds_fixed (bounds : RangeInt) (bits : KnownBits) :
  range_in_U W bounds ->
  is_satisfied_by W bits (_lo bounds) = true ->
  is_satisfied_by W bits (_hi bounds) = true ->
  adjust_bounds_from_bits W bounds bits =
    mkAdjust false (_lo bounds <=? _hi bounds) bounds.
Proof.
  intros [Hlo Hhi] Hslo Hshi. unfold adjust_bounds_from_bits.
  rewrite (adjust_lo_satisfied (_lo bounds) bits Hslo).
  rewrite (adjust_lo_satisfied (unot W (_hi bounds))).
  - rewrite unot_involutive by assumption.
    rewrite Z.ltb_irrefl.
    destruct (Z.gtb_spec (_hi bounds) (_hi bounds)); [lia|].
    rewrite !Z.eqb_refl. destruct bounds. reflexivity.
  - rewrite is_satisfied_by_unot; assumption.
Qed.

(** The loop returns in its first or in its second iteration: bounds that
    were tightened to the bits still satisfy the bits derived from them, so
    that a second tightening of the bounds makes no progress. *)
Lemma canonicalize_loop_two (fuel count : nat) (bounds : RangeInt)
    (bits : KnownBits) :
  range_in_U W bounds -> bits_in_U W bits ->
  Z.land (_zeros bits) (_ones bits) = 0 ->
  exists n r,
    canonicalize_loop W (S (S fuel)) count bounds bits = Some (n, r) /\
    (count < n <= count + 2)%nat.
Proof.
  intros Hb Hbits Hok.
  cbn [canonicalize_loop].
  destruct (negb (_progress (adjust_bounds_from_bits W bounds bits))
            || negb (_is_result_consistent (adjust_bounds_from_bits W bounds bits)))
    eqn:Hexit1.
  { eexists _, _. split; [reflexivity|lia]. }
  apply orb_false_iff in Hexit1. destruct Hexit1 as [_ Hc1].
  apply negb_false_iff in Hc1.
  destruct (adjust_bounds_consistent bounds bits Hc1) as (E & H1 & H2 & H3).
  pose proof (new_lo_satisfies bounds bits Hb Hbits Hok H1 H2 H3) as Hslo.
  pose proof (new_hi_satisfies bounds bits Hb Hbits Hok H1 H2 H3) as Hshi.
  pose proof (new_lo_in_U bounds bits Hb Hbits Hok) as Hlo_in.
  pose proof (new_hi_in_U bounds bits) as Hhi_in.
  rewrite E in *. cbn [_result _progress _is_result_consistent] in *.
  set (nb := mkRange (adjust_lo W (_lo bounds) bits)
       (unot W (adjust_lo W (unot W (_hi bounds))
                  (mkBits (_ones bits) (_zeros bits))))) in *.
  assert (Hnb : range_in_U W nb) by (split; assumption).
  destruct (negb (_progress (adjust_bits_from_bounds W bits nb))
            || negb (_is_result_consistent (adjust_bits_from_bounds W bits nb)))
    eqn:Hexit2.
  { eexists _, _. split; [reflexivity|lia]. }
  destruct (adjust_bits_keeps_bounds bits nb Hnb Hbits Hslo Hshi) as [Hk1 Hk2].
  rewrite (adjust_bounds_fixed nb _ Hnb Hk1 Hk2).
  cbn [_result _progress _is_result_consistent negb orb].
  eexists _, _. split; [reflexivity|lia].
Qed.

Lemma canonicalize_simple_fuel_two (fuel : nat) (bounds : RangeInt)
    (bits : KnownBits) :
  range_in_U W bounds -> bits_in_U W bits ->
  exists n r,
    canonicalize_constraints_simple_fuel W (S (S fuel)) bounds bits
      = Some (n, r) /\ (n <= 2)%nat.
Proof.
  intros Hb Hbits. unfold canonicalize_constraints_simple_fuel.
  destruct (_is_result_consistent (adjust_bits_from_bounds W bits bounds))
    eqn:Hc; cbn [negb].
  - destruct (canonicalize_loop_two fuel 0 bounds
                (_result (adjust_bits_from_bounds W bits bounds)))
      as (n & r & E & Hn).
    + assumption.
    + apply adjust_bits_in_U; assumption.
    + apply adjust_bits_consistent; assumption.
    + exists n, r. split; [assumption|lia].
  - eexists _, _. split; [reflexivity|lia].
Qed.

(** C3.  At every width [W >= 2] (so at 32 and at 64), on every bounds
    pair and [KnownBits] of that width, [canonicalize_constraints_simple]
    terminates: its loop returns, at a step without progress or at an
    inconsistent one, after at most [W] iterations (in fact after at most
    two). *)
Theorem simple_loop_within_W (bounds : RangeInt) (bits : KnownBits) :
  2 <= W -> range_in_U W bounds -> bits_in_U W bits ->
  exists n r,
    canonicalize_constraints_simple_fuel W (Z.to_nat W) bounds bits
      = Some (n, r) /\
    Z.of_nat n <= W /\ (n <= 2)%nat /\
    canonicalize_constraints_simple W bounds bits = r.
Proof.
  intros HW Hb Hbits.
  assert (Hfuel : exists f, Z.to_nat W = S (S f)).
  { exists (Z.to_nat W - 2)%nat. lia. }
  destruct Hfuel as (f & Ef).
  destruct (canonicalize_simple_fuel_two f bounds bits Hb Hbits)
    as (n & r & E & Hn).
  exists n, r. unfold canonicalize_constraints_simple.
  rewrite Ef, E. repeat split; lia || reflexivity.
Qed.

(** ** The sets represented before and after each step *)

Lemma adjust_lo_below (lo v : Z) (bits : KnownBits) :
  in_U W lo -> bits_in_U W bits -> Z.land (_zeros bits) (_ones bits) = 0 ->
  satisfies_from W lo bits v ->
  lo <= adjust_lo W lo bits <= v.
Proof.
  intros Hlo Hbits Hok (Hv & Hle & Hs).
  destruct (adjust_lo_outcome lo bits Hlo Hbits Hok)
    as [(_ & E)|[(Hns & i & Hi & Hp & Hmax & E)|[(Hns & Hnone & E & Hlt)
       |(Hns & Hnone & _)]]].
  - rewrite E. lia.
  - rewrite E. split.
    + apply Z.lt_le_incl. apply candidate_gt; assumption.
    + apply candidate_least; assumption.
  - rewrite (no_pivot_infeasible lo v bits Hlo Hnone Hns Hv Hle) in Hs.
    discriminate.
  - rewrite (no_pivot_infeasible lo v bits Hlo Hnone Hns Hv Hle) in Hs.
    discriminate.
Qed.

Lemma adjust_hi_above (hi v : Z) (bits : KnownBits) :
  in_U W hi -> bits_in_U W bits -> Z.land (_zeros bits) (_ones bits) = 0 ->
  satisfies_upto W hi bits v ->
  v <= unot W (adjust_lo W (unot W hi) (mkBits (_ones bits) (_zeros bits)))
    <= hi.
Proof.
  intros Hhi Hbits Hok (Hv & Hle & Hs).
  set (swapped := mkBits (_ones bits) (_zeros bits)).
  assert (Hfrom : satisfies_from W (unot W hi) swapped (unot W v)).
  { split; [apply unot_in_U|]. split.
    - rewrite !unot_eq by assumption. lia.
    - unfold swapped. rewrite is_satisfied_by_unot; assumption. }
  pose proof (adjust_lo_below (unot W hi) (unot W v) swapped
                (unot_in_U hi) (swapped_bits_in_U bits Hbits)
                (swapped_bits_consistent bits Hok) Hfrom) as [H1 H2].
  assert (Ha : in_U W (adjust_lo W (unot W hi) swapped)).
  { apply adjust_lo_in_U;
      [apply unot_in_U|apply swapped_bits_in_U; assumption
      |apply swapped_bits_consistent; assumption]. }
  set (a := adjust_lo W (unot W hi) swapped) in *.
  rewrite (unot_eq a) by assumption.
  rewrite (unot_eq hi) in H1 by assumption.
  rewrite (unot_eq v) in H2 by assumption. lia.
Qed.

(** Tightening the bounds keeps the values that satisfy the bits. *)
Lemma adjust_bounds_sound (bounds : RangeInt) (bits : KnownBits) (u : Z) :
  range_in_U W bounds -> bits_in_U W bits ->
  Z.land (_zeros bits) (_ones bits) = 0 ->
  in_U W u -> is_satisfied_by W bits u = true ->
  _lo bounds <= u <= _hi bounds <->
  _is_result_consistent (adjust_bounds_from_bits W bounds bits) = true /\
  _lo (_result (adjust_bounds_from_bits W bounds bits)) <= u
    <= _hi (_result (adjust_bounds_from_bits W bounds bits)).
Proof.
  intros Hb Hbits Hok Hu Hs. split.
  - intros [Hle1 Hle2].
    pose proof (adjust_lo_below (_lo bounds) u bits (proj1 Hb) Hbits Hok
                  (conj Hu (conj Hle1 Hs))) as [A1 A2].
    pose proof (adjust_hi_above (_hi bounds) u bits (proj2 Hb) Hbits Hok
                  (conj Hu (conj Hle2 Hs))) as [B1 B2].
    unfold adjust_bounds_from_bits.
    destruct (Z.ltb_spec (adjust_lo W (_lo bounds) bits) (_lo bounds)); [lia|].
    match goal with |- context [?x >? ?y] => destruct (Z.gtb_spec x y) end;
      [lia|].
    cbn [_is_result_consistent _result _lo _hi].
    rewrite Z.leb_le. lia.
  - intros [Hc Hin].
    destruct (adjust_bounds_consistent bounds bits Hc) as (E & H1 & H2 & H3).
    rewrite E in Hin. cbn [_result _lo _hi] in Hin. lia.
Qed.

Lemma between_shiftr (lo hi u k : Z) :
  0 <= k -> lo <= u <= hi -> Z.shiftr lo k = Z.shiftr hi k ->
  Z.shiftr u k = Z.shiftr lo k.
Proof.
  intros Hk [H1 H2]. rewrite !Z.shiftr_div_pow2 by assumption. intros E.
  assert (Hp : 0 < 2 ^ k) by (apply Z.pow_pos_nonneg; lia).
  pose proof (Z.div_le_mono lo u (2 ^ k) Hp H1).
  pose proof (Z.div_le_mono u hi (2 ^ k) Hp H2).
  lia.
Qed.

Section AdjustBitsSound.

Variables (bits : KnownBits) (bounds : RangeInt).
Hypothesis bounds_in : range_in_U W bounds.
Hypothesis bits_in : bits_in_U W bits.
Variable u : Z.
Hypothesis u_in : in_U W u.
Hypothesis u_between : _lo bounds <= u <= _hi bounds.

Let match_mask :=
  if Z.lxor (_lo bounds) (_hi bounds) =? 0 then umax W
  else unot W (ushr (umax W)
                (count_leading_zeros W (Z.lxor (_lo bounds) (_hi bounds)))).

(** A value between the bounds has their common prefix. *)
Lemma between_match_mask (j : Z) :
  0 <= j -> Z.testbit match_mask j = true ->
  Z.testbit u j = Z.testbit (_lo bounds) j.
Proof using W_pos bounds_in u_between.
  intros Hj. unfold match_mask.
  destruct (Z.eqb_spec (Z.lxor (_lo bounds) (_hi bounds)) 0) as [E|Hne].
  - intros _. apply Z.lxor_eq in E. f_equal. lia.
  - set (mismatch := Z.lxor (_lo bounds) (_hi bounds)) in *.
    assert (Hm : in_U W mismatch) by (apply lxor_in_U; apply bounds_in).
    assert (Hpos : 0 < mismatch) by (unfold in_U in Hm; lia).
    pose proof (log2_in_U mismatch Hm Hpos) as Hlog.
    unfold count_leading_zeros.
    rewrite testbit_unot_ushr_umax by lia.
    intros Hb. apply andb_true_iff in Hb. destruct Hb as [_ Hb].
    apply Z.leb_le in Hb.
    set (k := Z.log2 mismatch + 1).
    assert (Hsh : Z.shiftr (_lo bounds) k = Z.shiftr (_hi bounds) k).
    { apply Z.bits_inj'. intros n Hn. rewrite !Z.shiftr_spec by assumption.
      assert (Hz : Z.testbit mismatch (n + k) = false)
        by (apply Z.bits_above_log2; unfold k; lia).
      unfold mismatch in Hz. rewrite Z.lxor_spec in Hz.
      destruct (Z.testbit (_lo bounds) (n + k)),
        (Z.testbit (_hi bounds) (n + k)); simpl in Hz; congruence. }
    pose proof (between_shiftr _ _ u k ltac:(unfold k; lia) u_between Hsh) as E.
    apply (f_equal (fun x => Z.testbit x (j - k))) in E.
    rewrite !Z.shiftr_spec in E by (unfold k; lia).
    replace (j - k + k) with j in E by lia. exact E.
Qed.

Lemma adjust_bits_sound :
  is_satisfied_by W (_result (adjust_bits_from_bounds W bits bounds)) u =
  is_satisfied_by W bits u.
Proof using W_pos bounds_in u_in u_between.
  apply eq_true_iff_eq. rewrite !is_satisfied_by_iff by assumption.
  unfold adjust_bits_from_bounds. fold match_mask.
  cbn [_result]. unfold bit_ok. cbn [_zeros _ones].
  split; intros H j Hj; specialize (H j Hj);
    pose proof (between_match_mask j ltac:(lia)) as Hag;
    rewrite !Z.lor_spec, !Z.land_spec, testbit_unot in * by lia;
    destruct (Z.testbit match_mask j), (Z.testbit (_zeros bits) j),
      (Z.testbit (_ones bits) j), (j <? W);
    simpl in *; intuition (try congruence);
    destruct (Z.testbit (_lo bounds) j), (Z.testbit u j);
    simpl in *; intuition congruence.
Qed.

Lemma adjust_bits_inconsistent :
  _is_result_consistent (adjust_bits_from_bounds W bits bounds) = false ->
  is_satisfied_by W bits u = false.
Proof using W_pos bounds_in bits_in u_in u_between.
  intros Hc. rewrite <- adjust_bits_sound.
  destruct (is_satisfied_by W _ u) eqn:Hs; [exfalso|reflexivity].
  pose proof (proj1 (is_satisfied_by_iff _ u u_in) Hs) as Hok.
  pose proof (adjust_bits_in_U bits bounds bounds_in bits_in) as [Hz Ho].
  unfold adjust_bits_from_bounds in Hc. cbn [_is_result_consistent] in Hc.
  apply Z.eqb_neq in Hc.
  match type of Hc with ?x <> 0 => set (x0 := x) in * end.
  assert (Hx : in_U W x0) by (apply land_in_U; [exact Hz|apply Ho]).
  assert (Hpos : 0 < x0) by (unfold in_U in Hx; lia).
  pose proof (log2_in_U x0 Hx Hpos) as Hlog.
  pose proof (Z.bit_log2 x0 Hpos) as Hbit.
  unfold x0 in Hbit. rewrite Z.land_spec in Hbit.
  apply andb_true_iff in Hbit. destruct Hbit as [Bz Bo].
  destruct (Hok (Z.log2 x0) Hlog) as [Kz Ko].
  rewrite (Kz Bz) in Ko. specialize (Ko Bo). discriminate.
Qed.

Lemma adjust_bits_grows :
  bits_subset bits (_result (adjust_bits_from_bounds W bits bounds)).
Proof.
  intros j Hj. unfold adjust_bits_from_bounds. cbn [_result _zeros _ones].
  rewrite !Z.lor_spec. split; intros ->; reflexivity.
Qed.

End AdjustBitsSound.

(** Deriving the bits from the same bounds a second time changes
    nothing. *)
Lemma adjust_bits_idempotent (bits : KnownBits) (bounds : RangeInt) :
  _result (adjust_bits_from_bounds W
             (_result (adjust_bits_from_bounds W bits bounds)) bounds) =
  _result (adjust_bits_from_bounds W bits bounds).
Proof.
  unfold adjust_bits_from_bounds. cbn [_result _zeros _ones].
  rewrite <- !Z.lor_assoc, !Z.lor_diag. reflexivity.
Qed.

Lemma bits_subset_refl (b : KnownBits) : bits_subset b b.
Proof. intros j Hj. auto. Qed.

Lemma bits_subset_trans (b1 b2 b3 : KnownBits) :
  bits_subset b1 b2 -> bits_subset b2 b3 -> bits_subset b1 b3.
Proof.
  intros H12 H23 j Hj. destruct (H12 j Hj), (H23 j Hj). auto.
Qed.

Lemma Some_pair_inj (A B : Type) (a a' : A) (b b' : B) :
  Some (a, b) = Some (a', b') -> b' = b.
Proof. congruence. Qed.

(** What the loop returns represents the set it started from, and is a
    fixed point of both tightening steps when it is present. *)
Lemma canonicalize_loop_sound (fuel count : nat) :
  forall (nbounds : RangeInt) (nbits : KnownBits) n r,
  range_in_U W nbounds -> bits_in_U W nbits ->
  Z.land (_zeros nbits) (_ones nbits) = 0 ->
  _result (adjust_bits_from_bounds W nbits nbounds) = nbits ->
  canonicalize_loop W fuel count nbounds nbits = Some (n, r) ->
  (forall u, in_U W u ->
     in_simple W nbounds nbits u <->
     sc_present r = true /\ in_simple W (sc_bounds r) (sc_bits r) u) /\
  (sc_present r = true ->
     simple_fixed W (sc_bounds r) (sc_bits r) /\
     _lo nbounds <= _lo (sc_bounds r) /\ _hi (sc_bounds r) <= _hi nbounds) /\
  bits_subset nbits (sc_bits r).
Proof.
  revert count. induction fuel as [|fuel IH];
    intros count nbounds nbits n r Hb Hbits Hok Hpre; [discriminate|].
  cbn [canonicalize_loop].
  pose proof (adjust_bounds_sound nbounds nbits) as Hsound.
  destruct (negb (_progress (adjust_bounds_from_bits W nbounds nbits))
            || negb (_is_result_consistent (adjust_bounds_from_bits W nbounds nbits)))
    eqn:Hexit1.
  { intros E. apply Some_pair_inj in E. subst r. unfold sc_present, sc_bounds, sc_bits.
    split; [|split; [|apply bits_subset_refl]].
    - intros u Hu. unfold in_simple. split.
      + intros [Hin Hs]. rewrite <- and_assoc. split; [|assumption].
        apply Hsound; assumption.
      + intros (Hc & Hin & Hs). split; [|assumption].
        apply Hsound; auto.
    - intros Hc. rewrite Hc in Hexit1. cbn [negb] in Hexit1.
      rewrite orb_false_r in Hexit1. apply negb_true_iff in Hexit1.
      destruct (adjust_bounds_consistent nbounds nbits Hc) as (E & H1 & H2 & H3).
      rewrite E in Hexit1. cbn [_progress] in Hexit1.
      apply orb_false_iff in Hexit1. destruct Hexit1 as [E1 E2].
      apply negb_false_iff, Z.eqb_eq in E1, E2.
      rewrite E. cbn [_result]. rewrite E1, E2.
      pose proof (new_lo_satisfies nbounds nbits Hb Hbits Hok H1 H2 H3)
        as Hslo.
      pose proof (new_hi_satisfies nbounds nbits Hb Hbits Hok H1 H2 H3)
        as Hshi.
      rewrite E1 in Hslo. rewrite E2 in Hshi.
      assert (Enb : mkRange (_lo nbounds) (_hi nbounds) = nbounds)
        by (destruct nbounds; reflexivity).
      rewrite Enb. cbn [_lo _hi].
      split; [|lia]. unfold simple_fixed.
      split; [lia|]. split; [exact Hb|]. split; [exact Hbits|].
      split; [exact Hok|]. split; [exact Hslo|]. split; [exact Hshi|].
      exact Hpre. }
  apply orb_false_iff in Hexit1. destruct Hexit1 as [_ Hc1].
  apply negb_false_iff in Hc1.
  destruct (adjust_bounds_consistent nbounds nbits Hc1) as (E & H1 & H2 & H3).
  pose proof (new_lo_satisfies nbounds nbits Hb Hbits Hok H1 H2 H3) as Hslo.
  pose proof (new_hi_satisfies nbounds nbits Hb Hbits Hok H1 H2 H3) as Hshi.
  pose proof (new_lo_in_U nbounds nbits Hb Hbits Hok) as Hlo_in.
  pose proof (new_hi_in_U nbounds nbits) as Hhi_in.
  set (nb := mkRange (adjust_lo W (_lo nbounds) nbits)
       (unot W (adjust_lo W (unot W (_hi nbounds))
                  (mkBits (_ones nbits) (_zeros nbits))))) in *.
  assert (Eres : _result (adjust_bounds_from_bits W nbounds nbits) = nb)
    by (rewrite E; reflexivity).
  rewrite Eres in *. clear E.
  assert (Hnb : range_in_U W nb) by (split; assumption).
  pose proof (adjust_bits_in_U nbits nb Hnb Hbits) as Hbits'.
  pose proof (adjust_bits_grows nbits nb) as Hgrow.
  assert (Hstep : forall u, in_U W u ->
            in_simple W nbounds nbits u <->
            in_simple W nb (_result (adjust_bits_from_bounds W nbits nb)) u).
  { intros u Hu. unfold in_simple. split.
    - intros [Hin Hs].
      destruct (proj1 (Hsound u Hb Hbits Hok Hu Hs) Hin) as [_ Hin'].
      split; [assumption|].
      rewrite adjust_bits_sound; assumption.
    - intros [Hin Hs]. rewrite adjust_bits_sound in Hs by assumption.
      split; [|assumption]. apply Hsound; auto. }
  destruct (negb (_progress (adjust_bits_from_bounds W nbits nb))
            || negb (_is_result_consistent (adjust_bits_from_bounds W nbits nb)))
    eqn:Hexit2.
  { intros E'. apply Some_pair_inj in E'. subst r. unfold sc_present, sc_bounds, sc_bits.
    split; [|split; [|assumption]].
    - intros u Hu. rewrite (Hstep u Hu). split.
      + intros Hin. split; [|assumption].
        destruct (_is_result_consistent (adjust_bits_from_bounds W nbits nb))
          eqn:Hc2; [reflexivity|exfalso].
        destruct Hin as [Hin Hs].
        rewrite adjust_bits_sound in Hs by assumption.
        rewrite (adjust_bits_inconsistent nbits nb Hnb Hbits u Hu Hin Hc2) in Hs.
        discriminate.
      + intros [_ Hin]. exact Hin.
    - intros Hc2.
      destruct (adjust_bits_keeps_bounds nbits nb Hnb Hbits Hslo Hshi)
        as [Hk1 Hk2].
      split; [|unfold nb; cbn [_lo _hi]; lia].
      unfold simple_fixed.
      split; [unfold nb; cbn [_lo _hi]; lia|]. split; [exact Hnb|].
      split; [exact Hbits'|].
      split; [apply adjust_bits_consistent; assumption|].
      split; [exact Hk1|]. split; [exact Hk2|].
      apply adjust_bits_idempotent. }
  apply orb_false_iff in Hexit2. destruct Hexit2 as [_ Hc2].
  apply negb_false_iff in Hc2.
  intros Hrec.
  destruct (IH (S count) nb _ n r Hnb Hbits'
              (adjust_bits_consistent nbits nb Hc2)
              (adjust_bits_idempotent nbits nb) Hrec) as (I1 & I2 & I3).
  split; [|split].
  - intros u Hu. rewrite (Hstep u Hu). apply I1. assumption.
  - intros Hp. destruct (I2 Hp) as (F & L1 & L2).
    split; [assumption|]. unfold nb in L1, L2. cbn [_lo _hi] in L1, L2. lia.
  - apply (bits_subset_trans _ _ _ Hgrow I3).
Qed.

(** The same for the whole function. *)
Lemma canonicalize_simple_sound (bounds : RangeInt) (bits : KnownBits) :
  2 <= W -> range_in_U W bounds -> bits_in_U W bits ->
  let r := canonicalize_constraints_simple W bounds bits in
  (forall u, in_U W u ->
     in_simple W bounds bits u <->
     sc_present r = true /\ in_simple W (sc_bounds r) (sc_bits r) u) /\
  (sc_present r = true ->
     simple_fixed W (sc_bounds r) (sc_bits r) /\
     _lo bounds <= _lo (sc_bounds r) /\ _hi (sc_bounds r) <= _hi bounds /\
     bits_subset bits (sc_bits r)).
Proof.
  intros HW Hb Hbits r.
  assert (Hfuel : exists f, Z.to_nat W = S (S f)).
  { exists (Z.to_nat W - 2)%nat. lia. }
  destruct Hfuel as (f & Ef).
  destruct (canonicalize_simple_fuel_two f bounds bits Hb Hbits)
    as (n & r' & E & Hn).
  assert (Er : r = r').
  { unfold r, canonicalize_constraints_simple. rewrite Ef, E. reflexivity. }
  rewrite Er. clear Er r.
  unfold canonicalize_constraints_simple_fuel in E.
  destruct (_is_result_consistent (adjust_bits_from_bounds W bits bounds))
    eqn:Hc; cbn [negb] in E.
  - destruct (canonicalize_loop_sound _ _ bounds _ n r' Hb
                (adjust_bits_in_U bits bounds Hb Hbits)
                (adjust_bits_consistent bits bounds Hc)
                (adjust_bits_idempotent bits bounds) E) as (I1 & I2 & I3).
    split.
    + intros u Hu. rewrite <- (I1 u Hu). unfold in_simple. split.
      * intros [Hin Hs]. split; [assumption|].
        rewrite adjust_bits_sound; assumption.
      * intros [Hin Hs]. split; [assumption|].
        rewrite adjust_bits_sound in Hs; assumption.
    + intros Hp. destruct (I2 Hp) as (F & L1 & L2).
      split; [exact F|]. split; [exact L1|]. split; [exact L2|].
      apply (bits_subset_trans _ _ _ (adjust_bits_grows bits bounds) I3).
  - apply Some_pair_inj in E. subst r'. cbn [sc_present make_empty_simple]. split.
    + intros u Hu. unfold in_simple. split.
      * intros [Hin Hs].
        rewrite (adjust_bits_inconsistent bits bounds Hb Hbits u Hu Hin Hc) in Hs.
        discriminate.
      * intros [Hf _]. discriminate.
    + discriminate.
Qed.

(** A fixed point is returned as it is. *)
Lemma simple_fixed_canonical (bounds : RangeInt) (bits : KnownBits) :
  2 <= W -> simple_fixed W bounds bits ->
  canonicalize_constraints_simple W bounds bits = mkSimple true bounds bits.
Proof.
  intros HW (Hle & Hb & Hbits & Hok & Hslo & Hshi & Efix).
  unfold canonicalize_constraints_simple, canonicalize_constraints_simple_fuel.
  assert (Hfuel : exists f, Z.to_nat W = S f).
  { exists (Z.to_nat W - 1)%nat. lia. }
  destruct Hfuel as (f & ->).
  assert (Hc : _is_result_consistent (adjust_bits_from_bounds W bits bounds)
               = true).
  { unfold adjust_bits_from_bounds in *. cbn [_is_result_consistent _result] in *.
    apply Z.eqb_eq.
    apply (f_equal _zeros) in Efix as Ez.
    pose proof (f_equal _ones Efix) as Eo. cbn [_zeros _ones] in Ez, Eo.
    rewrite Ez, Eo. assumption. }
  rewrite Hc, Efix. cbn [negb canonicalize_loop].
  rewrite (adjust_bounds_fixed bounds bits Hb Hslo Hshi).
  cbn [_progress _is_result_consistent _result negb orb].
  apply Z.leb_le in Hle. rewrite Hle. reflexivity.
Qed.

(** ** canonicalize_constraints *)

Lemma to_S_bounds (u : Z) : in_U W u -> in_S W (to_S W u).
Proof.
  unfold in_U, in_S, to_S. intros Hu.
  assert (E : 2 ^ W = 2 * 2 ^ (W - 1)).
  { replace W with (1 + (W - 1)) at 1 by lia.
    rewrite Z.pow_add_r by lia. reflexivity. }
  destruct (Z.ltb_spec u (2 ^ (W - 1))); lia.
Qed.

Lemma to_S_smax : to_S W (to_U W (smax W)) = smax W.
Proof.
  unfold to_S, to_U, wrap, smax.
  assert (E : 2 ^ W = 2 * 2 ^ (W - 1)).
  { replace W with (1 + (W - 1)) at 1 by lia.
    rewrite Z.pow_add_r by lia. reflexivity. }
  assert (0 < 2 ^ (W - 1)) by (apply Z.pow_pos_nonneg; lia).
  rewrite Z.mod_small by lia.
  destruct (Z.ltb_spec (2 ^ (W - 1) - 1) (2 ^ (W - 1))); lia.
Qed.

Lemma to_S_smin : to_S W (to_U W (smin W)) = smin W.
Proof.
  unfold to_S, to_U, wrap, smin.
  assert (E : 2 ^ W = 2 * 2 ^ (W - 1)).
  { replace W with (1 + (W - 1)) at 1 by lia.
    rewrite Z.pow_add_r by lia. reflexivity. }
  assert (0 < 2 ^ (W - 1)) by (apply Z.pow_pos_nonneg; lia).
  replace (- 2 ^ (W - 1)) with (2 ^ (W - 1) + (-1) * 2 ^ W) by lia.
  rewrite Z.mod_add by lia.
  rewrite Z.mod_small by lia.
  destruct (Z.ltb_spec (2 ^ (W - 1)) (2 ^ (W - 1))); lia.
Qed.

(** An unsigned range that still has bounds of different signs after the
    first adjustment was not touched by it: the signed range reaches into
    both of its halves. *)
Lemma straddling_urange_unchanged (srange urange : RangeInt) :
  range_in_U W urange ->
  to_S W (_lo (tighten_urange W srange urange))
    > to_S W (_hi (tighten_urange W srange urange)) ->
  tighten_urange W srange urange = urange /\
  to_S W (_lo urange) > to_S W (_hi urange) /\
  _lo srange <= to_S W (_hi urange) /\ to_S W (_lo urange) <= _hi srange.
Proof.
  intros [Hlo Hhi]. unfold tighten_urange.
  pose proof (to_S_bounds _ Hlo) as Bl. pose proof (to_S_bounds _ Hhi) as Bh.
  unfold in_S in Bl, Bh.
  destruct (Z.gtb_spec (to_S W (_lo urange)) (to_S W (_hi urange))).
  - destruct (Z.ltb_spec (to_S W (_hi urange)) (_lo srange)).
    + simpl. rewrite to_S_smax. unfold smax. lia.
    + destruct (Z.gtb_spec (to_S W (_lo urange)) (_hi srange)).
      * simpl. rewrite to_S_smin. unfold smin. lia.
      * intros _. repeat split; lia.
  - lia.
Qed.

(** C5.  In the case in which the local unsigned range of
    [canonicalize_constraints] has bounds of different signs
    ([S(urange._lo) > S(urange._hi)], after the trivial checks and the
    first adjustment), when the negative and the non-negative sub-range
    both canonicalize as present, the result is present, its signed range
    goes from the lower bound of the negative result to the upper bound of
    the non-negative one, its unsigned range from the lower bound of the
    non-negative result to the upper bound of the negative one, and its
    zeros and ones are the bitwise AND of those of the two results. *)
Theorem canonicalize_straddling_both (p : TypeIntPrototype) :
  trivially_empty p = false ->
  let urange := tighten_urange W (_srange p) (_urange p) in
  to_S W (_lo urange) > to_S W (_hi urange) ->
  let neg_type :=
    canonicalize_constraints_simple W
      (mkRange (to_U W (_lo (_srange p))) (_hi urange)) (_bits p) in
  let pos_type :=
    canonicalize_constraints_simple W
      (mkRange (_lo urange) (to_U W (_hi (_srange p)))) (_bits p) in
  sc_present neg_type = true -> sc_present pos_type = true ->
  canonicalize_constraints W p =
    mkCanon true
      (mkProto
         (mkRange (to_S W (_lo (sc_bounds neg_type)))
                  (to_S W (_hi (sc_bounds pos_type))))
         (mkRange (_lo (sc_bounds pos_type)) (_hi (sc_bounds neg_type)))
         (mkBits
            (Z.land (_zeros (sc_bits neg_type)) (_zeros (sc_bits pos_type)))
            (Z.land (_ones (sc_bits neg_type)) (_ones (sc_bits pos_type))))).
Proof.
  intros Htriv urange Hstr neg_type pos_type Hneg Hpos.
  unfold canonicalize_constraints. rewrite Htriv.
  fold urange.
  destruct (Z.leb_spec (to_S W (_lo urange)) (to_S W (_hi urange))); [lia|].
  fold neg_type pos_type. rewrite Hneg, Hpos. reflexivity.
Qed.

(** ** The set represented by a prototype *)

Lemma pow2W_double : 2 ^ W = 2 * 2 ^ (W - 1).
Proof.
  replace W with (1 + (W - 1)) at 1 by lia.
  rewrite Z.pow_add_r by lia. reflexivity.
Qed.

Lemma pow2_half_pos : 0 < 2 ^ (W - 1).
Proof. apply Z.pow_pos_nonneg; lia. Qed.

Lemma to_U_spec (v : Z) :
  in_S W v -> to_U W v = if v <? 0 then v + 2 ^ W else v.
Proof.
  unfold in_S, to_U, wrap. intros Hv.
  pose proof pow2W_double. pose proof pow2_half_pos.
  destruct (Z.ltb_spec v 0).
  - replace v with ((v + 2 ^ W) + (-1) * 2 ^ W) at 1 by lia.
    rewrite Z.mod_add by lia. apply Z.mod_small. lia.
  - apply Z.mod_small. lia.
Qed.

Lemma to_U_in_U (v : Z) : in_U W (to_U W v).
Proof. apply wrap_in_U. Qed.

Lemma contains_iff (p : TypeIntPrototype) (v : Z) :
  contains W p v = true <->
  (_lo (_srange p) <= v <= _hi (_srange p)) /\
  in_simple W (_urange p) (_bits p) (to_U W v).
Proof.
  unfold contains, in_simple.
  rewrite !andb_true_iff, !Z.geb_le, !Z.leb_le. tauto.
Qed.

Lemma satisfied_subset (b1 b2 : KnownBits) (u : Z) :
  bits_subset b1 b2 -> in_U W u ->
  is_satisfied_by W b2 u = true -> is_satisfied_by W b1 u = true.
Proof.
  intros Hsub Hu. rewrite !is_satisfied_by_iff by assumption.
  intros H j Hj. destruct (H j Hj) as [Hz Ho].
  destruct (Hsub j ltac:(lia)) as [Sz So]. split; auto.
Qed.

Lemma inconsistent_unsatisfiable (bits : KnownBits) (u : Z) :
  bits_in_U W bits -> Z.land (_zeros bits) (_ones bits) <> 0 -> in_U W u ->
  is_satisfied_by W bits u = false.
Proof.
  intros [Hz Ho] Hne Hu.
  destruct (is_satisfied_by W bits u) eqn:Hs; [exfalso|reflexivity].
  pose proof (proj1 (is_satisfied_by_iff _ u Hu) Hs) as Hok.
  set (x0 := Z.land (_zeros bits) (_ones bits)) in *.
  assert (Hx : in_U W x0) by (apply land_in_U; [exact Hz|apply Ho]).
  assert (Hpos : 0 < x0) by (unfold in_U in Hx; lia).
  pose proof (log2_in_U x0 Hx Hpos) as Hlog.
  pose proof (Z.bit_log2 x0 Hpos) as Hbit.
  unfold x0 in Hbit. rewrite Z.land_spec in Hbit.
  apply andb_true_iff in Hbit. destruct Hbit as [Bz Bo].
  destruct (Hok (Z.log2 x0) Hlog) as [Kz Ko].
  rewrite (Kz Bz) in Ko. specialize (Ko Bo). discriminate.
Qed.

Lemma land_bits_subset_l (b1 b2 : KnownBits) :
  bits_subset (mkBits (Z.land (_zeros b1) (_zeros b2))
                      (Z.land (_ones b1) (_ones b2))) b1.
Proof.
  intros j Hj. cbn [_zeros _ones]. rewrite !Z.land_spec, !andb_true_iff.
  tauto.
Qed.

Lemma land_bits_subset_r (b1 b2 : KnownBits) :
  bits_subset (mkBits (Z.land (_zeros b1) (_zeros b2))
                      (Z.land (_ones b1) (_ones b2))) b2.
Proof.
  intros j Hj. cbn [_zeros _ones]. rewrite !Z.land_spec, !andb_true_iff.
  tauto.
Qed.

Lemma land_bits_subset_glb (b b1 b2 : KnownBits) :
  bits_subset b b1 -> bits_subset b b2 ->
  bits_subset b (mkBits (Z.land (_zeros b1) (_zeros b2))
                        (Z.land (_ones b1) (_ones b2))).
Proof.
  intros H1 H2 j Hj. cbn [_zeros _ones]. rewrite !Z.land_spec, !andb_true_iff.
  destruct (H1 j Hj), (H2 j Hj). tauto.
Qed.

(** The first adjustment of the unsigned range keeps the set, and the
    bounds ordered. *)
Lemma tighten_urange_sound (srange urange : RangeInt) :
  range_in_U W urange -> _lo urange <= _hi urange ->
  let ur := tighten_urange W srange urange in
  range_in_U W ur /\ _lo ur <= _hi ur /\
  forall v, in_S W v -> _lo srange <= v <= _hi srange ->
    (_lo urange <= to_U W v <= _hi urange <->
     _lo ur <= to_U W v <= _hi ur).
Proof.
  intros [Hlo Hhi] Hle. unfold tighten_urange.
  pose proof pow2W_double as HD. pose proof pow2_half_pos as HP.
  unfold in_U in Hlo, Hhi.
  assert (Hsmax : to_U W (smax W) = 2 ^ (W - 1) - 1).
  { rewrite to_U_spec by (unfold in_S, smax; lia). unfold smax.
    destruct (Z.ltb_spec (2 ^ (W - 1) - 1) 0); lia. }
  assert (Hsmin : to_U W (smin W) = 2 ^ (W - 1)).
  { rewrite to_U_spec by (unfold in_S, smin; lia). unfold smin.
    destruct (Z.ltb_spec (- 2 ^ (W - 1)) 0); lia. }
  unfold to_S.
  destruct (Z.ltb_spec (_lo urange) (2 ^ (W - 1)));
    destruct (Z.ltb_spec (_hi urange) (2 ^ (W - 1)));
    match goal with |- context [?x >? ?y] => destruct (Z.gtb_spec x y) end;
    try lia;
    try (cbn zeta; split; [split; assumption|]; split; [assumption|];
         intros; reflexivity).
  destruct (Z.ltb_spec (_hi urange - 2 ^ W) (_lo srange)).
  - cbn zeta. cbn [_lo _hi]. rewrite Hsmax. unfold range_in_U, in_U.
    cbn [_lo _hi]. split; [lia|]. split; [lia|].
    intros v Hv [Hv1 Hv2]. rewrite (to_U_spec v Hv). unfold in_S in Hv.
    destruct (Z.ltb_spec v 0); lia.
  - match goal with |- context [?x >? ?y] => destruct (Z.gtb_spec x y) end.
    + cbn zeta. cbn [_lo _hi]. rewrite Hsmin. unfold range_in_U, in_U.
      cbn [_lo _hi]. split; [lia|]. split; [lia|].
      intros v Hv [Hv1 Hv2]. rewrite (to_U_spec v Hv). unfold in_S in Hv.
      destruct (Z.ltb_spec v 0); lia.
    + cbn zeta. split; [split; assumption|]. split; [assumption|].
      intros; reflexivity.
Qed.

(** The set of a result built from a [SimpleCanonicalResult] whose bounds
    lie in one half of the unsigned domain. *)
Lemma contains_canon_of_simple (b : bool) (type : SimpleCanonicalResult)
    (v : Z) :
  in_S W v -> range_in_U W (sc_bounds type) ->
  _lo (sc_bounds type) <= _hi (sc_bounds type) ->
  (_hi (sc_bounds type) < 2 ^ (W - 1) \/ 2 ^ (W - 1) <= _lo (sc_bounds type)) ->
  contains W (_data (canon_of_simple W b type)) v = true <->
  in_simple W (sc_bounds type) (sc_bits type) (to_U W v).
Proof.
  intros Hv [Hlo Hhi] Hle Hhalf. rewrite contains_iff.
  unfold canon_of_simple. cbn [_data _srange _urange _bits _lo _hi].
  unfold in_simple. unfold to_S. rewrite (to_U_spec v Hv).
  pose proof pow2W_double as HD. pose proof pow2_half_pos as HP.
  unfold in_U, in_S in *.
  destruct (Z.ltb_spec v 0);
    destruct (Z.ltb_spec (_lo (sc_bounds type)) (2 ^ (W - 1)));
    destruct (Z.ltb_spec (_hi (sc_bounds type)) (2 ^ (W - 1)));
    intuition lia.
Qed.

Section CanonicalizeSound.

Variable p : TypeIntPrototype.
Hypothesis W_ge_2 : 2 <= W.
Hypothesis p_in : proto_in_range W p.
Hypothesis p_not_trivial : trivially_empty p = false.

Let srange := _srange p.
Let urange := tighten_urange W (_srange p) (_urange p).

Lemma not_trivial_facts :
  _lo srange <= _hi srange /\ _lo (_urange p) <= _hi (_urange p) /\
  Z.land (_zeros (_bits p)) (_ones (_bits p)) = 0.
Proof using p_not_trivial.
  unfold trivially_empty in p_not_trivial.
  apply orb_false_iff in p_not_trivial. destruct p_not_trivial as [H12 H3].
  apply orb_false_iff in H12. destruct H12 as [H1 H2].
  apply negb_false_iff, Z.eqb_eq in H3.
  unfold srange.
  destruct (Z.gtb_spec (_lo (_srange p)) (_hi (_srange p))); [discriminate|].
  destruct (Z.gtb_spec (_lo (_urange p)) (_hi (_urange p))); [discriminate|].
  auto.
Qed.

(** Membership in the prototype, with the adjusted unsigned range. *)
Lemma contains_tightened (v : Z) :
  in_S W v ->
  contains W p v = true <->
  _lo srange <= v <= _hi srange /\
  _lo urange <= to_U W v <= _hi urange /\
  is_satisfied_by W (_bits p) (to_U W v) = true.
Proof using W_pos p_in p_not_trivial.
  intros Hv. destruct p_in as (_ & _ & Hur & _).
  destruct not_trivial_facts as (_ & Hule & _).
  destruct (tighten_urange_sound (_srange p) (_urange p) Hur Hule)
    as (_ & _ & Heq).
  rewrite contains_iff. unfold in_simple. fold srange urange in Heq |- *.
  split.
  - intros (Hs & Hu & Hsat). split; [assumption|]. split; [|assumption].
    apply Heq; assumption.
  - intros (Hs & Hu & Hsat). split; [assumption|]. split; [|assumption].
    apply Heq; assumption.
Qed.

(** The path on which both unsigned bounds have the same sign. *)
Lemma canonicalize_same_sign_sound (v : Z) :
  in_S W v ->
  to_S W (_lo urange) <= to_S W (_hi urange) ->
  signed_crossing_missed W p = false ->
  contains W p v = true <->
  _present (canonicalize_constraints W p) = true /\
  contains W (_data (canonicalize_constraints W p)) v = true.
Proof using W_pos W_ge_2 p_in p_not_trivial.
  intros Hv Hsame Hmiss.
  destruct p_in as (Hslo & Hshi & Hur & Hbits).
  destruct not_trivial_facts as (Hsle & Hule & Hok).
  destruct (tighten_urange_sound (_srange p) (_urange p) Hur Hule)
    as ((Hlo_in & Hhi_in) & Hle' & _).
  fold urange in Hlo_in, Hhi_in, Hle'.
  rewrite (contains_tightened v Hv).
  unfold signed_crossing_missed in Hmiss.
  unfold canonicalize_constraints. rewrite p_not_trivial in *.
  cbn [negb andb] in Hmiss. fold urange srange in Hmiss |- *.
  destruct (Z.leb_spec (to_S W (_lo urange)) (to_S W (_hi urange))); [|lia].
  cbn [andb] in Hmiss. cbn [_lo _hi].
  set (a := Z.max (to_S W (_lo urange)) (_lo srange)) in *.
  set (b := Z.min (to_S W (_hi urange)) (_hi srange)) in *.
  pose proof pow2W_double as HD. pose proof pow2_half_pos as HP.
  pose proof (to_S_bounds _ Hlo_in) as Bl.
  pose proof (to_S_bounds _ Hhi_in) as Bh.
  assert (Ha : in_S W a) by (unfold a, srange, in_S in *; lia).
  assert (Hb : in_S W b) by (unfold b, srange, in_S in *; lia).
  assert (Hset : _lo srange <= v <= _hi srange /\
                 _lo urange <= to_U W v <= _hi urange <-> a <= v <= b).
  { unfold a, b, to_S in *. rewrite (to_U_spec v Hv).
    unfold in_U, in_S in *.
    destruct (Z.ltb_spec v 0);
      destruct (Z.ltb_spec (_lo urange) (2 ^ (W - 1)));
      destruct (Z.ltb_spec (_hi urange) (2 ^ (W - 1))); lia. }
  assert (Hhalf : a <= b -> 0 <= a \/ b < 0).
  { unfold a, b, to_S in *. unfold in_U, in_S in *.
    destruct (Z.ltb_spec (_lo urange) (2 ^ (W - 1)));
      destruct (Z.ltb_spec (_hi urange) (2 ^ (W - 1))); lia. }
  rewrite (to_U_spec a Ha), (to_U_spec b Hb) in *.
  match goal with |- context [?x >? ?y] => destruct (Z.gtb_spec x y) end.
  - (* the empty intersection is detected *)
    cbn [_present make_empty_canon].
    split; [|intros [? _]; discriminate].
    intros (Hs & Hu & _). exfalso.
    pose proof (proj1 Hset (conj Hs Hu)) as Hab.
    destruct (Hhalf ltac:(lia)); unfold in_S in *;
      destruct (Z.ltb_spec a 0); destruct (Z.ltb_spec b 0); lia.
  - assert (Hab : a <= b).
    { destruct (Z.gtb_spec a b); [discriminate|assumption]. }
    set (ua := if a <? 0 then a + 2 ^ W else a) in *.
    set (ub := if b <? 0 then b + 2 ^ W else b) in *.
    assert (Hua : in_U W ua /\ in_U W ub /\ ua <= ub /\
                  (ub < 2 ^ (W - 1) \/ 2 ^ (W - 1) <= ua)).
    { unfold ua, ub, in_U, in_S in *.
      destruct (Hhalf Hab); destruct (Z.ltb_spec a 0);
        destruct (Z.ltb_spec b 0); lia. }
    destruct Hua as (Hua & Hub & Huab & Huhalf).
    destruct (canonicalize_simple_sound (mkRange ua ub) (_bits p) W_ge_2
                (conj Hua Hub) Hbits) as [Hsnd Hfix].
    set (type := canonicalize_constraints_simple W (mkRange ua ub) (_bits p))
      in *.
    cbn [_lo _hi] in Hfix.
    assert (Hin : a <= v <= b /\
                  is_satisfied_by W (_bits p) (to_U W v) = true <->
                  in_simple W (mkRange ua ub) (_bits p) (to_U W v)).
    { unfold in_simple. cbn [_lo _hi]. rewrite (to_U_spec v Hv).
      unfold ua, ub, in_S in *.
      destruct (Hhalf Hab); destruct (Z.ltb_spec v 0);
        destruct (Z.ltb_spec a 0); destruct (Z.ltb_spec b 0); intuition lia. }
    rewrite and_assoc in Hset.
    transitivity (in_simple W (mkRange ua ub) (_bits p) (to_U W v)).
    { rewrite <- Hin. tauto. }
    rewrite (Hsnd (to_U W v) (to_U_in_U v)).
    unfold canon_of_simple at 1. cbn [_present].
    split.
    + intros [Hp Hmem]. split; [assumption|].
      destruct (Hfix Hp) as ((Fle & Fin & _) & L1 & L2 & _).
      apply contains_canon_of_simple; try assumption.
      unfold in_U in *. lia.
    + intros [Hp Hmem]. split; [assumption|].
      destruct (Hfix Hp) as ((Fle & Fin & _) & L1 & L2 & _).
      apply contains_canon_of_simple in Hmem; try assumption.
      unfold in_U in *. lia.
Qed.

End CanonicalizeSound.

Section CanonicalizeStraddle.

Variable p : TypeIntPrototype.
Hypothesis W_ge_2 : 2 <= W.
Hypothesis p_in : proto_in_range W p.
Hypothesis p_not_trivial : trivially_empty p = false.
Hypothesis p_straddles :
  to_S W (_lo (tighten_urange W (_srange p) (_urange p)))
    > to_S W (_hi (tighten_urange W (_srange p) (_urange p))).

Let neg_type :=
  canonicalize_constraints_simple W
    (mkRange (to_U W (_lo (_srange p))) (_hi (_urange p))) (_bits p).
Let pos_type :=
  canonicalize_constraints_simple W
    (mkRange (_lo (_urange p)) (to_U W (_hi (_srange p)))) (_bits p).

(** The bounds of the two sub-ranges. *)
Lemma straddle_bounds :
  tighten_urange W (_srange p) (_urange p) = _urange p /\
  _lo (_urange p) < 2 ^ (W - 1) /\ 2 ^ (W - 1) <= _hi (_urange p) /\
  2 ^ (W - 1) <= to_U W (_lo (_srange p)) <= _hi (_urange p) /\
  _lo (_urange p) <= to_U W (_hi (_srange p)) < 2 ^ (W - 1).
Proof using W_pos p_in p_not_trivial p_straddles.
  destruct p_in as (Hslo & Hshi & Hur & _).
  destruct (straddling_urange_unchanged _ _ Hur p_straddles)
    as (E & Hs & H1 & H2).
  destruct (not_trivial_facts p p_not_trivial) as (_ & Hule & _).
  split; [assumption|].
  rewrite (to_U_spec _ Hslo), (to_U_spec _ Hshi).
  pose proof pow2W_double as HD. pose proof pow2_half_pos as HP.
  destruct Hur as [Hlo Hhi].
  unfold to_S, in_S, in_U in *.
  destruct (Z.ltb_spec (_lo (_urange p)) (2 ^ (W - 1)));
    destruct (Z.ltb_spec (_hi (_urange p)) (2 ^ (W - 1)));
    destruct (Z.ltb_spec (_lo (_srange p)) 0);
    destruct (Z.ltb_spec (_hi (_srange p)) 0); lia.
Qed.

Lemma canonicalize_straddle_eq :
  canonicalize_constraints W p =
  if negb (sc_present neg_type) && negb (sc_present pos_type) then
    make_empty_canon
  else if negb (sc_present neg_type) then canon_of_simple W true pos_type
  else if negb (sc_present pos_type) then canon_of_simple W true neg_type
  else
    mkCanon true
      (mkProto
         (mkRange (to_S W (_lo (sc_bounds neg_type)))
                  (to_S W (_hi (sc_bounds pos_type))))
         (mkRange (_lo (sc_bounds pos_type)) (_hi (sc_bounds neg_type)))
         (mkBits
            (Z.land (_zeros (sc_bits neg_type)) (_zeros (sc_bits pos_type)))
            (Z.land (_ones (sc_bits neg_type)) (_ones (sc_bits pos_type))))).
Proof using W_pos p_in p_not_trivial p_straddles.
  destruct straddle_bounds as (E & _).
  unfold canonicalize_constraints. rewrite p_not_trivial.
  cbn zeta.
  destruct (Z.leb_spec
              (to_S W (_lo (tighten_urange W (_srange p) (_urange p))))
              (to_S W (_hi (tighten_urange W (_srange p) (_urange p)))));
    [lia|].
  rewrite E. reflexivity.
Qed.

(** Membership in the prototype is membership in one of the two
    sub-ranges. *)
Lemma contains_straddle (v : Z) :
  in_S W v ->
  contains W p v = true <->
  (v < 0 /\
   in_simple W (mkRange (to_U W (_lo (_srange p))) (_hi (_urange p)))
             (_bits p) (to_U W v)) \/
  (0 <= v /\
   in_simple W (mkRange (_lo (_urange p)) (to_U W (_hi (_srange p))))
             (_bits p) (to_U W v)).
Proof using W_pos p_in p_not_trivial p_straddles.
  intros Hv. rewrite contains_iff. unfold in_simple. cbn [_lo _hi].
  destruct straddle_bounds as (_ & B1 & B2 & B3 & B4).
  destruct p_in as (Hslo & Hshi & (Hlo & Hhi) & _).
  rewrite (to_U_spec _ Hslo), (to_U_spec _ Hshi) in *.
  rewrite (to_U_spec v Hv).
  pose proof pow2W_double as HD. pose proof pow2_half_pos as HP.
  unfold in_S, in_U in *.
  destruct (Z.ltb_spec v 0);
    destruct (Z.ltb_spec (_lo (_srange p)) 0);
    destruct (Z.ltb_spec (_hi (_srange p)) 0); intuition lia.
Qed.

Lemma canonicalize_straddle_sound (v : Z) :
  in_S W v ->
  contains W p v = true <->
  _present (canonicalize_constraints W p) = true /\
  contains W (_data (canonicalize_constraints W p)) v = true.
Proof using W_pos W_ge_2 p_in p_not_trivial p_straddles.
  intros Hv. rewrite (contains_straddle v Hv), canonicalize_straddle_eq.
  destruct straddle_bounds as (_ & B1 & B2 & B3 & B4).
  destruct p_in as (Hslo & Hshi & (Hlo & Hhi) & Hbits).
  pose proof (to_U_in_U v) as Hu.
  destruct (canonicalize_simple_sound
              (mkRange (to_U W (_lo (_srange p))) (_hi (_urange p)))
              (_bits p) W_ge_2 (conj (to_U_in_U _) Hhi) Hbits) as [Nsnd Nfix].
  destruct (canonicalize_simple_sound
              (mkRange (_lo (_urange p)) (to_U W (_hi (_srange p))))
              (_bits p) W_ge_2 (conj Hlo (to_U_in_U _)) Hbits) as [Psnd Pfix].
  fold neg_type in Nsnd, Nfix. fold pos_type in Psnd, Pfix.
  cbn [_lo _hi] in Nfix, Pfix.
  rewrite (Nsnd _ Hu), (Psnd _ Hu).
  pose proof pow2W_double as HD. pose proof pow2_half_pos as HP.
  assert (Hsign : to_U W v < 2 ^ (W - 1) <-> 0 <= v).
  { rewrite (to_U_spec v Hv). unfold in_S in Hv.
    destruct (Z.ltb_spec v 0); lia. }
  destruct (sc_present neg_type) eqn:Hn; destruct (sc_present pos_type) eqn:Hp;
    cbn [negb andb].
  - (* both present *)
    destruct (Nfix eq_refl) as ((Nle & (Nlo & Nhi) & _) & N1 & N2 & Nsub).
    destruct (Pfix eq_refl) as ((Ple & (Plo & Phi) & _) & P1 & P2 & Psub).
    cbn [_present _data]. rewrite contains_iff.
    cbn [_srange _urange _bits _lo _hi]. unfold in_simple at 3.
    cbn [_lo _hi].
    set (meet := mkBits
                   (Z.land (_zeros (sc_bits neg_type)) (_zeros (sc_bits pos_type)))
                   (Z.land (_ones (sc_bits neg_type)) (_ones (sc_bits pos_type)))).
    assert (Hweak : forall t, t = neg_type \/ t = pos_type ->
              is_satisfied_by W (sc_bits t) (to_U W v) = true ->
              is_satisfied_by W meet (to_U W v) = true).
    { intros t [-> | ->]; apply satisfied_subset; try assumption.
      - apply land_bits_subset_l.
      - apply land_bits_subset_r. }
    assert (Hinput : is_satisfied_by W meet (to_U W v) = true ->
                     is_satisfied_by W (_bits p) (to_U W v) = true).
    { apply satisfied_subset; [|assumption].
      apply land_bits_subset_glb; assumption. }
    assert (HS : to_S W (_lo (sc_bounds neg_type)) <= v
                 <= to_S W (_hi (sc_bounds pos_type)) <->
                 (v < 0 -> _lo (sc_bounds neg_type) <= to_U W v) /\
                 (0 <= v -> to_U W v <= _hi (sc_bounds pos_type))).
    { unfold to_S. rewrite (to_U_spec v Hv). unfold in_S, in_U in *.
      destruct (Z.ltb_spec v 0);
        destruct (Z.ltb_spec (_lo (sc_bounds neg_type)) (2 ^ (W - 1)));
        destruct (Z.ltb_spec (_hi (sc_bounds pos_type)) (2 ^ (W - 1))); lia. }
    rewrite HS. unfold in_simple.
    split.
    + intros [[Hneg (_ & Hin & Hs)]|[Hpos (_ & Hin & Hs)]].
      * split; [reflexivity|]. split; [lia|]. split; [lia|].
        apply (Hweak neg_type); auto.
      * split; [reflexivity|]. split; [lia|]. split; [lia|].
        apply (Hweak pos_type); auto.
    + intros (_ & (Hs1 & Hs2) & Hin & Hs).
      pose proof (Hinput Hs) as HsB.
      destruct (Z_lt_le_dec v 0) as [Hneg|Hpos].
      * left. split; [assumption|].
        apply (Nsnd _ Hu). unfold in_simple. cbn [_lo _hi]. split; [lia|].
        assumption.
      * right. split; [assumption|].
        apply (Psnd _ Hu). unfold in_simple. cbn [_lo _hi]. split; [lia|].
        assumption.
  - (* only the negative sub-range *)
    destruct (Nfix eq_refl) as ((Nle & (Nlo & Nhi) & _) & N1 & N2 & Nsub).
    unfold canon_of_simple at 1. cbn [_present].
    rewrite (contains_canon_of_simple true neg_type v Hv (conj Nlo Nhi) Nle)
      by (right; lia).
    unfold in_simple. split.
    + intros [[Hneg (_ & Hin)]|[Hpos (Hf & _)]]; [auto|discriminate].
    + intros (_ & Hin & Hs). left. split; [|auto].
      rewrite (to_U_spec v Hv) in Hin. unfold in_S in Hv.
      destruct (Z.ltb_spec v 0); lia.
  - (* only the non-negative sub-range *)
    destruct (Pfix eq_refl) as ((Ple & (Plo & Phi) & _) & P1 & P2 & Psub).
    unfold canon_of_simple at 1. cbn [_present].
    rewrite (contains_canon_of_simple true pos_type v Hv (conj Plo Phi) Ple)
      by (left; lia).
    unfold in_simple. split.
    + intros [[Hneg (Hf & _)]|[Hpos (_ & Hin)]]; [discriminate|auto].
    + intros (_ & Hin & Hs). right. split; [|auto].
      rewrite (to_U_spec v Hv) in Hin. unfold in_S in Hv.
      destruct (Z.ltb_spec v 0); lia.
  - cbn [_present make_empty_canon]. split.
    + intros [[_ (Hf & _)]|[_ (Hf & _)]]; discriminate.
    + intros [Hf _]. discriminate.
Qed.

End CanonicalizeStraddle.

(** Outside the situation described by [signed_crossing_missed], the
    result of [canonicalize_constraints] represents the set of its input:
    a value belongs to the input if and only if the result is present and
    the value belongs to it. *)
Lemma canonicalize_constraints_sound (p : TypeIntPrototype) (v : Z) :
  2 <= W -> proto_in_range W p -> in_S W v ->
  signed_crossing_missed W p = false ->
  contains W p v =
  _present (canonicalize_constraints W p)
  && contains W (_data (canonicalize_constraints W p)) v.
Proof.
  intros HW Hp Hv Hmiss. apply eq_true_iff_eq. rewrite andb_true_iff.
  destruct (trivially_empty p) eqn:Htriv.
  - unfold canonicalize_constraints. rewrite Htriv.
    cbn [_present make_empty_canon]. split; [|intros [? _]; discriminate].
    rewrite contains_iff. unfold in_simple. intros (Hs & Hu & Hsat).
    destruct Hp as (_ & _ & _ & Hbits).
    unfold trivially_empty in Htriv.
    apply orb_true_iff in Htriv. destruct Htriv as [Htriv|Hbad].
    + apply orb_true_iff in Htriv. destruct Htriv as [H1|H1];
        apply Z.gtb_lt in H1; lia.
    + apply negb_true_iff, Z.eqb_neq in Hbad.
      rewrite (inconsistent_unsatisfiable _ _ Hbits Hbad (to_U_in_U v)) in Hsat.
      discriminate.
  - destruct (Z_le_gt_dec
                (to_S W (_lo (tighten_urange W (_srange p) (_urange p))))
                (to_S W (_hi (tighten_urange W (_srange p) (_urange p))))).
    + apply canonicalize_same_sign_sound; assumption.
    + apply canonicalize_straddle_sound; assumption.
Qed.

Lemma to_U_to_S (u : Z) : in_U W u -> to_U W (to_S W u) = u.
Proof.
  intros Hu. rewrite to_U_spec by (apply to_S_bounds; assumption).
  unfold to_S. pose proof pow2W_double as HD. pose proof pow2_half_pos as HP.
  unfold in_U in Hu.
  destruct (Z.ltb_spec u (2 ^ (W - 1)));
    match goal with |- context [?x <? 0] => destruct (Z.ltb_spec x 0) end; lia.
Qed.

(** A fixed point contains its lower bound. *)
Lemma simple_fixed_nonempty (bounds : RangeInt) (bits : KnownBits) :
  simple_fixed W bounds bits ->
  in_simple W bounds bits (to_U W (to_S W (_lo bounds))).
Proof.
  intros (Hle & (Hlo & Hhi) & _ & _ & Hs & _).
  rewrite to_U_to_S by assumption. split; [lia|assumption].
Qed.

(** A present result is not empty. *)
Lemma canonicalize_constraints_nonempty (p : TypeIntPrototype) :
  2 <= W -> proto_in_range W p -> signed_crossing_missed W p = false ->
  _present (canonicalize_constraints W p) = true ->
  exists v, in_S W v /\ contains W p v = true.
Proof.
  intros HW Hp Hmiss Hpres.
  assert (Hex : exists v, in_S W v /\
            contains W (_data (canonicalize_constraints W p)) v = true).
  { destruct (trivially_empty p) eqn:Htriv.
    { unfold canonicalize_constraints in Hpres. rewrite Htriv in Hpres.
      discriminate. }
    pose proof Hp as (Hslo & Hshi & (Hlo & Hhi) & Hbits).
    pose proof pow2W_double as HD. pose proof pow2_half_pos as HP.
    destruct (Z_le_gt_dec
                (to_S W (_lo (tighten_urange W (_srange p) (_urange p))))
                (to_S W (_hi (tighten_urange W (_srange p) (_urange p)))))
      as [Hsame|Hstr].
    - (* same sign *)
      destruct (not_trivial_facts p Htriv) as (Hsle & Hule & Hok).
      destruct (tighten_urange_sound (_srange p) (_urange p)
                  (conj Hlo Hhi) Hule) as ((Tlo & Thi) & Tle & _).
      unfold signed_crossing_missed in Hmiss.
      unfold canonicalize_constraints in Hpres |- *. rewrite Htriv in *.
      cbn [negb andb] in Hmiss. cbn zeta in Hmiss, Hpres |- *.
      destruct (Z.leb_spec
                  (to_S W (_lo (tighten_urange W (_srange p) (_urange p))))
                  (to_S W (_hi (tighten_urange W (_srange p) (_urange p)))));
        [|lia].
      cbn [andb _lo _hi] in Hmiss, Hpres |- *.
      set (ur := tighten_urange W (_srange p) (_urange p)) in *.
      set (a := Z.max (to_S W (_lo ur)) (_lo (_srange p))) in *.
      set (b := Z.min (to_S W (_hi ur)) (_hi (_srange p))) in *.
      destruct (to_U W a >? to_U W b) eqn:Hcmp; [discriminate|].
      cbn [negb] in Hmiss. rewrite andb_true_r in Hmiss.
      pose proof (to_S_bounds _ Tlo) as Bl.
      pose proof (to_S_bounds _ Thi) as Bh.
      assert (Ha : in_S W a) by (unfold a, in_S in *; lia).
      assert (Hb : in_S W b) by (unfold b, in_S in *; lia).
      assert (Hab : a <= b).
      { destruct (Z.gtb_spec a b); [discriminate|assumption]. }
      assert (Hhalf : 0 <= a \/ b < 0).
      { unfold a, b, to_S in *. unfold in_U, in_S in *.
        destruct (Z.ltb_spec (_lo ur) (2 ^ (W - 1)));
          destruct (Z.ltb_spec (_hi ur) (2 ^ (W - 1))); lia. }
      destruct (canonicalize_simple_sound
                  (mkRange (to_U W a) (to_U W b)) (_bits p) HW
                  (conj (to_U_in_U a) (to_U_in_U b)) Hbits) as [_ Hfix].
      set (type := canonicalize_constraints_simple W
                     (mkRange (to_U W a) (to_U W b)) (_bits p)) in *.
      unfold canon_of_simple in Hpres at 1. cbn [_present] in Hpres.
      destruct (Hfix Hpres) as (F & L1 & L2 & _).
      pose proof F as (Fle & (Flo & Fhi) & _).
      exists (to_S W (_lo (sc_bounds type))).
      split; [apply to_S_bounds; assumption|].
      apply contains_canon_of_simple;
        [apply to_S_bounds; assumption|split; assumption|assumption|
        |apply simple_fixed_nonempty; assumption].
      cbn [_lo _hi] in L1, L2.
      rewrite (to_U_spec a Ha) in L1. rewrite (to_U_spec b Hb) in L2.
      unfold in_S, in_U in *.
      destruct Hhalf; destruct (Z.ltb_spec a 0); destruct (Z.ltb_spec b 0);
        lia.
    - (* different signs *)
      destruct (straddle_bounds p Hp Htriv Hstr) as (_ & B1 & B2 & B3 & B4).
      rewrite (canonicalize_straddle_eq p Hp Htriv Hstr) in Hpres |- *.
      destruct (canonicalize_simple_sound
                  (mkRange (to_U W (_lo (_srange p))) (_hi (_urange p)))
                  (_bits p) HW (conj (to_U_in_U _) Hhi) Hbits) as [_ Nfix].
      destruct (canonicalize_simple_sound
                  (mkRange (_lo (_urange p)) (to_U W (_hi (_srange p))))
                  (_bits p) HW (conj Hlo (to_U_in_U _)) Hbits) as [_ Pfix].
      cbn [_lo _hi] in Nfix, Pfix.
      set (neg_type := canonicalize_constraints_simple W
             (mkRange (to_U W (_lo (_srange p))) (_hi (_urange p))) (_bits p))
        in *.
      set (pos_type := canonicalize_constraints_simple W
             (mkRange (_lo (_urange p)) (to_U W (_hi (_srange p)))) (_bits p))
        in *.
      destruct (sc_present neg_type) eqn:Hn.
      + destruct (Nfix eq_refl) as (NF & N1 & N2 & _).
        pose proof NF as (Nle & (Nlo & Nhi) & _ & _ & Nsat & _).
        exists (to_S W (_lo (sc_bounds neg_type))).
        split; [apply to_S_bounds; assumption|].
        destruct (sc_present pos_type) eqn:Hpp; cbn [negb andb].
        * destruct (Pfix eq_refl) as (PF & P1 & P2 & _).
          pose proof PF as (Ple & (Plo & Phi) & _).
          cbn [_data]. apply contains_iff.
          cbn [_srange _urange _bits _lo _hi]. unfold in_simple.
          cbn [_lo _hi]. rewrite to_U_to_S by assumption.
          split; [|split].
          -- unfold to_S, in_U in *.
             destruct (Z.ltb_spec (_lo (sc_bounds neg_type)) (2 ^ (W - 1)));
               destruct (Z.ltb_spec (_hi (sc_bounds pos_type)) (2 ^ (W - 1)));
               lia.
          -- lia.
          -- apply (satisfied_subset _ (sc_bits neg_type));
               [apply land_bits_subset_l|assumption|assumption].
        * apply contains_canon_of_simple;
            [apply to_S_bounds; assumption|split; assumption|assumption
            |right; lia|apply simple_fixed_nonempty; assumption].
      + destruct (sc_present pos_type) eqn:Hpp; cbn [negb andb] in Hpres |- *;
          [|discriminate].
        destruct (Pfix eq_refl) as (PF & P1 & P2 & _).
        pose proof PF as (Ple & (Plo & Phi) & _).
        exists (to_S W (_lo (sc_bounds pos_type))).
        split; [apply to_S_bounds; assumption|].
        apply contains_canon_of_simple;
          [apply to_S_bounds; assumption|split; assumption|assumption
          |left; lia|apply simple_fixed_nonempty; assumption]. }
  destruct Hex as (v & Hv & Hc). exists v. split; [assumption|].
  rewrite (canonicalize_constraints_sound p v HW Hp Hv Hmiss), Hpres, Hc.
  reflexivity.
Qed.

(** ** Canonical results are fixed points *)

Section PrefixGrowth.

Variables (outer inner : RangeInt).
Hypothesis outer_in : range_in_U W outer.
Hypothesis inner_in : range_in_U W inner.
Hypothesis inner_within :
  _lo outer <= _lo inner /\ _lo inner <= _hi inner /\ _hi inner <= _hi outer.

Let mask (bounds : RangeInt) :=
  if Z.lxor (_lo bounds) (_hi bounds) =? 0 then umax W
  else unot W (ushr (umax W)
                (count_leading_zeros W (Z.lxor (_lo bounds) (_hi bounds)))).

(** The mask of a bounds pair is the set of the bits from some position
    up. *)
Lemma mask_upward (bounds : RangeInt) (j k : Z) :
  range_in_U W bounds -> 0 <= j <= k -> k < W ->
  Z.testbit (mask bounds) j = true -> Z.testbit (mask bounds) k = true.
Proof using W_pos.
  intros Hb Hjk Hk. unfold mask.
  destruct (Z.eqb_spec (Z.lxor (_lo bounds) (_hi bounds)) 0) as [E|Hne].
  - intros _. rewrite testbit_umax by lia. apply Z.ltb_lt. assumption.
  - assert (Hm : in_U W (Z.lxor (_lo bounds) (_hi bounds)))
      by (apply lxor_in_U; apply Hb).
    assert (Hpos : 0 < Z.lxor (_lo bounds) (_hi bounds))
      by (unfold in_U in Hm; lia).
    pose proof (log2_in_U _ Hm Hpos) as Hlog.
    unfold count_leading_zeros.
    rewrite !testbit_unot_ushr_umax by lia.
    rewrite !andb_true_iff, !Z.ltb_lt, !Z.leb_le. lia.
Qed.

Lemma mask_below_W (bounds : RangeInt) (j : Z) :
  0 <= j -> Z.testbit (mask bounds) j = true -> j < W.
Proof using W_pos.
  intros Hj Hb. destruct (Z_lt_le_dec j W) as [|Hge]; [assumption|exfalso].
  rewrite (testbit_in_U_high (mask bounds) j) in Hb;
    [discriminate| |assumption].
  unfold mask. destruct (_ =? 0); [apply umax_in_U|apply unot_in_U].
Qed.

(** Bounds within other bounds have at least their common prefix. *)
Lemma mask_grows (j : Z) :
  0 <= j -> Z.testbit (mask outer) j = true ->
  Z.testbit (mask inner) j = true /\
  Z.testbit (_lo inner) j = Z.testbit (_lo outer) j.
Proof using W_pos outer_in inner_in inner_within.
  intros Hj Hm. pose proof (mask_below_W outer j Hj Hm) as HjW.
  assert (Hagree : forall k, j <= k -> k < W ->
            Z.testbit (_lo inner) k = Z.testbit (_lo outer) k /\
            Z.testbit (_hi inner) k = Z.testbit (_lo outer) k).
  { intros k Hk HkW.
    pose proof (mask_upward outer j k outer_in ltac:(lia) HkW Hm) as Hmk.
    split; apply (between_match_mask outer outer_in); try lia; assumption. }
  split; [|apply Hagree; lia].
  unfold mask.
  destruct (Z.eqb_spec (Z.lxor (_lo inner) (_hi inner)) 0) as [E|Hne].
  - rewrite testbit_umax by lia. apply Z.ltb_lt. assumption.
  - assert (Hmi : in_U W (Z.lxor (_lo inner) (_hi inner)))
      by (apply lxor_in_U; apply inner_in).
    assert (Hpos : 0 < Z.lxor (_lo inner) (_hi inner))
      by (unfold in_U in Hmi; lia).
    pose proof (log2_in_U _ Hmi Hpos) as Hlog.
    unfold count_leading_zeros.
    rewrite testbit_unot_ushr_umax by lia.
    rewrite andb_true_iff, Z.ltb_lt, Z.leb_le. split; [assumption|].
    destruct (Z_lt_le_dec (Z.log2 (Z.lxor (_lo inner) (_hi inner))) j)
      as [|Hge]; [lia|exfalso].
    pose proof (Z.bit_log2 _ Hpos) as Hbit.
    rewrite Z.lxor_spec in Hbit.
    destruct (Hagree _ Hge ltac:(lia)) as [E1 E2].
    rewrite E1, E2, xorb_nilpotent in Hbit. discriminate.
Qed.

(** Deriving the bits from the outer and then from the inner bounds gives
    what the inner bounds alone give. *)
Lemma adjust_bits_within (bits : KnownBits) :
  _result (adjust_bits_from_bounds W
             (_result (adjust_bits_from_bounds W bits outer)) inner) =
  _result (adjust_bits_from_bounds W bits inner).
Proof using W_pos outer_in inner_in inner_within.
  unfold adjust_bits_from_bounds. cbn [_result _zeros _ones].
  fold (mask outer). fold (mask inner).
  f_equal; apply Z.bits_inj'; intros n Hn;
    rewrite !Z.lor_spec, !Z.land_spec, ?testbit_unot by assumption;
    pose proof (mask_grows n Hn) as Hg;
    destruct (Z.testbit (mask outer) n) eqn:Em;
    rewrite ?andb_false_l, ?orb_false_r; try reflexivity;
    destruct (Hg eq_refl) as [Ei El]; rewrite Ei, El;
    destruct (Z.testbit (_zeros bits) n), (Z.testbit (_ones bits) n),
      (n <? W), (Z.testbit (_lo outer) n); reflexivity.
Qed.

End PrefixGrowth.

(** The bits of a present result are those that the input bits and the
    bounds of the result give. *)
Lemma canonicalize_loop_bits (fuel count : nat) :
  forall (nbounds : RangeInt) (nbits bits0 : KnownBits) n r,
  range_in_U W nbounds -> bits_in_U W bits0 ->
  nbits = _result (adjust_bits_from_bounds W bits0 nbounds) ->
  Z.land (_zeros nbits) (_ones nbits) = 0 ->
  canonicalize_loop W fuel count nbounds nbits = Some (n, r) ->
  sc_present r = true ->
  sc_bits r = _result (adjust_bits_from_bounds W bits0 (sc_bounds r)).
Proof.
  revert count. induction fuel as [|fuel IH];
    intros count nbounds nbits bits0 n r Hb Hbits0 Enb Hok; [discriminate|].
  assert (Hbits : bits_in_U W nbits)
    by (rewrite Enb; apply adjust_bits_in_U; assumption).
  cbn [canonicalize_loop].
  destruct (negb (_progress (adjust_bounds_from_bits W nbounds nbits))
            || negb (_is_result_consistent (adjust_bounds_from_bits W nbounds nbits)))
    eqn:Hexit1.
  { intros E. apply Some_pair_inj in E. subst r.
    unfold sc_present, sc_bounds, sc_bits. intros Hc.
    rewrite Hc in Hexit1. cbn [negb] in Hexit1.
    rewrite orb_false_r in Hexit1. apply negb_true_iff in Hexit1.
    destruct (adjust_bounds_consistent nbounds nbits Hc) as (E & H1 & H2 & H3).
    rewrite E in Hexit1. cbn [_progress] in Hexit1.
    apply orb_false_iff in Hexit1. destruct Hexit1 as [E1 E2].
    apply negb_false_iff, Z.eqb_eq in E1, E2.
    rewrite E. cbn [_result]. rewrite E1, E2.
    replace (mkRange (_lo nbounds) (_hi nbounds)) with nbounds
      by (destruct nbounds; reflexivity).
    exact Enb. }
  apply orb_false_iff in Hexit1. destruct Hexit1 as [_ Hc1].
  apply negb_false_iff in Hc1.
  destruct (adjust_bounds_consistent nbounds nbits Hc1) as (E & H1 & H2 & H3).
  pose proof (new_lo_in_U nbounds nbits Hb Hbits Hok) as Hlo_in.
  pose proof (new_hi_in_U nbounds nbits) as Hhi_in.
  set (nb := mkRange (adjust_lo W (_lo nbounds) nbits)
       (unot W (adjust_lo W (unot W (_hi nbounds))
                  (mkBits (_ones nbits) (_zeros nbits))))) in *.
  assert (Eres : _result (adjust_bounds_from_bits W nbounds nbits) = nb)
    by (rewrite E; reflexivity).
  rewrite Eres in *. clear E.
  assert (Hnb : range_in_U W nb) by (split; assumption).
  assert (Ewithin : _result (adjust_bits_from_bounds W nbits nb) =
                    _result (adjust_bits_from_bounds W bits0 nb)).
  { rewrite Enb. apply adjust_bits_within; try assumption.
    unfold nb. cbn [_lo _hi]. lia. }
  destruct (negb (_progress (adjust_bits_from_bounds W nbits nb))
            || negb (_is_result_consistent (adjust_bits_from_bounds W nbits nb)))
    eqn:Hexit2.
  { intros E'. apply Some_pair_inj in E'. subst r.
    unfold sc_present, sc_bounds, sc_bits. intros _. exact Ewithin. }
  apply orb_false_iff in Hexit2. destruct Hexit2 as [_ Hc2].
  apply negb_false_iff in Hc2.
  apply (IH (S count) nb _ bits0 n r Hnb Hbits0 Ewithin).
  apply adjust_bits_consistent. assumption.
Qed.

Lemma canonicalize_simple_bits (bounds : RangeInt) (bits : KnownBits) :
  2 <= W -> range_in_U W bounds -> bits_in_U W bits ->
  let r := canonicalize_constraints_simple W bounds bits in
  sc_present r = true ->
  sc_bits r = _result (adjust_bits_from_bounds W bits (sc_bounds r)).
Proof.
  intros HW Hb Hbits r.
  assert (Hfuel : exists f, Z.to_nat W = S (S f)).
  { exists (Z.to_nat W - 2)%nat. lia. }
  destruct Hfuel as (f & Ef).
  destruct (canonicalize_simple_fuel_two f bounds bits Hb Hbits)
    as (n & r' & E & Hn).
  assert (Er : r = r').
  { unfold r, canonicalize_constraints_simple. rewrite Ef, E. reflexivity. }
  rewrite Er. clear Er r.
  unfold canonicalize_constraints_simple_fuel in E.
  destruct (_is_result_consistent (adjust_bits_from_bounds W bits bounds))
    eqn:Hc; cbn [negb] in E.
  - apply (canonicalize_loop_bits _ _ bounds _ bits n r' Hb Hbits eq_refl
             (adjust_bits_consistent bits bounds Hc) E).
  - apply Some_pair_inj in E. subst r'. discriminate.
Qed.

(** Bounds and bits that are a fixed point are returned for every input
    bits from which the bounds give these bits. *)
Lemma simple_fixed_from (bounds : RangeInt) (bits0 bits : KnownBits) :
  2 <= W -> simple_fixed W bounds bits ->
  _result (adjust_bits_from_bounds W bits0 bounds) = bits ->
  canonicalize_constraints_simple W bounds bits0 = mkSimple true bounds bits.
Proof.
  intros HW (Hle & Hb & Hbits & Hok & Hslo & Hshi & Efix) E0.
  unfold canonicalize_constraints_simple, canonicalize_constraints_simple_fuel.
  assert (Hfuel : exists f, Z.to_nat W = S f).
  { exists (Z.to_nat W - 1)%nat. lia. }
  destruct Hfuel as (f & ->).
  assert (Hc : _is_result_consistent (adjust_bits_from_bounds W bits0 bounds)
               = true).
  { unfold adjust_bits_from_bounds in *. cbn [_is_result_consistent _result] in *.
    apply Z.eqb_eq.
    pose proof (f_equal _zeros E0) as Ez.
    pose proof (f_equal _ones E0) as Eo. cbn [_zeros _ones] in Ez, Eo.
    rewrite Ez, Eo. assumption. }
  rewrite Hc, E0. cbn [negb canonicalize_loop].
  rewrite (adjust_bounds_fixed bounds bits Hb Hslo Hshi).
  cbn [_progress _is_result_consistent _result negb orb].
  apply Z.leb_le in Hle. rewrite Hle. reflexivity.
Qed.

Lemma range_eta (r : RangeInt) : mkRange (_lo r) (_hi r) = r.
Proof. destruct r. reflexivity. Qed.

(** A fixed point within one half of the unsigned domain is canonicalized
    to itself. *)
Lemma canonicalize_fixed_same_sign (bounds : RangeInt) (bits : KnownBits) :
  2 <= W -> simple_fixed W bounds bits ->
  (_hi bounds < 2 ^ (W - 1) \/ 2 ^ (W - 1) <= _lo bounds) ->
  canonicalize_constraints W
    (mkProto (mkRange (to_S W (_lo bounds)) (to_S W (_hi bounds))) bounds bits)
  = mkCanon true
      (mkProto (mkRange (to_S W (_lo bounds)) (to_S W (_hi bounds)))
               bounds bits).
Proof.
  intros HW F Hhalf. pose proof F as (Hle & (Hlo & Hhi) & Hbits & Hok & _).
  pose proof pow2W_double as HD. pose proof pow2_half_pos as HP.
  assert (HS : to_S W (_lo bounds) <= to_S W (_hi bounds)).
  { unfold to_S, in_U in *.
    destruct (Z.ltb_spec (_lo bounds) (2 ^ (W - 1)));
      destruct (Z.ltb_spec (_hi bounds) (2 ^ (W - 1))); lia. }
  unfold canonicalize_constraints, trivially_empty, tighten_urange.
  cbn [_srange _urange _bits _lo _hi].
  rewrite Hok. cbn [Z.eqb negb].
  destruct (Z.gtb_spec (to_S W (_lo bounds)) (to_S W (_hi bounds))); [lia|].
  destruct (Z.gtb_spec (_lo bounds) (_hi bounds)); [lia|].
  cbn [orb].
  destruct (Z.leb_spec (to_S W (_lo bounds)) (to_S W (_hi bounds))); [|lia].
  rewrite Z.max_id, Z.min_id, !to_U_to_S by assumption.
  destruct (Z.gtb_spec (_lo bounds) (_hi bounds)); [lia|].
  rewrite range_eta, (simple_fixed_canonical bounds bits HW F).
  reflexivity.
Qed.

Lemma tighten_urange_unchanged (srange urange : RangeInt) :
  _lo srange <= to_S W (_hi urange) -> to_S W (_lo urange) <= _hi srange ->
  tighten_urange W srange urange = urange.
Proof.
  intros H1 H2. unfold tighten_urange.
  destruct (to_S W (_lo urange) >? to_S W (_hi urange)); [|reflexivity].
  destruct (Z.ltb_spec (to_S W (_hi urange)) (_lo srange)); [lia|].
  destruct (Z.gtb_spec (to_S W (_lo urange)) (_hi srange)); [lia|].
  reflexivity.
Qed.

(** The bitwise AND of two consistent bits is consistent. *)
Lemma land_bits_consistent (b1 b2 : KnownBits) :
  Z.land (_zeros b1) (_ones b1) = 0 ->
  Z.land (Z.land (_zeros b1) (_zeros b2)) (Z.land (_ones b1) (_ones b2)) = 0.
Proof.
  intros H. apply Z.bits_inj'. intros n Hn.
  apply (f_equal (fun x => Z.testbit x n)) in H.
  rewrite Z.land_spec, Z.bits_0 in H.
  rewrite !Z.land_spec, Z.bits_0.
  destruct (Z.testbit (_zeros b1) n), (Z.testbit (_ones b1) n),
    (Z.testbit (_zeros b2) n), (Z.testbit (_ones b2) n);
    simpl in *; try discriminate; reflexivity.
Qed.

(** Bits between the input bits and the bits of a result give the bits of
    the result again. *)
Lemma adjust_bits_between (bits0 mid bits : KnownBits) (bounds : RangeInt) :
  bits_subset bits0 mid -> bits_subset mid bits ->
  _result (adjust_bits_from_bounds W bits0 bounds) = bits ->
  _result (adjust_bits_from_bounds W mid bounds) = bits.
Proof.
  intros H1 H2 E. rewrite <- E in H2 |- *.
  unfold adjust_bits_from_bounds in *. cbn [_result _zeros _ones] in *.
  f_equal; apply Z.bits_inj'; intros n Hn;
    destruct (H1 n Hn) as [A1 A2]; destruct (H2 n Hn) as [B1 B2];
    cbn [_zeros _ones] in B1, B2;
    rewrite !Z.lor_spec in *.
  - destruct (Z.testbit (_zeros mid) n) eqn:Em,
      (Z.testbit (_zeros bits0) n) eqn:E0; simpl in *; auto.
    + symmetry. apply B1. reflexivity.
    + discriminate (A1 eq_refl).
  - destruct (Z.testbit (_ones mid) n) eqn:Em,
      (Z.testbit (_ones bits0) n) eqn:E0; simpl in *; auto.
    + symmetry. apply B2. reflexivity.
    + discriminate (A2 eq_refl).
Qed.

(** Two fixed points, one in each half and both derived from the same
    input bits, are recombined to a prototype that is canonicalized to
    itself. *)
Lemma canonicalize_fixed_straddle (bits0 : KnownBits)
    (nb pb : RangeInt) (nbits pbits : KnownBits) :
  2 <= W ->
  simple_fixed W nb nbits -> simple_fixed W pb pbits ->
  2 ^ (W - 1) <= _lo nb -> _hi pb < 2 ^ (W - 1) ->
  bits_subset bits0 nbits -> bits_subset bits0 pbits ->
  _result (adjust_bits_from_bounds W bits0 nb) = nbits ->
  _result (adjust_bits_from_bounds W bits0 pb) = pbits ->
  let meet := mkBits (Z.land (_zeros nbits) (_zeros pbits))
                     (Z.land (_ones nbits) (_ones pbits)) in
  let d := mkProto (mkRange (to_S W (_lo nb)) (to_S W (_hi pb)))
                   (mkRange (_lo pb) (_hi nb)) meet in
  canonicalize_constraints W d = mkCanon true d.
Proof.
  intros HW NF PF Hn Hp Nsub Psub En Ep meet d.
  pose proof NF as (Nle & (Nlo & Nhi) & Nbits & Nok & _).
  pose proof PF as (Ple & (Plo & Phi) & Pbits & Pok & _).
  pose proof pow2W_double as HD. pose proof pow2_half_pos as HP.
  assert (Eneg : canonicalize_constraints_simple W nb meet
                 = mkSimple true nb nbits).
  { apply simple_fixed_from; try assumption.
    apply (adjust_bits_between bits0); try assumption.
    - apply land_bits_subset_glb; assumption.
    - apply land_bits_subset_l. }
  assert (Epos : canonicalize_constraints_simple W pb meet
                 = mkSimple true pb pbits).
  { apply simple_fixed_from; try assumption.
    apply (adjust_bits_between bits0); try assumption.
    - apply land_bits_subset_glb; assumption.
    - apply land_bits_subset_r. }
  assert (S1 : to_S W (_lo nb) = _lo nb - 2 ^ W /\
               to_S W (_hi nb) = _hi nb - 2 ^ W /\
               to_S W (_lo pb) = _lo pb /\ to_S W (_hi pb) = _hi pb).
  { unfold to_S, in_U in *.
    destruct (Z.ltb_spec (_lo nb) (2 ^ (W - 1)));
      destruct (Z.ltb_spec (_hi nb) (2 ^ (W - 1)));
      destruct (Z.ltb_spec (_lo pb) (2 ^ (W - 1)));
      destruct (Z.ltb_spec (_hi pb) (2 ^ (W - 1))); lia. }
  destruct S1 as (S1 & S2 & S3 & S4).
  assert (Hd_in : proto_in_range W d).
  { unfold proto_in_range, d. cbn [_srange _urange _bits _lo _hi].
    split; [apply to_S_bounds; assumption|].
    split; [apply to_S_bounds; assumption|].
    split; [split; assumption|].
    split; cbn [_zeros _ones]; (apply land_in_U; [apply Nbits|apply Pbits]). }
  assert (Hd_triv : trivially_empty d = false).
  { unfold trivially_empty, d. cbn [_srange _urange _bits _lo _hi].
    unfold meet. cbn [_zeros _ones].
    rewrite (land_bits_consistent nbits pbits Nok). cbn [Z.eqb negb].
    unfold in_U in *.
    destruct (Z.gtb_spec (to_S W (_lo nb)) (to_S W (_hi pb))); [lia|].
    destruct (Z.gtb_spec (_lo pb) (_hi nb)); [lia|]. reflexivity. }
  assert (Hd_tight : tighten_urange W (_srange d) (_urange d) = _urange d).
  { apply tighten_urange_unchanged; unfold d;
      cbn [_srange _urange _lo _hi]; unfold in_U in *; lia. }
  assert (Hd_str : to_S W (_lo (tighten_urange W (_srange d) (_urange d)))
                   > to_S W (_hi (tighten_urange W (_srange d) (_urange d)))).
  { rewrite Hd_tight. unfold d. cbn [_urange _lo _hi]. unfold in_U in *. lia. }
  rewrite (canonicalize_straddle_eq d Hd_in Hd_triv Hd_str).
  unfold d. cbn [_srange _urange _bits _lo _hi].
  rewrite !to_U_to_S by assumption.
  rewrite !range_eta. fold meet. rewrite Eneg, Epos.
  reflexivity.
Qed.

(** Outside the situation described by [signed_crossing_missed], a present
    result of [canonicalize_constraints] is canonicalized to itself. *)
Lemma canonicalize_constraints_idempotent (p : TypeIntPrototype) :
  2 <= W -> proto_in_range W p -> signed_crossing_missed W p = false ->
  _present (canonicalize_constraints W p) = true ->
  canonicalize_constraints W (_data (canonicalize_constraints W p)) =
  canonicalize_constraints W p.
Proof.
  intros HW Hp Hmiss Hpres.
  destruct (trivially_empty p) eqn:Htriv.
  { unfold canonicalize_constraints in Hpres. rewrite Htriv in Hpres.
    discriminate. }
  pose proof Hp as (Hslo & Hshi & (Hlo & Hhi) & Hbits).
  pose proof pow2W_double as HD. pose proof pow2_half_pos as HP.
  destruct (Z_le_gt_dec
              (to_S W (_lo (tighten_urange W (_srange p) (_urange p))))
              (to_S W (_hi (tighten_urange W (_srange p) (_urange p)))))
    as [Hsame|Hstr].
  - destruct (not_trivial_facts p Htriv) as (Hsle & Hule & Hok).
    destruct (tighten_urange_sound (_srange p) (_urange p)
                (conj Hlo Hhi) Hule) as ((Tlo & Thi) & Tle & _).
    unfold signed_crossing_missed in Hmiss.
    unfold canonicalize_constraints in Hpres |- *. rewrite Htriv in *.
    cbn [negb andb] in Hmiss. cbn zeta in Hmiss, Hpres |- *.
    destruct (Z.leb_spec
                (to_S W (_lo (tighten_urange W (_srange p) (_urange p))))
                (to_S W (_hi (tighten_urange W (_srange p) (_urange p)))));
      [|lia].
    cbn [andb _lo _hi] in Hmiss, Hpres |- *.
    set (ur := tighten_urange W (_srange p) (_urange p)) in *.
    set (a := Z.max (to_S W (_lo ur)) (_lo (_srange p))) in *.
    set (b := Z.min (to_S W (_hi ur)) (_hi (_srange p))) in *.
    destruct (to_U W a >? to_U W b) eqn:Hcmp; [discriminate|].
    cbn [negb] in Hmiss. rewrite andb_true_r in Hmiss.
    pose proof (to_S_bounds _ Tlo) as Bl.
    pose proof (to_S_bounds _ Thi) as Bh.
    assert (Ha : in_S W a) by (unfold a, in_S in *; lia).
    assert (Hb : in_S W b) by (unfold b, in_S in *; lia).
    assert (Hab : a <= b).
    { destruct (Z.gtb_spec a b); [discriminate|assumption]. }
    assert (Hhalf : 0 <= a \/ b < 0).
    { unfold a, b, to_S in *. unfold in_U, in_S in *.
      destruct (Z.ltb_spec (_lo ur) (2 ^ (W - 1)));
        destruct (Z.ltb_spec (_hi ur) (2 ^ (W - 1))); lia. }
    destruct (canonicalize_simple_sound
                (mkRange (to_U W a) (to_U W b)) (_bits p) HW
                (conj (to_U_in_U a) (to_U_in_U b)) Hbits) as [_ Hfix].
    set (type := canonicalize_constraints_simple W
                   (mkRange (to_U W a) (to_U W b)) (_bits p)) in *.
    unfold canon_of_simple in Hpres at 1. cbn [_present] in Hpres.
    destruct (Hfix Hpres) as (F & L1 & L2 & _).
    pose proof F as (Fle & (Flo & Fhi) & _).
    unfold canon_of_simple. rewrite Hpres. cbn [_data].
    apply canonicalize_fixed_same_sign; try assumption.
    cbn [_lo _hi] in L1, L2.
    rewrite (to_U_spec a Ha) in L1. rewrite (to_U_spec b Hb) in L2.
    unfold in_S, in_U in *.
    destruct Hhalf; destruct (Z.ltb_spec a 0); destruct (Z.ltb_spec b 0); lia.
  - destruct (straddle_bounds p Hp Htriv Hstr) as (_ & B1 & B2 & B3 & B4).
    rewrite (canonicalize_straddle_eq p Hp Htriv Hstr) in Hpres |- *.
    destruct (canonicalize_simple_sound
                (mkRange (to_U W (_lo (_srange p))) (_hi (_urange p)))
                (_bits p) HW (conj (to_U_in_U _) Hhi) Hbits) as [_ Nfix].
    destruct (canonicalize_simple_sound
                (mkRange (_lo (_urange p)) (to_U W (_hi (_srange p))))
                (_bits p) HW (conj Hlo (to_U_in_U _)) Hbits) as [_ Pfix].
    pose proof (canonicalize_simple_bits
                  (mkRange (to_U W (_lo (_srange p))) (_hi (_urange p)))
                  (_bits p) HW (conj (to_U_in_U _) Hhi) Hbits) as Nbits.
    pose proof (canonicalize_simple_bits
                  (mkRange (_lo (_urange p)) (to_U W (_hi (_srange p))))
                  (_bits p) HW (conj Hlo (to_U_in_U _)) Hbits) as Pbits.
    cbn [_lo _hi] in Nfix, Pfix. cbn zeta in Nbits, Pbits.
    set (neg_type := canonicalize_constraints_simple W
           (mkRange (to_U W (_lo (_srange p))) (_hi (_urange p))) (_bits p))
      in *.
    set (pos_type := canonicalize_constraints_simple W
           (mkRange (_lo (_urange p)) (to_U W (_hi (_srange p)))) (_bits p))
      in *.
    destruct (sc_present neg_type) eqn:Hn;
      destruct (sc_present pos_type) eqn:Hpp;
      cbn [negb andb] in Hpres |- *; try discriminate.
    + destruct (Nfix eq_refl) as (NF & N1 & N2 & Nsub).
      destruct (Pfix eq_refl) as (PF & P1 & P2 & Psub).
      pose proof NF as (Nle & (Nlo & Nhi) & _).
      pose proof PF as (Ple & (Plo & Phi) & _).
      cbn [_data].
      apply (canonicalize_fixed_straddle (_bits p)); try assumption;
        try lia.
      * symmetry. apply Nbits. reflexivity.
      * symmetry. apply Pbits. reflexivity.
    + destruct (Nfix eq_refl) as (NF & N1 & N2 & Nsub).
      unfold canon_of_simple. cbn [_data].
      apply canonicalize_fixed_same_sign; try assumption. right. lia.
    + destruct (Pfix eq_refl) as (PF & P1 & P2 & Psub).
      unfold canon_of_simple. cbn [_data].
      apply canonicalize_fixed_same_sign; try assumption. left. lia.
Qed.

(** ** int_type_widen *)

Section WidenFacts.

Variables WidenMin WidenMax : Z.
Variables (new_type : TypeInt.t) (limit_type : option TypeInt.t).
Hypothesis new_in : type_in_range W new_type.

Let widen := fun old => int_type_widen W WidenMin WidenMax new_type old limit_type.

Lemma TypeIntPrototype_eqb_refl (p : TypeIntPrototype) :
  TypeIntPrototype_eqb p p = true.
Proof.
  unfold TypeIntPrototype_eqb, RangeInt_eqb, KnownBits_eqb.
  rewrite !Z.eqb_refl. reflexivity.
Qed.

Lemma widen_same : widen (Some new_type) = Some new_type.
Proof.
  unfold widen, int_type_widen, int_type_is_equal.
  rewrite TypeIntPrototype_eqb_refl. reflexivity.
Qed.

(** The universal domain contains every type, so it is kept. *)
Lemma widen_domain :
  widen (Some (TYPE_DOMAIN W WidenMax)) = Some (TYPE_DOMAIN W WidenMax).
Proof using W_pos new_in.
  unfold widen, int_type_widen.
  destruct (int_type_is_equal new_type (TYPE_DOMAIN W WidenMax));
    [reflexivity|].
  assert (E : int_type_is_subset W (TYPE_DOMAIN W WidenMax) new_type = true).
  { destruct new_in as (Hlo & Hhi & Hulo & Huhi & _).
    unfold int_type_is_subset, TYPE_DOMAIN, in_S, in_U, smin, smax, umin, umax
      in *. simpl.
    rewrite !andb_true_iff, !Z.leb_le, !Z.geb_le. repeat split; try lia;
      reflexivity. }
  rewrite E. reflexivity.
Qed.

(** The two types that the function builds with [try_make]; neither
    depends on the old type. *)
Let precise : option TypeInt.t :=
  try_make W WidenMin WidenMax (prototype_of new_type)
           (TypeInt._widen new_type + 1).

Let coarse : option TypeInt.t :=
  try_make W WidenMin WidenMax
    match limit_type with
    | Some limit =>
      mkProto (mkRange (TypeInt._lo limit) (TypeInt._hi limit))
              (mkRange (TypeInt._ulo limit) (TypeInt._uhi limit))
              (mkBits (Z.lor (_zeros (TypeInt._bits new_type))
                             (_zeros (TypeInt._bits limit)))
                      (Z.lor (_ones (TypeInt._bits new_type))
                             (_ones (TypeInt._bits limit))))
    | None =>
      mkProto (mkRange (smin W) (smax W)) (mkRange umin (umax W))
              (mkBits (_zeros (TypeInt._bits new_type))
                      (_ones (TypeInt._bits new_type)))
    end WidenMax.

(** The values that one call can return. *)
Lemma widen_cases (old : option TypeInt.t) :
  widen old = old \/ widen old = Some (TYPE_DOMAIN W WidenMax) \/
  widen old = Some new_type \/
  ((TypeInt._widen new_type <? WidenMax) = true /\ widen old = precise) \/
  ((TypeInt._widen new_type <? WidenMax) = false /\ widen old = coarse).
Proof.
  unfold widen, int_type_widen. destruct old as [old|]; [|auto].
  destruct (int_type_is_equal new_type old); [auto|].
  destruct (int_type_is_subset W old new_type); [auto|].
  destruct (negb (int_type_is_subset W new_type old)); [auto|].
  destruct (singleton old); [auto|].
  destruct (TypeInt._widen new_type >? TypeInt._widen old); [auto|].
  destruct (TypeInt._widen new_type <? WidenMax) eqn:E.
  - right. right. right. left. split; reflexivity.
  - right. right. right. right. split; reflexivity.
Qed.

(** Whatever the first call returns, the second call returns a type that
    every later call returns again. *)
Lemma widen_twice_fixed (old : option TypeInt.t) :
  widen (widen (widen old)) = widen (widen old).
Proof using W_pos new_in.
  assert (Hfix : forall y, widen y = y -> widen (widen y) = widen y)
    by (intros y E; rewrite !E; reflexivity).
  assert (Hdom : widen (widen (Some (TYPE_DOMAIN W WidenMax)))
                 = widen (Some (TYPE_DOMAIN W WidenMax)))
    by (apply Hfix, widen_domain).
  assert (Hnew : widen (widen (Some new_type)) = widen (Some new_type))
    by (apply Hfix, widen_same).
  assert (Hstep : forall y, widen y = y \/
            widen y = Some (TYPE_DOMAIN W WidenMax) \/
            widen y = Some new_type ->
            widen (widen y) = widen y).
  { intros y [E|[E|E]]; rewrite E.
    - assumption.
    - apply widen_domain.
    - apply widen_same. }
  destruct (widen_cases old) as [E|[E|[E|[[Hw E]|[Hw E]]]]].
  - rewrite !E. reflexivity.
  - rewrite E. exact Hdom.
  - rewrite E. exact Hnew.
  - rewrite E.
    destruct (widen_cases precise) as [E'|[E'|[E'|[[Hw' E']|[Hw' E']]]]];
      try congruence; apply Hstep; auto.
  - rewrite E.
    destruct (widen_cases coarse) as [E'|[E'|[E'|[[Hw' E']|[Hw' E']]]]];
      try congruence; apply Hstep; auto.
Qed.

Lemma widen_run_repeat_S (n : nat) (old : option TypeInt.t) :
  widen_run W WidenMin WidenMax (repeat new_type (S n)) old limit_type =
  widen (widen_run W WidenMin WidenMax (repeat new_type n) old limit_type).
Proof.
  revert old. induction n as [|n IH]; intros old.
  - reflexivity.
  - change (repeat new_type (S (S n))) with (new_type :: repeat new_type (S n)).
    cbn [widen_run]. rewrite IH. reflexivity.
Qed.

Lemma widen_run_constant (n : nat) (old : option TypeInt.t) :
  (2 <= n)%nat ->
  widen_run W WidenMin WidenMax (repeat new_type n) old limit_type =
  widen_run W WidenMin WidenMax (repeat new_type 2) old limit_type.
Proof using W_pos new_in.
  intros Hn. induction n as [|n IH]; [lia|].
  destruct (Nat.eq_dec n 1) as [->|Hne]; [reflexivity|].
  rewrite widen_run_repeat_S, IH by lia.
  change (repeat new_type 2) with (new_type :: new_type :: []).
  cbn [widen_run]. apply widen_twice_fixed.
Qed.

End WidenFacts.

(** C7, as the code has it.  Widening a feasible old type again and again
    against one and the same new type (and limit type), each result being
    the old type of the next call, stops changing within
    [Type::WidenMax + 2] calls: the second call already returns the type
    that every later call returns. *)
Theorem widen_constant_stabilizes (WidenMin WidenMax : Z)
    (new_type old_type : TypeInt.t) (limit_type : option TypeInt.t) (n : nat) :
  0 <= WidenMax -> type_in_range W new_type ->
  WidenMax + 2 <= Z.of_nat n ->
  widen_run W WidenMin WidenMax (repeat new_type n)
            (Some old_type) limit_type =
  widen_run W WidenMin WidenMax (repeat new_type (Z.to_nat (WidenMax + 2)))
            (Some old_type) limit_type /\
  widen_run W WidenMin WidenMax (repeat new_type n)
            (Some old_type) limit_type =
  widen_run W WidenMin WidenMax (repeat new_type 2)
            (Some old_type) limit_type.
Proof.
  intros Hmax Hnew Hn.
  rewrite (widen_run_constant WidenMin WidenMax new_type limit_type Hnew n)
    by lia.
  rewrite (widen_run_constant WidenMin WidenMax new_type limit_type Hnew
             (Z.to_nat (WidenMax + 2))) by lia.
  split; reflexivity.
Qed.

End Correctness.

(** * Further properties of the code *)

Section Coverage.

Variable W : Z.
Hypothesis W_pos : 0 < W.

(** ** adjust_lo, beyond its least-value property *)

Lemma ones_satisfy (bits : KnownBits) :
  bits_in_U W bits -> Z.land (_zeros bits) (_ones bits) = 0 ->
  is_satisfied_by W bits (_ones bits) = true.
Proof.
  intros (Hz & Ho) Hok. unfold is_satisfied_by.
  rewrite Z.land_comm, Hok. simpl.
  apply Z.eqb_eq. apply Z.bits_inj'. intros j Hj.
  rewrite Z.land_spec, Z.bits_0.
  destruct (Z_lt_ge_dec j W).
  - rewrite (testbit_unot W W_pos) by lia.
    destruct (j <? W); destruct (Z.testbit (_ones bits) j); reflexivity.
  - rewrite (testbit_in_U_high W (_ones bits)) by (assumption || lia).
    apply andb_false_r.
Qed.

(** X1.  Unless [lo] and [bits._zeros] both have the most significant bit
    set, whatever [adjust_lo] returns satisfies the bits, also when it
    wraps below [lo] because no value from [lo] on satisfies them (the
    result is [bits._ones] then); so a second call on the result returns
    it unchanged.  Where both have that bit set and the result is above
    [lo], the result does not satisfy the bits. *)
Theorem adjust_lo_result_satisfies (lo : Z) (bits : KnownBits) :
  in_U W lo -> bits_in_U W bits -> Z.land (_zeros bits) (_ones bits) = 0 ->
  (msb_violation W lo bits = false ->
     is_satisfied_by W bits (adjust_lo W lo bits) = true /\
     adjust_lo W (adjust_lo W lo bits) bits = adjust_lo W lo bits) /\
  (msb_violation W lo bits = true -> lo < adjust_lo W lo bits ->
     is_satisfied_by W bits (adjust_lo W lo bits) = false).
Proof.
  intros Hlo Hbits Hok. split.
  - intros Hmsb.
    assert (Hs : is_satisfied_by W bits (adjust_lo W lo bits) = true).
    { destruct (Z_le_gt_dec lo (adjust_lo W lo bits)) as [Hle|Hgt].
      - apply (adjust_lo_ge_satisfies W W_pos); assumption.
      - destruct (adjust_lo_outcome W W_pos lo bits Hlo Hbits Hok)
          as [(_ & E)|[(_ & i & Hi & Hp & _ & E)|[(_ & _ & E & _)
             |(_ & _ & Hm & _)]]].
        + lia.
        + pose proof (candidate_gt W W_pos lo bits i Hlo Hbits Hi Hp). lia.
        + rewrite E. apply ones_satisfy; assumption.
        + congruence. }
    split; [assumption|]. apply adjust_lo_satisfied. assumption.
  - intros Hmsb Hgt.
    apply (msb_violation_infeasible W W_pos lo); try assumption; [|lia].
    apply (adjust_lo_in_U W W_pos); assumption.
Qed.

(** X2.  [adjust_lo] is monotone in [lo]: when a value from [lo2] on
    satisfies the bits, a smaller [lo1] is not moved beyond the result for
    [lo2]. *)
Theorem adjust_lo_monotone (lo1 lo2 : Z) (bits : KnownBits) :
  in_U W lo1 -> in_U W lo2 -> bits_in_U W bits ->
  Z.land (_zeros bits) (_ones bits) = 0 ->
  lo1 <= lo2 -> (exists v, satisfies_from W lo2 bits v) ->
  lo1 <= adjust_lo W lo1 bits <= adjust_lo W lo2 bits.
Proof.
  intros H1 H2 Hbits Hok Hle (v & Hv).
  pose proof Hv as (Hvin & Hvle & Hvs).
  destruct (adjust_lo_below W W_pos lo2 v bits H2 Hbits Hok Hv) as [Hge _].
  assert (Hmsb : msb_violation W lo2 bits = false).
  { destruct (msb_violation W lo2 bits) eqn:Hm; [|reflexivity].
    rewrite (msb_violation_infeasible W W_pos lo2 v bits H2 Hvin Hm Hvle)
      in Hvs.
    discriminate. }
  apply (adjust_lo_below W W_pos); try assumption.
  split; [apply (adjust_lo_in_U W W_pos); assumption|].
  split; [lia|].
  apply (adjust_lo_ge_satisfies W W_pos); assumption.
Qed.

(** ** adjust_bounds_from_bits *)

(** X3.  [adjust_bounds_from_bits] loses no value: a value of type [U]
    that satisfies the bits lies within the old bounds exactly when the
    result is consistent and the value lies within the new bounds. *)
Theorem adjust_bounds_keeps_members (bounds : RangeInt) (bits : KnownBits)
    (u : Z) :
  range_in_U W bounds -> bits_in_U W bits ->
  Z.land (_zeros bits) (_ones bits) = 0 ->
  in_U W u -> is_satisfied_by W bits u = true ->
  let r := adjust_bounds_from_bits W bounds bits in
  _lo bounds <= u <= _hi bounds <->
  _is_result_consistent r = true /\ _lo (_result r) <= u <= _hi (_result r).
Proof.
  intros Hb Hbits Hok Hu Hs r.
  exact (adjust_bounds_sound W W_pos bounds bits u Hb Hbits Hok Hu Hs).
Qed.

(** X4.  A consistent result of [adjust_bounds_from_bits] is final for
    these bits: the function applied to the new bounds returns them
    again, consistent and without progress. *)
Theorem adjust_bounds_second_pass (bounds : RangeInt) (bits : KnownBits) :
  range_in_U W bounds -> bits_in_U W bits ->
  Z.land (_zeros bits) (_ones bits) = 0 ->
  let r := adjust_bounds_from_bits W bounds bits in
  _is_result_consistent r = true ->
  adjust_bounds_from_bits W (_result r) bits = mkAdjust false true (_result r).
Proof.
  intros Hb Hbits Hok r Hc.
  destruct (adjust_bounds_consistent W W_pos bounds bits Hc)
    as (E & H1 & H2 & H3).
  fold r in E. rewrite E. cbn [_result].
  rewrite (adjust_bounds_fixed W W_pos).
  - cbn [_lo _hi]. f_equal. apply Z.leb_le. assumption.
  - split; cbn [_lo _hi].
    + apply (new_lo_in_U W W_pos); assumption.
    + apply (new_hi_in_U W W_pos).
  - cbn [_lo]. apply (new_lo_satisfies W W_pos); assumption.
  - cbn [_hi]. apply (new_hi_satisfies W W_pos); assumption.
Qed.

(** ** adjust_bits_from_bounds *)

(** X5.  [adjust_bits_from_bounds] loses no value: a value of type [U]
    within the bounds satisfies the new bits exactly when it satisfies the
    old ones, and when the result is reported inconsistent no value
    within the bounds satisfies the old bits. *)
Theorem adjust_bits_keeps_members (bits : KnownBits) (bounds : RangeInt)
    (u : Z) :
  range_in_U W bounds -> bits_in_U W bits ->
  in_U W u -> _lo bounds <= u <= _hi bounds ->
  let r := adjust_bits_from_bounds W bits bounds in
  is_satisfied_by W (_result r) u = is_satisfied_by W bits u /\
  (_is_result_consistent r = false -> is_satisfied_by W bits u = false).
Proof.
  intros Hb Hbits Hu Hin r. split.
  - apply (adjust_bits_sound W W_pos); assumption.
  - apply (adjust_bits_inconsistent W W_pos); assumption.
Qed.

(** X6.  The bits that [adjust_bits_from_bounds] returns are final for
    these bounds: the function applied to them makes no progress and
    returns them again, and every bit that was known before is still
    known, with the same value. *)
Theorem adjust_bits_second_pass (bits : KnownBits) (bounds : RangeInt) :
  let r := adjust_bits_from_bounds W bits bounds in
  adjust_bits_from_bounds W (_result r) bounds
    = mkAdjust false (_is_result_consistent r) (_result r) /\
  bits_subset bits (_result r).
Proof.
  intros r. split; [|apply adjust_bits_grows].
  pose proof (adjust_bits_idempotent W bits bounds) as E. fold r in E.
  unfold adjust_bits_from_bounds in E |- *. cbn [_result] in E.
  injection E as Ez Eo.
  set (m := if Z.lxor (_lo bounds) (_hi bounds) =? 0 then umax W
            else unot W (ushr (umax W)
                           (count_leading_zeros W
                              (Z.lxor (_lo bounds) (_hi bounds))))) in *.
  subst r. unfold adjust_bits_from_bounds. fold m.
  cbn [_result _is_result_consistent _zeros _ones] in *.
  rewrite Ez, Eo, !Z.eqb_refl. reflexivity.
Qed.

(** ** canonicalize_constraints_simple *)

Lemma simple_eta (r : SimpleCanonicalResult) :
  sc_present r = true -> mkSimple true (sc_bounds r) (sc_bits r) = r.
Proof. destruct r as [pr b bi]. simpl. intros ->. reflexivity. Qed.

(** X7.  [canonicalize_constraints_simple] loses no value and adds none: a
    value of type [U] lies within the given bounds and satisfies the given
    bits exactly when the result is present and the value lies within its
    bounds and satisfies its bits. *)
Theorem canonicalize_simple_keeps_members (bounds : RangeInt)
    (bits : KnownBits) (u : Z) :
  2 <= W -> range_in_U W bounds -> bits_in_U W bits -> in_U W u ->
  let r := canonicalize_constraints_simple W bounds bits in
  in_simple W bounds bits u <->
  sc_present r = true /\ in_simple W (sc_bounds r) (sc_bits r) u.
Proof.
  intros HW Hb Hbits Hu r.
  destruct (canonicalize_simple_sound W W_pos bounds bits HW Hb Hbits)
    as [Hs _].
  apply Hs. assumption.
Qed.

(** X8.  A present result of [canonicalize_constraints_simple] is
    canonical: its bounds are ordered, lie within the given ones and
    satisfy its bits, its bits keep every bit that was given, and the
    function applied to the result returns it unchanged. *)
Theorem canonicalize_simple_canonical (bounds : RangeInt) (bits : KnownBits) :
  2 <= W -> range_in_U W bounds -> bits_in_U W bits ->
  let r := canonicalize_constraints_simple W bounds bits in
  sc_present r = true ->
  (_lo bounds <= _lo (sc_bounds r) /\
   _lo (sc_bounds r) <= _hi (sc_bounds r) /\
   _hi (sc_bounds r) <= _hi bounds) /\
  is_satisfied_by W (sc_bits r) (_lo (sc_bounds r)) = true /\
  is_satisfied_by W (sc_bits r) (_hi (sc_bounds r)) = true /\
  bits_subset bits (sc_bits r) /\
  canonicalize_constraints_simple W (sc_bounds r) (sc_bits r) = r.
Proof.
  intros HW Hb Hbits r Hp.
  destruct (canonicalize_simple_sound W W_pos bounds bits HW Hb Hbits)
    as [_ Hfix].
  destruct (Hfix Hp) as (F & L1 & L2 & Sub).
  pose proof F as (Fle & _ & _ & _ & Slo & Shi & _).
  fold r in F, L1, L2, Sub, Fle, Slo, Shi.
  split; [lia|].
  split; [assumption|]. split; [assumption|]. split; [assumption|].
  rewrite (simple_fixed_canonical W W_pos _ _ HW F).
  apply simple_eta. assumption.
Qed.

(** X9.  [canonicalize_constraints_simple] reports an empty result exactly
    when no value of type [U] lies within the bounds and satisfies the
    bits. *)
Theorem canonicalize_simple_empty_iff (bounds : RangeInt) (bits : KnownBits) :
  2 <= W -> range_in_U W bounds -> bits_in_U W bits ->
  sc_present (canonicalize_constraints_simple W bounds bits) = false <->
  (forall u, in_U W u -> ~ in_simple W bounds bits u).
Proof.
  intros HW Hb Hbits.
  destruct (canonicalize_simple_sound W W_pos bounds bits HW Hb Hbits)
    as [Hs Hfix].
  split.
  - intros He u Hu Hin. apply (Hs u Hu) in Hin. destruct Hin as [Hp _].
    rewrite He in Hp. discriminate.
  - intros Hnone.
    destruct (sc_present (canonicalize_constraints_simple W bounds bits))
      eqn:Hp; [|reflexivity].
    exfalso.
    destruct (Hfix eq_refl) as (F & _).
    pose proof F as (Fle & (Flo & _) & _ & _ & Slo & _).
    apply (Hnone _ Flo). apply (Hs _ Flo).
    split; [reflexivity|]. split; [lia|assumption].
Qed.

(** ** canonicalize_constraints *)

(** X10.  Outside the situation described by [signed_crossing_missed],
    [canonicalize_constraints] loses no value and adds none: a value of
    type [S] is contained in the given prototype exactly when the result
    is present and contains it. *)
Theorem canonicalize_keeps_members (p : TypeIntPrototype) (v : Z) :
  2 <= W -> proto_in_range W p -> in_S W v ->
  signed_crossing_missed W p = false ->
  contains W p v =
  _present (canonicalize_constraints W p) &&
  contains W (_data (canonicalize_constraints W p)) v.
Proof.
  intros HW Hp Hv Hm.
  apply (canonicalize_constraints_sound W W_pos); assumption.
Qed.

(** X11.  Outside the situation described by [signed_crossing_missed],
    [canonicalize_constraints] reports a present result exactly when some
    value of type [S] is contained in the given prototype. *)
Theorem canonicalize_present_iff (p : TypeIntPrototype) :
  2 <= W -> proto_in_range W p -> signed_crossing_missed W p = false ->
  _present (canonicalize_constraints W p) = true <->
  exists v, in_S W v /\ contains W p v = true.
Proof.
  intros HW Hp Hm. split.
  - apply (canonicalize_constraints_nonempty W W_pos); assumption.
  - intros (v & Hv & Hc).
    rewrite (canonicalize_constraints_sound W W_pos p v HW Hp Hv Hm) in Hc.
    apply andb_true_iff in Hc. apply Hc.
Qed.

(** X12.  Outside the situation described by [signed_crossing_missed], a
    present result of [canonicalize_constraints] is canonical: the
    function applied to it returns it unchanged. *)
Theorem canonicalize_result_fixed (p : TypeIntPrototype) :
  2 <= W -> proto_in_range W p -> signed_crossing_missed W p = false ->
  let c := canonicalize_constraints W p in
  _present c = true ->
  canonicalize_constraints W (_data c) = c.
Proof.
  intros HW Hp Hm c Hc.
  apply (canonicalize_constraints_idempotent W W_pos); assumption.
Qed.

(** X13.  The first adjustment that [canonicalize_constraints] makes to
    its local [urange], when the unsigned bounds have different signs and
    the signed range misses one half, loses no value and adds none. *)
Theorem first_adjustment_keeps_members (p : TypeIntPrototype) (v : Z) :
  proto_in_range W p -> trivially_empty p = false -> in_S W v ->
  contains W (mkProto (_srange p)
                      (tighten_urange W (_srange p) (_urange p)) (_bits p)) v
  = contains W p v.
Proof.
  intros Hp Ht Hv. apply eq_true_iff_eq.
  rewrite (contains_tightened W W_pos p Hp Ht v Hv).
  rewrite contains_iff. unfold in_simple. cbn [_srange _urange _bits].
  tauto.
Qed.

(** ** verify_constraints *)

(** The first adjustment moves the bounds of [urange] inwards only. *)
Lemma tighten_urange_within (srange urange : RangeInt) :
  range_in_U W urange -> _lo urange <= _hi urange ->
  _lo urange <= _lo (tighten_urange W srange urange) /\
  _hi (tighten_urange W srange urange) <= _hi urange.
Proof.
  intros (Hlo & Hhi) Hle.
  pose proof (pow2W_double W W_pos) as HD.
  pose proof (pow2_half_pos W W_pos) as HP.
  assert (Emax : to_U W (smax W) = 2 ^ (W - 1) - 1).
  { unfold to_U, smax. apply wrap_small. unfold in_U. lia. }
  assert (Emin : to_U W (smin W) = 2 ^ (W - 1)).
  { rewrite (to_U_spec W W_pos) by (unfold smin, in_S; lia).
    unfold smin. destruct (Z.ltb_spec (- 2 ^ (W - 1)) 0); lia. }
  unfold tighten_urange, to_S. unfold in_U in *.
  destruct (Z.ltb_spec (_lo urange) (2 ^ (W - 1)));
    destruct (Z.ltb_spec (_hi urange) (2 ^ (W - 1)));
    repeat match goal with
           | |- context [if ?c then _ else _] => destruct c eqn:?
           end;
    cbn [_lo _hi]; rewrite ?Emax, ?Emin; try lia;
    match goal with
    | H : (_ >? _) = true |- _ => apply Z.gtb_lt in H; lia
    end.
Qed.

(** The two forms of a present result of [canonicalize_constraints]: built
    from one [SimpleCanonicalResult] that lies in one sign half, or from a
    negative and a non-negative one. *)
Lemma canonical_shape (p : TypeIntPrototype) :
  2 <= W -> proto_in_range W p -> signed_crossing_missed W p = false ->
  _present (canonicalize_constraints W p) = true ->
  (exists bounds bits,
     simple_fixed W bounds bits /\
     (_hi bounds < 2 ^ (W - 1) \/ 2 ^ (W - 1) <= _lo bounds) /\
     (_lo (_srange p) <= to_S W (_lo bounds) /\
      to_S W (_hi bounds) <= _hi (_srange p) /\
      _lo (_urange p) <= _lo bounds /\ _hi bounds <= _hi (_urange p)) /\
     bits_subset (_bits p) bits /\
     _data (canonicalize_constraints W p) =
       mkProto (mkRange (to_S W (_lo bounds)) (to_S W (_hi bounds)))
               bounds bits) \/
  (exists nb pb nbits pbits,
     simple_fixed W nb nbits /\ simple_fixed W pb pbits /\
     2 ^ (W - 1) <= _lo nb /\ _hi pb < 2 ^ (W - 1) /\
     (_lo (_srange p) <= to_S W (_lo nb) /\
      to_S W (_hi pb) <= _hi (_srange p) /\
      _lo (_urange p) <= _lo pb /\ _hi nb <= _hi (_urange p)) /\
     bits_subset (_bits p) nbits /\ bits_subset (_bits p) pbits /\
     _result (adjust_bits_from_bounds W (_bits p) nb) = nbits /\
     _result (adjust_bits_from_bounds W (_bits p) pb) = pbits /\
     _data (canonicalize_constraints W p) =
       mkProto (mkRange (to_S W (_lo nb)) (to_S W (_hi pb)))
               (mkRange (_lo pb) (_hi nb))
               (mkBits (Z.land (_zeros nbits) (_zeros pbits))
                       (Z.land (_ones nbits) (_ones pbits)))).
Proof.
  intros HW Hp Hmiss Hpres.
  destruct (trivially_empty p) eqn:Htriv.
  { unfold canonicalize_constraints in Hpres. rewrite Htriv in Hpres.
    discriminate. }
  pose proof Hp as (Hslo & Hshi & (Hlo & Hhi) & Hbits).
  pose proof (pow2W_double W W_pos) as HD.
  pose proof (pow2_half_pos W W_pos) as HP.
  destruct (Z_le_gt_dec
              (to_S W (_lo (tighten_urange W (_srange p) (_urange p))))
              (to_S W (_hi (tighten_urange W (_srange p) (_urange p)))))
    as [Hsame|Hstr].
  - left.
    destruct (not_trivial_facts p Htriv) as (Hsle & Hule & Hok).
    destruct (tighten_urange_sound W W_pos (_srange p) (_urange p)
                (conj Hlo Hhi) Hule) as ((Tlo & Thi) & Tle & _).
    unfold signed_crossing_missed in Hmiss.
    unfold canonicalize_constraints in Hpres |- *. rewrite Htriv in *.
    cbn [negb andb] in Hmiss. cbn zeta in Hmiss, Hpres |- *.
    destruct (Z.leb_spec
                (to_S W (_lo (tighten_urange W (_srange p) (_urange p))))
                (to_S W (_hi (tighten_urange W (_srange p) (_urange p)))));
      [|lia].
    cbn [andb _lo _hi] in Hmiss, Hpres |- *.
    set (ur := tighten_urange W (_srange p) (_urange p)) in *.
    set (a := Z.max (to_S W (_lo ur)) (_lo (_srange p))) in *.
    set (b := Z.min (to_S W (_hi ur)) (_hi (_srange p))) in *.
    destruct (to_U W a >? to_U W b) eqn:Hcmp; [discriminate|].
    cbn [negb] in Hmiss. rewrite andb_true_r in Hmiss.
    pose proof (to_S_bounds W W_pos _ Tlo) as Bl.
    pose proof (to_S_bounds W W_pos _ Thi) as Bh.
    assert (Ha : in_S W a) by (unfold a, in_S in *; lia).
    assert (Hb : in_S W b) by (unfold b, in_S in *; lia).
    assert (Hab : a <= b).
    { destruct (Z.gtb_spec a b); [discriminate|assumption]. }
    assert (Hhalf : 0 <= a \/ b < 0).
    { unfold a, b, to_S in *. unfold in_U, in_S in *.
      destruct (Z.ltb_spec (_lo ur) (2 ^ (W - 1)));
        destruct (Z.ltb_spec (_hi ur) (2 ^ (W - 1))); lia. }
    destruct (canonicalize_simple_sound W W_pos
                (mkRange (to_U W a) (to_U W b)) (_bits p) HW
                (conj (to_U_in_U W W_pos a) (to_U_in_U W W_pos b)) Hbits)
      as [_ Hfix].
    set (type := canonicalize_constraints_simple W
                   (mkRange (to_U W a) (to_U W b)) (_bits p)) in *.
    unfold canon_of_simple in Hpres at 1. cbn [_present] in Hpres.
    destruct (Hfix Hpres) as (F & L1 & L2 & Sub).
    pose proof F as (Fle & (Flo & Fhi) & _).
    destruct (tighten_urange_within (_srange p) (_urange p)
                (conj Hlo Hhi) Hule) as (Wlo & Whi).
    fold ur in Wlo, Whi.
    exists (sc_bounds type), (sc_bits type).
    cbn [_lo _hi] in L1, L2.
    rewrite (to_U_spec W W_pos a Ha) in L1.
    rewrite (to_U_spec W W_pos b Hb) in L2.
    split; [assumption|]. split; [|split; [|split]].
    + unfold in_S, in_U in *.
      destruct Hhalf; destruct (Z.ltb_spec a 0); destruct (Z.ltb_spec b 0);
        lia.
    + unfold a, b, to_S in *. unfold in_S, in_U in *.
      repeat match goal with
             | H : context [if ?x <? ?y then _ else _] |- _ =>
               destruct (Z.ltb_spec x y)
             | |- context [if ?x <? ?y then _ else _] =>
               destruct (Z.ltb_spec x y)
             end; lia.
    + assumption.
    + unfold canon_of_simple. rewrite Hpres. reflexivity.
  - destruct (straddle_bounds W W_pos p Hp Htriv Hstr)
      as (_ & B1 & B2 & B3 & B4).
    rewrite (canonicalize_straddle_eq W W_pos p Hp Htriv Hstr) in Hpres |- *.
    destruct (canonicalize_simple_sound W W_pos
                (mkRange (to_U W (_lo (_srange p))) (_hi (_urange p)))
                (_bits p) HW (conj (to_U_in_U W W_pos _) Hhi) Hbits)
      as [_ Nfix].
    destruct (canonicalize_simple_sound W W_pos
                (mkRange (_lo (_urange p)) (to_U W (_hi (_srange p))))
                (_bits p) HW (conj Hlo (to_U_in_U W W_pos _)) Hbits)
      as [_ Pfix].
    pose proof (canonicalize_simple_bits W W_pos
                  (mkRange (to_U W (_lo (_srange p))) (_hi (_urange p)))
                  (_bits p) HW (conj (to_U_in_U W W_pos _) Hhi) Hbits)
      as Nbits.
    pose proof (canonicalize_simple_bits W W_pos
                  (mkRange (_lo (_urange p)) (to_U W (_hi (_srange p))))
                  (_bits p) HW (conj Hlo (to_U_in_U W W_pos _)) Hbits)
      as Pbits.
    cbn [_lo _hi] in Nfix, Pfix. cbn zeta in Nbits, Pbits.
    set (neg_type := canonicalize_constraints_simple W
           (mkRange (to_U W (_lo (_srange p))) (_hi (_urange p))) (_bits p))
      in *.
    set (pos_type := canonicalize_constraints_simple W
           (mkRange (_lo (_urange p)) (to_U W (_hi (_srange p)))) (_bits p))
      in *.
    destruct (sc_present neg_type) eqn:Hn;
      destruct (sc_present pos_type) eqn:Hpp;
      cbn [negb andb] in Hpres |- *; try discriminate.
    + right.
      destruct (Nfix eq_refl) as (NF & N1 & N2 & Nsub).
      destruct (Pfix eq_refl) as (PF & P1 & P2 & Psub).
      pose proof NF as (Nle & (Nlo & Nhi) & _).
      pose proof PF as (Ple & (Plo & Phi) & _).
      exists (sc_bounds neg_type), (sc_bounds pos_type),
             (sc_bits neg_type), (sc_bits pos_type).
      split; [assumption|]. split; [assumption|].
      split; [lia|]. split; [lia|].
      split.
      { unfold to_S. unfold in_S, in_U in *.
        rewrite (to_U_spec W W_pos _ Hslo) in *.
        rewrite (to_U_spec W W_pos _ Hshi) in *.
        destruct (Z.ltb_spec (_lo (sc_bounds neg_type)) (2 ^ (W - 1)));
          destruct (Z.ltb_spec (_hi (sc_bounds pos_type)) (2 ^ (W - 1)));
          destruct (Z.ltb_spec (_lo (_srange p)) 0);
          destruct (Z.ltb_spec (_hi (_srange p)) 0); lia. }
      split; [assumption|]. split; [assumption|].
      split; [symmetry; apply Nbits; reflexivity|].
      split; [symmetry; apply Pbits; reflexivity|].
      reflexivity.
    + left.
      destruct (Nfix eq_refl) as (NF & N1 & N2 & Nsub).
      pose proof NF as (Nle & (Nlo & Nhi) & _).
      exists (sc_bounds neg_type), (sc_bits neg_type).
      split; [assumption|]. split; [right; lia|].
      split; [|split; [assumption|reflexivity]].
      unfold to_S. unfold in_S, in_U in *.
      rewrite (to_U_spec W W_pos _ Hslo) in *.
      rewrite (to_U_spec W W_pos _ Hshi) in *.
      destruct (Z.ltb_spec (_lo (sc_bounds neg_type)) (2 ^ (W - 1)));
        destruct (Z.ltb_spec (_hi (sc_bounds neg_type)) (2 ^ (W - 1)));
        destruct (Z.ltb_spec (_lo (_srange p)) 0);
        destruct (Z.ltb_spec (_hi (_srange p)) 0); lia.
    + left.
      destruct (Pfix eq_refl) as (PF & P1 & P2 & Psub).
      pose proof PF as (Ple & (Plo & Phi) & _).
      exists (sc_bounds pos_type), (sc_bits pos_type).
      split; [assumption|]. split; [left; lia|].
      split; [|split; [assumption|reflexivity]].
      unfold to_S. unfold in_S, in_U in *.
      rewrite (to_U_spec W W_pos _ Hslo) in *.
      rewrite (to_U_spec W W_pos _ Hshi) in *.
      destruct (Z.ltb_spec (_lo (sc_bounds pos_type)) (2 ^ (W - 1)));
        destruct (Z.ltb_spec (_hi (sc_bounds pos_type)) (2 ^ (W - 1)));
        destruct (Z.ltb_spec (_lo (_srange p)) 0);
        destruct (Z.ltb_spec (_hi (_srange p)) 0); lia.
Qed.

Lemma adjust_bits_no_progress (bits : KnownBits) (bounds : RangeInt) :
  _result (adjust_bits_from_bounds W bits bounds) = bits ->
  _progress (adjust_bits_from_bounds W bits bounds) = false.
Proof.
  destruct bits as [z o]. unfold adjust_bits_from_bounds.
  cbn [_result _progress _zeros _ones]. intros E. injection E as Ez Eo.
  rewrite Ez, Eo, !Z.eqb_refl. reflexivity.
Qed.

Lemma adjust_bits_flag (bits : KnownBits) (bounds : RangeInt) :
  _is_result_consistent (adjust_bits_from_bounds W bits bounds) =
  (Z.land (_zeros (_result (adjust_bits_from_bounds W bits bounds)))
          (_ones (_result (adjust_bits_from_bounds W bits bounds))) =? 0).
Proof. reflexivity. Qed.

Lemma to_S_monotone_half (a b : Z) :
  in_U W a -> in_U W b -> a <= b ->
  b < 2 ^ (W - 1) \/ 2 ^ (W - 1) <= a ->
  to_S W a <= to_S W b.
Proof.
  intros Ha Hb Hab Hh. unfold to_S.
  destruct (Z.ltb_spec a (2 ^ (W - 1)));
    destruct (Z.ltb_spec b (2 ^ (W - 1))); lia.
Qed.

(** The assertions hold on a result built from one
    [SimpleCanonicalResult]. *)
Lemma verify_same_sign (bounds : RangeInt) (bits : KnownBits) :
  simple_fixed W bounds bits ->
  _hi bounds < 2 ^ (W - 1) \/ 2 ^ (W - 1) <= _lo bounds ->
  verify_constraints W
    (mkProto (mkRange (to_S W (_lo bounds)) (to_S W (_hi bounds)))
             bounds bits) = true.
Proof.
  intros F Hh.
  pose proof F as (Fle & (Flo & Fhi) & Fb & Fok & Slo & Shi & Efix).
  assert (Hm : to_S W (_lo bounds) <= to_S W (_hi bounds))
    by (apply to_S_monotone_half; assumption).
  assert (Clo : contains W
                  (mkProto (mkRange (to_S W (_lo bounds))
                                    (to_S W (_hi bounds))) bounds bits)
                  (to_S W (_lo bounds)) = true).
  { apply contains_iff. cbn [_srange _urange _bits _lo _hi].
    rewrite (to_U_to_S W W_pos) by assumption.
    split; [lia|]. split; [lia|assumption]. }
  assert (Chi : contains W
                  (mkProto (mkRange (to_S W (_lo bounds))
                                    (to_S W (_hi bounds))) bounds bits)
                  (to_S W (_hi bounds)) = true).
  { apply contains_iff. cbn [_srange _urange _bits _lo _hi].
    rewrite (to_U_to_S W W_pos) by assumption.
    split; [lia|]. split; [lia|assumption]. }
  unfold verify_constraints. cbn [_srange _urange _bits _lo _hi].
  rewrite Clo, Chi. cbn [andb].
  rewrite (to_U_to_S W W_pos) by assumption.
  rewrite Z.eqb_refl.
  rewrite adjust_bits_no_progress by assumption. reflexivity.
Qed.

(** The assertions hold on a result built from a negative and a
    non-negative [SimpleCanonicalResult]. *)
Lemma verify_straddle (bits0 : KnownBits) (nb pb : RangeInt)
    (nbits pbits : KnownBits) :
  simple_fixed W nb nbits -> simple_fixed W pb pbits ->
  2 ^ (W - 1) <= _lo nb -> _hi pb < 2 ^ (W - 1) ->
  bits_subset bits0 nbits -> bits_subset bits0 pbits ->
  _result (adjust_bits_from_bounds W bits0 nb) = nbits ->
  _result (adjust_bits_from_bounds W bits0 pb) = pbits ->
  verify_constraints W
    (mkProto (mkRange (to_S W (_lo nb)) (to_S W (_hi pb)))
             (mkRange (_lo pb) (_hi nb))
             (mkBits (Z.land (_zeros nbits) (_zeros pbits))
                     (Z.land (_ones nbits) (_ones pbits)))) = true.
Proof.
  intros NF PF HN HP Nsub Psub EN EP.
  pose proof NF as (Nle & (Nlo & Nhi) & Nb & Nok & NSlo & NShi & Nfix).
  pose proof PF as (Ple & (Plo & Phi) & Pb & Pok & PSlo & PShi & Pfix).
  pose proof (pow2W_double W W_pos) as HD.
  pose proof (pow2_half_pos W W_pos) as HH.
  set (meet := mkBits (Z.land (_zeros nbits) (_zeros pbits))
                      (Z.land (_ones nbits) (_ones pbits))).
  set (d := mkProto (mkRange (to_S W (_lo nb)) (to_S W (_hi pb)))
                    (mkRange (_lo pb) (_hi nb)) meet).
  assert (Mn : bits_subset meet nbits) by apply land_bits_subset_l.
  assert (Mp : bits_subset meet pbits) by apply land_bits_subset_r.
  assert (M0 : bits_subset bits0 meet)
    by (apply land_bits_subset_glb; assumption).
  assert (SN : forall u, in_U W u -> is_satisfied_by W nbits u = true ->
                         is_satisfied_by W meet u = true).
  { intros u Hu. apply (satisfied_subset W W_pos); assumption. }
  assert (SP : forall u, in_U W u -> is_satisfied_by W pbits u = true ->
                         is_satisfied_by W meet u = true).
  { intros u Hu. apply (satisfied_subset W W_pos); assumption. }
  assert (Slo_neg : to_S W (_lo nb) = _lo nb - 2 ^ W).
  { unfold to_S. destruct (Z.ltb_spec (_lo nb) (2 ^ (W - 1))); lia. }
  assert (Shi_neg : to_S W (_hi nb) = _hi nb - 2 ^ W).
  { unfold to_S. destruct (Z.ltb_spec (_hi nb) (2 ^ (W - 1))); lia. }
  assert (Slo_pos : to_S W (_lo pb) = _lo pb).
  { unfold to_S. destruct (Z.ltb_spec (_lo pb) (2 ^ (W - 1))); lia. }
  assert (Shi_pos : to_S W (_hi pb) = _hi pb).
  { unfold to_S. destruct (Z.ltb_spec (_hi pb) (2 ^ (W - 1))); lia. }
  unfold in_U in Nlo, Nhi, Plo, Phi.
  assert (C : forall u, in_U W u ->
                (_lo nb <= u <= _hi nb /\ is_satisfied_by W nbits u = true) \/
                (_lo pb <= u <= _hi pb /\ is_satisfied_by W pbits u = true) ->
                contains W d (to_S W u) = true).
  { intros u Hu Hcase. apply contains_iff.
    unfold d. cbn [_srange _urange _bits _lo _hi].
    rewrite (to_U_to_S W W_pos) by assumption.
    unfold in_simple. cbn [_lo _hi].
    unfold in_U in Hu.
    destruct Hcase as [(Hin & Hs)|(Hin & Hs)].
    - split; [|split; [lia|apply SN; assumption]].
      rewrite Slo_neg, Shi_pos. unfold to_S.
      destruct (Z.ltb_spec u (2 ^ (W - 1))); lia.
    - split; [|split; [lia|apply SP; assumption]].
      rewrite Slo_neg, Shi_pos. unfold to_S.
      destruct (Z.ltb_spec u (2 ^ (W - 1))); lia. }
  unfold verify_constraints.
  change (_srange d) with (mkRange (to_S W (_lo nb)) (to_S W (_hi pb))).
  change (_urange d) with (mkRange (_lo pb) (_hi nb)).
  change (_bits d) with meet.
  cbn [_lo _hi].
  rewrite (C (_lo nb)) by (assumption || (left; split; [lia|assumption])).
  rewrite (C (_hi pb)) by (assumption || (right; split; [lia|assumption])).
  rewrite (C (_lo pb)) by (assumption || (right; split; [lia|assumption])).
  rewrite (C (_hi nb)) by (assumption || (left; split; [lia|assumption])).
  cbn [andb].
  rewrite !(to_U_to_S W W_pos) by assumption.
  destruct (Z.eqb_spec (_lo nb) (_lo pb)) as [Eq|_]; [lia|].
  cbn zeta. rewrite !range_eta.
  rewrite !adjust_bits_flag.
  rewrite (adjust_bits_between W bits0 meet nbits nb M0 Mn EN).
  rewrite (adjust_bits_between W bits0 meet pbits pb M0 Mp EP).
  rewrite Nok, Pok.
  rewrite (adjust_bounds_fixed W W_pos nb nbits (conj Nlo Nhi) NSlo NShi).
  rewrite (adjust_bounds_fixed W W_pos pb pbits (conj Plo Phi) PSlo PShi).
  cbn [_progress negb andb]. unfold meet. cbn [_zeros _ones].
  rewrite !Z.eqb_refl. reflexivity.
Qed.

(** X14.  Outside the situation described by [signed_crossing_missed],
    every assertion of [verify_constraints] holds on a present result of
    [canonicalize_constraints]: its four bounds are contained in it, and
    neither its bits nor the bounds of its sign halves can be tightened
    further. *)
Theorem verify_constraints_holds (p : TypeIntPrototype) :
  2 <= W -> proto_in_range W p -> signed_crossing_missed W p = false ->
  _present (canonicalize_constraints W p) = true ->
  verify_constraints W (_data (canonicalize_constraints W p)) = true.
Proof.
  intros HW Hp Hm Hc.
  destruct (canonical_shape p HW Hp Hm Hc)
    as [(bounds & bits & F & Hh & _ & _ & E)
       |(nb & pb & nbits & pbits & NF & PF & HN & HP & _ & Ns & Ps & EN & EP
         & E)];
    rewrite E.
  - apply verify_same_sign; assumption.
  - apply (verify_straddle (_bits p)); assumption.
Qed.

(** X15.  Outside the situation described by [signed_crossing_missed],
    [canonicalize_constraints] only tightens: the signed and the unsigned
    range of a present result lie within the given ones, and its bits keep
    every bit that was given. *)
Theorem canonicalize_only_tightens (p : TypeIntPrototype) :
  2 <= W -> proto_in_range W p -> signed_crossing_missed W p = false ->
  _present (canonicalize_constraints W p) = true ->
  let d := _data (canonicalize_constraints W p) in
  _lo (_srange p) <= _lo (_srange d) /\ _hi (_srange d) <= _hi (_srange p) /\
  _lo (_urange p) <= _lo (_urange d) /\ _hi (_urange d) <= _hi (_urange p) /\
  bits_subset (_bits p) (_bits d).
Proof.
  intros HW Hp Hm Hc d.
  destruct (canonical_shape p HW Hp Hm Hc)
    as [(bounds & bits & _ & _ & (A & B & C & D) & Sub & E)
       |(nb & pb & nbits & pbits & _ & _ & _ & _ & (A & B & C & D) & Ns & Ps
         & _ & _ & E)];
    unfold d; rewrite E; cbn [_srange _urange _bits _lo _hi].
  - repeat (split; [assumption|]). assumption.
  - repeat (split; [assumption|]).
    apply land_bits_subset_glb; assumption.
Qed.

(** X16.  Outside the situation described by [signed_crossing_missed],
    the two ranges of a present result of [canonicalize_constraints]
    agree: both are ordered, the bits are consistent, and either the
    unsigned bounds are the signed bounds converted to [U], or the signed
    range runs from a negative to a non-negative value, whose conversions
    to [U] split the unsigned range in its two sign halves. *)
Theorem canonical_ranges_agree (p : TypeIntPrototype) :
  2 <= W -> proto_in_range W p -> signed_crossing_missed W p = false ->
  _present (canonicalize_constraints W p) = true ->
  let d := _data (canonicalize_constraints W p) in
  _lo (_srange d) <= _hi (_srange d) /\
  _lo (_urange d) <= _hi (_urange d) /\
  Z.land (_zeros (_bits d)) (_ones (_bits d)) = 0 /\
  ((to_U W (_lo (_srange d)) = _lo (_urange d) /\
    to_U W (_hi (_srange d)) = _hi (_urange d)) \/
   (_lo (_srange d) < 0 <= _hi (_srange d) /\
    _lo (_urange d) <= to_U W (_hi (_srange d)) /\
    to_U W (_hi (_srange d)) < to_U W (_lo (_srange d)) /\
    to_U W (_lo (_srange d)) <= _hi (_urange d))).
Proof.
  intros HW Hp Hm Hc d.
  pose proof (pow2W_double W W_pos) as HD.
  pose proof (pow2_half_pos W W_pos) as HH.
  destruct (canonical_shape p HW Hp Hm Hc)
    as [(bounds & bits & F & Hh & _ & _ & E)
       |(nb & pb & nbits & pbits & NF & PF & HN & HP & _ & _ & _ & _ & _
         & E)];
    unfold d; rewrite E; cbn [_srange _urange _bits _lo _hi _zeros _ones].
  - pose proof F as (Fle & (Flo & Fhi) & _ & Fok & _).
    split; [apply to_S_monotone_half; assumption|].
    split; [assumption|]. split; [assumption|].
    left. rewrite !(to_U_to_S W W_pos) by assumption.
    split; reflexivity.
  - pose proof NF as (Nle & (Nlo & Nhi) & _ & Nok & _).
    pose proof PF as (Ple & (Plo & Phi) & _ & Pok & _).
    rewrite !(to_U_to_S W W_pos) by assumption.
    unfold to_S. unfold in_U in *.
    destruct (Z.ltb_spec (_lo nb) (2 ^ (W - 1)));
      destruct (Z.ltb_spec (_hi pb) (2 ^ (W - 1))); try lia.
    split; [lia|]. split; [lia|].
    split; [apply land_bits_consistent; assumption|].
    right. lia.
Qed.

End Coverage.

(** ** int_type_xmeet *)

Section Meet.

Variable W : Z.

Lemma satisfied_lor (b1 b2 : KnownBits) (u : Z) :
  is_satisfied_by W (mkBits (Z.lor (_zeros b1) (_zeros b2))
                            (Z.lor (_ones b1) (_ones b2))) u
  = is_satisfied_by W b1 u && is_satisfied_by W b2 u.
Proof.
  unfold is_satisfied_by. cbn [_zeros _ones].
  rewrite !Z.land_lor_distr_r.
  set (a := Z.land u (_zeros b1)). set (b := Z.land u (_zeros b2)).
  set (c := Z.land (unot W u) (_ones b1)).
  set (d := Z.land (unot W u) (_ones b2)).
  apply eq_true_iff_eq.
  rewrite !andb_true_iff, !Z.eqb_eq, !Z.lor_eq_0_iff. tauto.
Qed.



Lemma TypeInt_eqb_eq (x y : TypeInt.t) : TypeInt_eqb x y = true -> x = y.
Proof.
  destruct x as [l h ul uh [z o] w], y as [l' h' ul' uh' [z' o'] w'].
  unfold TypeInt_eqb, TypeIntPrototype_eqb, RangeInt_eqb, KnownBits_eqb,
    prototype_of.
  cbn. rewrite !andb_true_iff, !Z.eqb_eq.
  intros ((((? & ?) & (? & ?)) & (? & ?)) & ?). subst. reflexivity.
Qed.

Lemma TypeInt_eqb_refl (x : TypeInt.t) : TypeInt_eqb x x = true.
Proof.
  unfold TypeInt_eqb. rewrite TypeIntPrototype_eqb_refl, Z.eqb_refl.
  reflexivity.
Qed.

Lemma TypeInt_eqb_sym (x y : TypeInt.t) : TypeInt_eqb x y = TypeInt_eqb y x.
Proof.
  destruct (TypeInt_eqb x y) eqn:E1; destruct (TypeInt_eqb y x) eqn:E2;
    try reflexivity.
  - apply TypeInt_eqb_eq in E1. subst.
    rewrite TypeInt_eqb_refl in E2. discriminate.
  - apply TypeInt_eqb_eq in E2. subst.
    rewrite TypeInt_eqb_refl in E1. discriminate.
Qed.

(** X17.  The join of two integer types is exact: unless the operands are
    the same type, which is returned as it is, [int_type_xmeet] with
    [dual] passes to [make] a prototype that contains a value exactly when
    both operands contain it, with the smaller of the two widen hints. *)
Theorem xmeet_join_exact (i1 i2 : TypeInt.t)
    (make : TypeIntPrototype -> Z -> bool -> Type_) :
  int_type_xmeet i1 (Integer i2) make true =
    Some (if TypeInt_eqb i1 i2 then Integer i1
          else make (join_prototype i1 i2)
                    (Z.min (TypeInt._widen i1) (TypeInt._widen i2)) true) /\
  forall v, contains W (join_prototype i1 i2) v
            = contains W (prototype_of i1) v && contains W (prototype_of i2) v.
Proof.
  split.
  - unfold int_type_xmeet, same_pointer, is_TOP, try_cast.
    destruct (TypeInt_eqb i1 i2); reflexivity.
  - intros v. unfold contains, join_prototype, prototype_of.
    cbn [_srange _urange _bits _lo _hi].
    rewrite (satisfied_lor (TypeInt._bits i1) (TypeInt._bits i2)).
    destruct (is_satisfied_by W (TypeInt._bits i1) (to_U W v));
      destruct (is_satisfied_by W (TypeInt._bits i2) (to_U W v));
      rewrite ?andb_false_r, ?andb_true_r; try reflexivity.
    apply eq_true_iff_eq.
    rewrite !andb_true_iff, !Z.geb_le, !Z.leb_le. lia.
Qed.


(** X19.  [int_type_xmeet] is commutative on integer types, for the meet
    and for the join: exchanging the operands gives the same result, for
    every [make]. *)
Theorem xmeet_commutative (i1 i2 : TypeInt.t)
    (make : TypeIntPrototype -> Z -> bool -> Type_) (dual : bool) :
  int_type_xmeet i1 (Integer i2) make dual
  = int_type_xmeet i2 (Integer i1) make dual.
Proof.
  unfold int_type_xmeet, same_pointer, is_TOP, try_cast.
  rewrite (TypeInt_eqb_sym i2 i1).
  destruct (TypeInt_eqb i1 i2) eqn:E.
  - apply TypeInt_eqb_eq in E. subst. reflexivity.
  - cbn [orb]. unfold meet_prototype, join_prototype.
    rewrite (Z.min_comm (TypeInt._lo i2)), (Z.max_comm (TypeInt._hi i2)),
      (Z.min_comm (TypeInt._ulo i2)), (Z.max_comm (TypeInt._uhi i2)),
      (Z.max_comm (TypeInt._lo i2)), (Z.min_comm (TypeInt._hi i2)),
      (Z.max_comm (TypeInt._ulo i2)), (Z.min_comm (TypeInt._uhi i2)),
      (Z.land_comm (_zeros (TypeInt._bits i2))),
      (Z.land_comm (_ones (TypeInt._bits i2))),
      (Z.lor_comm (_zeros (TypeInt._bits i2))),
      (Z.lor_comm (_ones (TypeInt._bits i2))),
      (Z.max_comm (TypeInt._widen i2)), (Z.min_comm (TypeInt._widen i2)).
    reflexivity.
Qed.

End Meet.

(** ** int_type_widen and int_type_narrow *)

Section WidenNarrow.

Variable W : Z.
Hypothesis W_pos : 0 < W.
Variables WidenMin WidenMax : Z.

(** X20.  The universal domain absorbs widening: once the old type is
    [TYPE_DOMAIN], [int_type_widen] returns it for every new type, with or
    without a limit. *)
Theorem widen_domain_absorbs (new_type : TypeInt.t)
    (limit_type : option TypeInt.t) :
  type_in_range W new_type ->
  int_type_widen W WidenMin WidenMax new_type
    (Some (TYPE_DOMAIN W WidenMax)) limit_type
  = Some (TYPE_DOMAIN W WidenMax).
Proof. intros Hn. apply (widen_domain W W_pos). assumption. Qed.

Lemma normalize_widen_range (p : TypeIntPrototype) (w : Z) :
  WidenMin <= WidenMax -> WidenMin <= w <= WidenMax ->
  WidenMin <= normalize_widen W WidenMin WidenMax p w <= WidenMax.
Proof.
  intros Hm Hw. unfold normalize_widen.
  destruct (_ <=? _); [lia|]. destruct (_ && _); lia.
Qed.

Lemma try_make_widen (p : TypeIntPrototype) (w : Z) (r : TypeInt.t) :
  WidenMin <= WidenMax -> WidenMin <= w <= WidenMax ->
  try_make W WidenMin WidenMax p w = Some r ->
  WidenMin <= TypeInt._widen r <= WidenMax.
Proof.
  intros Hm Hw. unfold try_make.
  destruct (_present (canonicalize_constraints W p)); [|discriminate].
  intros E. injection E as <-. cbn [TypeInt._widen].
  apply normalize_widen_range; assumption.
Qed.

(** X21.  [int_type_widen] keeps the widen hint within
    [[WidenMin, WidenMax]]: when the hints of the new and of the old type
    lie in that range, so does the hint of the type it returns. *)
Theorem widen_hint_in_range (new_type : TypeInt.t)
    (old_type limit_type : option TypeInt.t) (r : TypeInt.t) :
  WidenMin <= WidenMax ->
  WidenMin <= TypeInt._widen new_type <= WidenMax ->
  (forall old, old_type = Some old ->
               WidenMin <= TypeInt._widen old <= WidenMax) ->
  int_type_widen W WidenMin WidenMax new_type old_type limit_type = Some r ->
  WidenMin <= TypeInt._widen r <= WidenMax.
Proof.
  intros Hm Hn Ho E.
  destruct (widen_cases W WidenMin WidenMax new_type limit_type old_type)
    as [C|[C|[C|[(Hlt & C)|(Hge & C)]]]]; rewrite C in E.
  - apply Ho. assumption.
  - injection E as <-. cbn [TYPE_DOMAIN TypeInt._widen]. lia.
  - injection E as <-. assumption.
  - apply Z.ltb_lt in Hlt.
    apply (try_make_widen _ _ _ Hm) in E; [assumption|lia].
  - apply (try_make_widen _ _ _ Hm) in E; [assumption|lia].
Qed.

(** X22.  [int_type_narrow] returns one of its two arguments, and its
    result is stable: narrowing the same new type against the result
    returns the result. *)
Theorem narrow_stable (new_type : TypeInt.t) (old_type : option TypeInt.t) :
  (int_type_narrow W WidenMax new_type old_type = new_type \/
   old_type = Some (int_type_narrow W WidenMax new_type old_type)) /\
  int_type_narrow W WidenMax new_type
    (Some (int_type_narrow W WidenMax new_type old_type))
  = int_type_narrow W WidenMax new_type old_type.
Proof.
  assert (Hnew : int_type_narrow W WidenMax new_type (Some new_type)
                 = new_type).
  { unfold int_type_narrow. destruct (singleton new_type); [reflexivity|].
    unfold int_type_is_equal. rewrite TypeIntPrototype_eqb_refl.
    reflexivity. }
  assert (Hc : int_type_narrow W WidenMax new_type old_type = new_type \/
               old_type = Some (int_type_narrow W WidenMax new_type old_type)).
  { unfold int_type_narrow. destruct old_type as [old|]; [|left; reflexivity].
    repeat match goal with
           | |- context [if ?b then _ else _] => destruct b
           end; auto. }
  split; [assumption|].
  destruct Hc as [C|C].
  - rewrite C. assumption.
  - rewrite <- C. reflexivity.
Qed.

End WidenNarrow.

(** ** bitname *)

Section NamesFacts.

Variable W : Z.
Hypothesis W_pos : 0 < W.

Lemma land_pow2 (x k : Z) :
  0 <= k -> (Z.land x (2 ^ k) =? 0) = negb (Z.testbit x k).
Proof.
  intros Hk. destruct (Z.testbit x k) eqn:Hb; cbn [negb].
  - apply Z.eqb_neq. intros E.
    assert (Ht : Z.testbit (Z.land x (2 ^ k)) k = true).
    { rewrite Z.land_spec, Hb, Z.pow2_bits_true by assumption. reflexivity. }
    rewrite E, Z.bits_0 in Ht. discriminate.
  - apply Z.eqb_eq. apply Z.bits_inj'. intros j Hj.
    rewrite Z.land_spec, Z.bits_0, Z.pow2_bits_eqb by assumption.
    destruct (Z.eqb_spec k j) as [->|_].
    + rewrite Hb. reflexivity.
    + apply andb_false_r.
Qed.

(** The character at position [i] shows bit [W - 1 - i]. *)
Lemma bitname_char_bit (zeros ones i : Z) :
  0 <= i < W ->
  bitname_char W zeros ones i =
  if Z.testbit zeros (W - 1 - i) then "0"%char
  else if Z.testbit ones (W - 1 - i) then "1"%char
  else "*"%char.
Proof.
  intros Hi. unfold bitname_char. cbn zeta.
  rewrite (ushl_1 W W_pos) by lia.
  rewrite !land_pow2 by lia. rewrite !negb_involutive. reflexivity.
Qed.

Lemma bitname_loop_length (n : nat) (i zeros ones : Z) :
  String.length (bitname_loop W n i zeros ones) = n.
Proof.
  revert i. induction n as [|n IH]; intros i; cbn; [reflexivity|].
  rewrite IH. reflexivity.
Qed.

Lemma bitname_loop_get (n k : nat) (i zeros ones : Z) :
  (k < n)%nat ->
  String.get k (bitname_loop W n i zeros ones)
  = Some (bitname_char W zeros ones (i + Z.of_nat k)).
Proof.
  revert k i. induction n as [|n IH]; intros k i Hk; [lia|].
  destruct k as [|k]; cbn [bitname_loop String.get].
  - rewrite Z.add_0_r. reflexivity.
  - rewrite IH by lia. do 2 f_equal. lia.
Qed.

(** X23.  With a buffer of at least [W + 1] characters, [bitname] returns
    [W] characters, most significant bit first: the character at position
    [i] is ['0'] when bit [W - 1 - i] is set in [zeros], else ['1'] when it
    is set in [ones], else ['*']. *)
Theorem bitname_characters (buf_size zeros ones : Z) :
  W + 1 <= buf_size ->
  String.length (bitname W buf_size zeros ones) = Z.to_nat W /\
  forall i, 0 <= i < W ->
    String.get (Z.to_nat i) (bitname W buf_size zeros ones) =
    Some (if Z.testbit zeros (W - 1 - i) then "0"%char
          else if Z.testbit ones (W - 1 - i) then "1"%char
          else "*"%char).
Proof.
  intros Hb. unfold bitname.
  destruct (Z.ltb_spec buf_size (W + 1)); [lia|].
  split; [apply bitname_loop_length|].
  intros i Hi. rewrite bitname_loop_get by lia.
  rewrite Z2Nat.id by lia. rewrite Z.add_0_l.
  rewrite bitname_char_bit by assumption. reflexivity.
Qed.

(** X24.  The text that [bitname] prints determines the bits: two
    consistent [KnownBits] of type [U] that print the same are equal. *)
Theorem bitname_injective (buf_size : Z) (b1 b2 : KnownBits) :
  W + 1 <= buf_size ->
  bits_in_U W b1 -> bits_in_U W b2 ->
  Z.land (_zeros b1) (_ones b1) = 0 -> Z.land (_zeros b2) (_ones b2) = 0 ->
  bitname W buf_size (_zeros b1) (_ones b1)
  = bitname W buf_size (_zeros b2) (_ones b2) ->
  b1 = b2.
Proof.
  intros Hb (Hz1 & Ho1) (Hz2 & Ho2) Hok1 Hok2 E.
  unfold bitname in E. destruct (Z.ltb_spec buf_size (W + 1)); [lia|].
  assert (Hbit : forall k, 0 <= k < W ->
            Z.testbit (_zeros b1) k = Z.testbit (_zeros b2) k /\
            Z.testbit (_ones b1) k = Z.testbit (_ones b2) k).
  { intros k Hk.
    assert (G : String.get (Z.to_nat (W - 1 - k))
                  (bitname_loop W (Z.to_nat W) 0 (_zeros b1) (_ones b1))
                = String.get (Z.to_nat (W - 1 - k))
                    (bitname_loop W (Z.to_nat W) 0 (_zeros b2) (_ones b2)))
      by (rewrite E; reflexivity).
    rewrite !bitname_loop_get in G by lia.
    rewrite Z2Nat.id, Z.add_0_l in G by lia.
    rewrite !bitname_char_bit in G by lia.
    replace (W - 1 - (W - 1 - k)) with k in G by lia.
    assert (C1 : Z.testbit (Z.land (_zeros b1) (_ones b1)) k = false)
      by (rewrite Hok1; apply Z.bits_0).
    assert (C2 : Z.testbit (Z.land (_zeros b2) (_ones b2)) k = false)
      by (rewrite Hok2; apply Z.bits_0).
    rewrite Z.land_spec in C1, C2.
    destruct (Z.testbit (_zeros b1) k), (Z.testbit (_ones b1) k),
      (Z.testbit (_zeros b2) k), (Z.testbit (_ones b2) k);
      try discriminate; split; reflexivity. }
  assert (Ez : _zeros b1 = _zeros b2).
  { apply Z.bits_inj'. intros k Hk. destruct (Z_lt_ge_dec k W).
    - apply Hbit. lia.
    - rewrite !(testbit_in_U_high W) by (assumption || lia). reflexivity. }
  assert (Eo : _ones b1 = _ones b2).
  { apply Z.bits_inj'. intros k Hk. destruct (Z_lt_ge_dec k W).
    - apply Hbit. lia.
    - rewrite !(testbit_in_U_high W) by (assumption || lia). reflexivity. }
  destruct b1, b2. cbn in Ez, Eo. subst. reflexivity.
Qed.

End NamesFacts.

(** ** The names of numbers *)

Module NameFacts.

Lemma append_nil_r (s : string) : (s ++ "")%string = s.
Proof.
  induction s as [|c s IH]; cbn; [reflexivity|]. rewrite IH. reflexivity.
Qed.

Lemma append_inj_l (x a b : string) :
  (x ++ a)%string = (x ++ b)%string -> a = b.
Proof.
  induction x as [|c x IH]; cbn; intros E; [assumption|].
  injection E as E. apply IH. assumption.
Qed.

Lemma append_char_nonempty (a : string) (c : ascii) :
  (a ++ String c "")%string <> ""%string.
Proof. destruct a; cbn; discriminate. Qed.

Lemma append_char_inj_r (a b : string) (c : ascii) :
  (a ++ String c "")%string = (b ++ String c "")%string -> a = b.
Proof.
  revert b. induction a as [|x a IH]; intros [|y b]; cbn; intros E.
  - reflexivity.
  - injection E as _ E. symmetry in E.
    apply append_char_nonempty in E. contradiction.
  - injection E as _ E. apply append_char_nonempty in E. contradiction.
  - injection E as -> E. f_equal. apply IH. assumption.
Qed.

(** The decimal text of a number starts with a digit or the minus sign. *)
Lemma decimal_head (n : Z) :
  exists c s, decimal n = String c s /\ c <> "m"%char.
Proof.
  unfold decimal. destruct n as [|p|p]; cbn.
  - eexists _, _. split; [reflexivity|discriminate].
  - pose proof (DecimalPos.Unsigned.to_uint_nonnil p) as Hn.
    destruct (Pos.to_uint p); try contradiction; cbn;
      (eexists _, _; split; [reflexivity|discriminate]).
  - eexists _, _. split; [reflexivity|discriminate].
Qed.

Lemma decimal_inj (a b : Z) : decimal a = decimal b -> a = b.
Proof.
  unfold decimal. intros E.
  assert (Ha : forall z, Z.to_int z <> Decimal.Pos Decimal.Nil /\
                         Z.to_int z <> Decimal.Neg Decimal.Nil).
  { intros [|p|p]; cbn; split; try discriminate;
      intros H; injection H as H;
      apply (DecimalPos.Unsigned.to_uint_nonnil p); assumption. }
  pose proof (DecimalString.NilZero.isi (Z.to_int a)
                (proj1 (Ha a)) (proj2 (Ha a))) as Ia.
  pose proof (DecimalString.NilZero.isi (Z.to_int b)
                (proj1 (Ha b)) (proj2 (Ha b))) as Ib.
  rewrite E, Ib in Ia. injection Ia as Ia.
  rewrite <- (DecimalZ.of_to a), <- (DecimalZ.of_to b), Ia. reflexivity.
Qed.

(** The three forms of a name near an origin. *)
Lemma near_cases (origin : Z) (xname : string) (n : Z) (s : string) :
  int_name_near origin xname n = Some s ->
  (n < origin /\ s = (xname ++ String "-" (decimal (origin - n)))%string) \/
  (n > origin /\ s = (xname ++ String "+" (decimal (n - origin)))%string) \/
  (n = origin /\ s = (xname ++ "")%string).
Proof.
  unfold int_name_near.
  destruct (Z.ltb_spec n origin).
  - destruct (n <=? origin - 10000); [discriminate|].
    intros E. injection E as <-. left. split; [assumption|reflexivity].
  - destruct (Z.gtb_spec n origin).
    + destruct (n >=? origin + 10000); [discriminate|].
      intros E. injection E as <-. right. left.
      split; [lia|reflexivity].
    + intros E. injection E as <-. right. right.
      split; [lia|]. rewrite append_nil_r. reflexivity.
Qed.

Lemma near_prefix (origin : Z) (xname : string) (n : Z) (s : string) :
  int_name_near origin xname n = Some s ->
  exists rest, s = (xname ++ rest)%string.
Proof.
  intros E. destruct (near_cases _ _ _ _ E) as [(_ & ->)|[(_ & ->)|(_ & ->)]];
    eexists; reflexivity.
Qed.

(** A name near an origin determines the number. *)
Lemma near_inj (origin : Z) (xname : string) (n1 n2 : Z) (s : string) :
  int_name_near origin xname n1 = Some s ->
  int_name_near origin xname n2 = Some s ->
  n1 = n2.
Proof.
  intros E1 E2.
  destruct (near_cases _ _ _ _ E1) as [(H1 & ->)|[(H1 & ->)|(H1 & ->)]];
    destruct (near_cases _ _ _ _ E2) as [(H2 & E)|[(H2 & E)|(H2 & E)]];
    apply append_inj_l in E; try discriminate;
    try (injection E as E; apply decimal_inj in E); lia.
Qed.

(** No name near an origin called ["m..."] is the decimal text of a
    number, with or without the suffix ["u"]. *)
Lemma near_not_decimal (origin : Z) (xname : string) (n m : Z) (s : string) :
  int_name_near origin (String "m" xname) n = Some s ->
  s <> decimal m /\ s <> (decimal m ++ "u")%string.
Proof.
  intros E. destruct (near_prefix _ _ _ _ E) as (rest & ->).
  destruct (decimal_head m) as (c' & t & -> & Hc). cbn.
  split; intros H; injection H as H _; congruence.
Qed.

End NameFacts.

Ltac name_split H :=
  repeat match type of H with
         | context [match int_name_near ?o ?x ?n with _ => _ end] =>
           let E := fresh "E" in destruct (int_name_near o x n) eqn:E
         end.

Ltac name_inj :=
  match goal with
  | H : decimal _ = decimal _ |- _ =>
    apply NameFacts.decimal_inj; exact H
  | H : (decimal _ ++ "u")%string = (decimal _ ++ "u")%string |- _ =>
    apply NameFacts.decimal_inj;
    exact (NameFacts.append_char_inj_r _ _ _ H)
  | E1 : int_name_near ?o ?x ?n1 = Some ?s1,
    E2 : int_name_near ?o ?x ?n2 = Some ?s2, H : ?s1 = ?s2 |- ?n1 = ?n2 =>
    rewrite <- H in E2; exact (NameFacts.near_inj o x n1 n2 s1 E1 E2)
  | E : int_name_near _ _ _ = Some ?s, H : ?s = decimal _ |- _ =>
    exfalso; exact (proj1 (NameFacts.near_not_decimal _ _ _ _ _ E) H)
  | E : int_name_near _ _ _ = Some ?s, H : decimal _ = ?s |- _ =>
    exfalso;
    exact (proj1 (NameFacts.near_not_decimal _ _ _ _ _ E) (eq_sym H))
  | E : int_name_near _ _ _ = Some ?s,
    H : ?s = (decimal _ ++ "u")%string |- _ =>
    exfalso; exact (proj2 (NameFacts.near_not_decimal _ _ _ _ _ E) H)
  | E : int_name_near _ _ _ = Some ?s,
    H : (decimal _ ++ "u")%string = ?s |- _ =>
    exfalso;
    exact (proj2 (NameFacts.near_not_decimal _ _ _ _ _ E) (eq_sym H))
  | E1 : int_name_near _ _ _ = Some ?s1,
    E2 : int_name_near _ _ _ = Some ?s2, H : ?s1 = ?s2 |- _ =>
    exfalso;
    destruct (NameFacts.near_prefix _ _ _ _ E1) as (r1 & P1);
    destruct (NameFacts.near_prefix _ _ _ _ E2) as (r2 & P2);
    rewrite P1, P2 in H; cbn in H; discriminate H
  end.

(** X25.  The name that [intname] prints determines the number: two
    values of type [jint] with the same name are equal. *)
Theorem intname_injective (n1 n2 : Z) :
  in_S 32 n1 -> in_S 32 n2 -> intname n1 = intname n2 -> n1 = n2.
Proof.
  intros _ _ H. unfold intname in H. name_split H; name_inj.
Qed.

(** X26.  The name that [uintname] prints determines the number: two
    values of type [juint] with the same name are equal. *)
Theorem uintname_injective (n1 n2 : Z) :
  in_U 32 n1 -> in_U 32 n2 -> uintname n1 = uintname n2 -> n1 = n2.
Proof.
  intros _ _ H. unfold uintname in H. name_split H; name_inj.
Qed.

(** X27.  The name that [longname] prints determines the number: two
    values of type [jlong] with the same name are equal. *)
Theorem longname_injective (n1 n2 : Z) :
  in_S 64 n1 -> in_S 64 n2 -> longname n1 = longname n2 -> n1 = n2.
Proof.
  intros _ _ H. unfold longname in H. name_split H; name_inj.
Qed.

(** X28.  The name that [ulongname] prints determines the number: two
    values of type [julong] with the same name are equal. *)
Theorem ulongname_injective (n1 n2 : Z) :
  in_U 64 n1 -> in_U 64 n2 -> ulongname n1 = ulongname n2 -> n1 = n2.
Proof.
  intros _ _ H. unfold ulongname in H. name_split H; name_inj.
Qed.


(** * Instances *)

(** Closed side conditions: membership of numerals in [U] and [S]. *)
Ltac closed_range :=
  repeat match goal with
         | |- _ /\ _ => split
         | |- range_in_U _ _ => unfold range_in_U; cbn [_lo _hi]
         | |- bits_in_U _ _ => unfold bits_in_U; cbn [_zeros _ones]
         | |- type_in_range _ _ => unfold type_in_range; cbn
         | |- in_U _ _ => unfold in_U
         | |- in_S _ _ => unfold in_S
         | |- _ => cbn [_lo _hi _zeros _ones]; lia
         | |- _ => reflexivity
         end.

(** The examples of the comments of [adjust_lo] (8 bits). *)
Example adjust_lo_comment_one_branch :
  adjust_lo 8 146 (mkBits 36 74) = 202.
Proof. reflexivity. Qed.

Example adjust_lo_comment_zero_branch :
  adjust_lo 8 142 (mkBits 20 131) = 163.
Proof. reflexivity. Qed.


Lemma adjust_lo_assertions_witness :
  (0 < 32 /\ in_U 32 12 /\ bits_in_U 32 (mkBits 4 9) /\ Z.land 4 9 = 0) /\
  (Z.land 12 4 = Z.land (unot 32 12) 9 ->
     Z.land 12 4 = 0 /\ Z.land (unot 32 12) 9 = 0 /\
     adjust_lo 32 12 (mkBits 4 9) = 12 /\
     is_satisfied_by 32 (mkBits 4 9) 12 = true) /\
  (adjust_lo 32 12 (mkBits 4 9) = 12 ->
     is_satisfied_by 32 (mkBits 4 9) 12 = true) /\
  (Z.land 12 4 < Z.land (unot 32 12) 9 -> 12 < adjust_lo 32 12 (mkBits 4 9)) /\
  (Z.land (unot 32 12) 9 < Z.land 12 4 ->
     12 < adjust_lo 32 12 (mkBits 4 9) \/ adjust_lo 32 12 (mkBits 4 9) = 9).
Proof.
  split.
  - closed_range.
  - apply (adjust_lo_assertions 32 ltac:(lia) 12 (mkBits 4 9)); closed_range.
Defined.

Lemma simple_loop_within_W_witness :
  (0 < 32 /\ 2 <= 32 /\ range_in_U 32 (mkRange 2 9) /\
   bits_in_U 32 (mkBits 3 0)) /\
  exists n r,
    canonicalize_constraints_simple_fuel 32 (Z.to_nat 32)
      (mkRange 2 9) (mkBits 3 0) = Some (n, r) /\
    Z.of_nat n <= 32 /\ (n <= 2)%nat /\
    canonicalize_constraints_simple 32 (mkRange 2 9) (mkBits 3 0) = r.
Proof.
  split.
  - closed_range.
  - apply (simple_loop_within_W 32); closed_range.
Defined.

Lemma canonicalize_straddling_both_witness :
  (trivially_empty (mkProto (mkRange (-5) 5) (mkRange 0 4294967295) (mkBits 0 0))
     = false /\
   to_S 32 0 > to_S 32 4294967295 /\
   sc_present (canonicalize_constraints_simple 32
                 (mkRange 4294967291 4294967295) (mkBits 0 0)) = true /\
   sc_present (canonicalize_constraints_simple 32
                 (mkRange 0 5) (mkBits 0 0)) = true) /\
  canonicalize_constraints 32
    (mkProto (mkRange (-5) 5) (mkRange 0 4294967295) (mkBits 0 0)) =
  mkCanon true
    (mkProto (mkRange (-5) 5) (mkRange 0 4294967295) (mkBits 0 0)).
Proof.
  split.
  - repeat split; reflexivity.
  - apply (canonicalize_straddling_both 32
             (mkProto (mkRange (-5) 5) (mkRange 0 4294967295) (mkBits 0 0)));
      reflexivity.
Defined.

(** C6 as it is stated fails: at 32 bits, on the bounds [5, 6] and the bits
    that force the two low bits to 0, neither new bound leaves the old
    interval (the new lower bound is 8, the new upper bound 4), yet the
    result is not consistent. *)
Lemma adjust_bounds_crossing_inconsistent :
  (range_in_U 32 (mkRange 5 6) /\ bits_in_U 32 (mkBits 3 0) /\
   5 <= 6 /\ Z.land 3 0 = 0) /\
  adjust_lo 32 5 (mkBits 3 0) = 8 /\
  unot 32 (adjust_lo 32 (unot 32 6) (mkBits 0 3)) = 4 /\
  ~ (adjust_lo 32 5 (mkBits 3 0) < 5 \/
     unot 32 (adjust_lo 32 (unot 32 6) (mkBits 0 3)) > 6) /\
  adjust_bounds_from_bits 32 (mkRange 5 6) (mkBits 3 0) =
    mkAdjust true false (mkRange 8 4).
Proof.
  split; [closed_range|].
  split; [reflexivity|]. split; [reflexivity|]. split; [|reflexivity].
  vm_compute. intros [H|H]; discriminate H.
Qed.

Lemma adjust_bounds_from_bits_outcome_witness :
  (0 < 32 /\ range_in_U 32 (mkRange 2 9) /\ bits_in_U 32 (mkBits 3 0) /\
   2 <= 9 /\ Z.land 3 0 = 0) /\
  _is_result_consistent (adjust_bounds_from_bits 32 (mkRange 2 9) (mkBits 3 0))
    = true /\
  _result (adjust_bounds_from_bits 32 (mkRange 2 9) (mkBits 3 0))
    = mkRange 4 8.
Proof.
  split; [closed_range|].
  destruct (adjust_bounds_from_bits_outcome 32 ltac:(lia)
              (mkRange 2 9) (mkBits 3 0)) as [_ H]; [closed_range ..|].
  split; [reflexivity|].
  destruct (H eq_refl) as [E _]. exact E.
Defined.

(** C8.  With [lo = 0b0010], [hi = 0b1001], [zeros = 0b0011] and
    [ones = 0b0000], the bounds are tightened to [4, 8], by
    [adjust_bounds_from_bits] and by [canonicalize_constraints_simple], at
    4 bits as at 32 and 64 bits. *)
Theorem tighten_2_9_to_4_8 :
  adjust_bounds_from_bits 4 (mkRange 2 9) (mkBits 3 0)
    = mkAdjust true true (mkRange 4 8) /\
  canonicalize_constraints_simple 4 (mkRange 2 9) (mkBits 3 0)
    = mkSimple true (mkRange 4 8) (mkBits 3 0) /\
  sc_bounds (canonicalize_constraints_simple 32 (mkRange 2 9) (mkBits 3 0))
    = mkRange 4 8 /\
  sc_bounds (canonicalize_constraints_simple 64 (mkRange 2 9) (mkBits 3 0))
    = mkRange 4 8.
Proof. repeat split; reflexivity. Qed.

(** C9 as it is stated fails: the result is not [0b0001]. *)
Lemma adjust_lo_12_is_not_1 : adjust_lo 4 12 (mkBits 4 9) <> 1.
Proof. vm_compute. discriminate. Qed.

(** C9, as the code has it.  At 4 bits, with [lo = 0b1100],
    [zeros = 0b0100] and [ones = 0b1001], [adjust_lo] returns
    [0b1001 = bits._ones], which is less than [lo]: the computation wrapped
    around, and no 4-bit value from 12 on satisfies the bits. *)
Theorem adjust_lo_12_wraps_to_ones :
  adjust_lo 4 12 (mkBits 4 9) = 9 /\ 9 < 12 /\
  forall v, in_U 4 v -> 12 <= v -> is_satisfied_by 4 (mkBits 4 9) v = false.
Proof.
  split; [reflexivity|]. split; [lia|].
  intros v [H0 H1] H2. change (2 ^ 4) with 16 in H1.
  assert (Hv : v = 12 \/ v = 13 \/ v = 14 \/ v = 15) by lia.
  destruct Hv as [->|[->|[->| ->]]]; reflexivity.
Qed.

(** C2: an input on which the result does not represent the set of the
    input.  At 32 bits, the signed range [3, 5] and the unsigned range
    [2^32 - 10, 2^32 - 5] have no value in common, so the prototype
    contains no value at all; the code reaches the comparison
    [urange._lo > urange._hi] with the bounds 3 and 2^32 - 5, which it
    compares as unsigned values, and goes on to return a present result
    that contains 4. *)
Theorem canonicalize_disjoint_ranges_present :
  let p := mkProto (mkRange 3 5) (mkRange 4294967286 4294967291)
                   (mkBits 2147483648 0) in
  (forall v, contains 32 p v = false) /\
  canonicalize_constraints 32 p =
    mkCanon true (mkProto (mkRange 3 2147483647) (mkRange 3 2147483647)
                          (mkBits 2147483648 0)) /\
  contains 32 p 4 = false /\
  contains 32 (_data (canonicalize_constraints 32 p)) 4 = true.
Proof.
  intros p. split; [|repeat split; reflexivity].
  intros v. unfold contains, p. cbn [_srange _urange _bits _lo _hi].
  destruct (Z.geb_spec v 3); [|reflexivity].
  destruct (Z.leb_spec v 5); [|reflexivity].
  unfold to_U, wrap. rewrite Z.mod_small by lia.
  destruct (Z.geb_spec v 4294967286); [lia|reflexivity].
Qed.

(** C4: an input on which a second canonicalisation does not return the
    first result.  Same ranges as above, no known bit: the first result is
    present, with the signed range [3, -5]; canonicalising it again gives
    the empty result. *)
Theorem canonicalize_twice_differs :
  let p := mkProto (mkRange 3 5) (mkRange 4294967286 4294967291)
                   (mkBits 0 0) in
  canonicalize_constraints 32 p =
    mkCanon true (mkProto (mkRange 3 (-5)) (mkRange 3 4294967291)
                          (mkBits 0 0)) /\
  _present (canonicalize_constraints 32
              (_data (canonicalize_constraints 32 p))) = false.
Proof. split; reflexivity. Qed.

(** The start and the candidates of the run are types as [try_make]
    builds them. *)
Example widen_candidates_canonical :
  forallb (fun ty =>
             option_TypeInt_eqb
               (try_make 32 0 3 (prototype_of ty) (TypeInt._widen ty))
               (Some ty))
          (widen_start :: widen_candidates) = true.
Proof. vm_compute. reflexivity. Qed.

(** C7 as it is stated fails.  With [Type::WidenMax = 3], the run of
    [widen_candidates] from [widen_start] changes the type at every call:
    after [WidenMax + 2 = 5] calls the type is [0..31], after the sixth
    call [0..63], after the seventh [0..127]. *)
Lemma widen_still_changing_after_5_calls :
  widen_run 32 0 3 (firstn 5 widen_candidates) (Some widen_start) None
    = Some (TypeInt.mk 0 31 0 31 (mkBits 4294967264 0) 3) /\
  widen_run 32 0 3 (firstn 6 widen_candidates) (Some widen_start) None
    = Some (TypeInt.mk 0 63 0 63 (mkBits 4294967232 0) 3) /\
  widen_run 32 0 3 (firstn 7 widen_candidates) (Some widen_start) None
    = Some (TypeInt.mk 0 127 0 127 (mkBits 4294967168 0) 3) /\
  widen_run 32 0 3 (firstn 6 widen_candidates) (Some widen_start) None
    <> widen_run 32 0 3 (firstn 5 widen_candidates) (Some widen_start) None.
Proof.
  assert (E5 : widen_run 32 0 3 (firstn 5 widen_candidates)
                 (Some widen_start) None
               = Some (TypeInt.mk 0 31 0 31 (mkBits 4294967264 0) 3))
    by (vm_compute; reflexivity).
  assert (E6 : widen_run 32 0 3 (firstn 6 widen_candidates)
                 (Some widen_start) None
               = Some (TypeInt.mk 0 63 0 63 (mkBits 4294967232 0) 3))
    by (vm_compute; reflexivity).
  split; [exact E5|]. split; [exact E6|]. split; [vm_compute; reflexivity|].
  rewrite E5, E6. discriminate.
Qed.

Lemma widen_constant_stabilizes_witness :
  (0 < 32 /\ 0 <= 3 /\
   type_in_range 32 (TypeInt.mk 0 16 0 16 (mkBits 4294967264 0) 3) /\
   3 + 2 <= Z.of_nat 9) /\
  widen_run 32 0 3
    (repeat (TypeInt.mk 0 16 0 16 (mkBits 4294967264 0) 3) 9)
    (Some widen_start) None =
  widen_run 32 0 3
    (repeat (TypeInt.mk 0 16 0 16 (mkBits 4294967264 0) 3) 2)
    (Some widen_start) None.
Proof.
  split.
  - closed_range.
  - apply (widen_constant_stabilizes 32 ltac:(lia) 0 3
             (TypeInt.mk 0 16 0 16 (mkBits 4294967264 0) 3)
             widen_start None 9); closed_range.
Defined.

(** ** Instances of the further properties *)

Lemma adjust_lo_result_satisfies_witness :
  (is_satisfied_by 4 (mkBits 4 9) (adjust_lo 4 12 (mkBits 4 9)) = true /\
   adjust_lo 4 (adjust_lo 4 12 (mkBits 4 9)) (mkBits 4 9)
   = adjust_lo 4 12 (mkBits 4 9)) /\
  is_satisfied_by 4 (mkBits 8 0) (adjust_lo 4 8 (mkBits 8 0)) = false.
Proof.
  pose proof (adjust_lo_result_satisfies 4 ltac:(lia) 12 (mkBits 4 9)
                ltac:(closed_range) ltac:(closed_range) ltac:(closed_range))
    as [A _].
  pose proof (adjust_lo_result_satisfies 4 ltac:(lia) 8 (mkBits 8 0)
                ltac:(closed_range) ltac:(closed_range) ltac:(closed_range))
    as [_ B].
  split; [apply A; reflexivity|apply B; reflexivity].
Defined.

Lemma adjust_lo_monotone_witness :
  100 <= adjust_lo 8 100 (mkBits 36 74) <= adjust_lo 8 146 (mkBits 36 74).
Proof.
  apply (adjust_lo_monotone 8); try (exists 202; unfold satisfies_from);
    closed_range.
Defined.

Lemma adjust_lo_least_unless_msb_witness :
  (0 < 32 /\ in_U 32 5 /\ bits_in_U 32 (mkBits 3 0) /\ Z.land 3 0 = 0 /\
   msb_violation 32 5 (mkBits 3 0) = false) /\
  ((exists v, satisfies_from 32 5 (mkBits 3 0) v) ->
     satisfies_from 32 5 (mkBits 3 0) (adjust_lo 32 5 (mkBits 3 0)) /\
     forall v, satisfies_from 32 5 (mkBits 3 0) v ->
               adjust_lo 32 5 (mkBits 3 0) <= v) /\
  (~ (exists v, satisfies_from 32 5 (mkBits 3 0) v) ->
     0 <= adjust_lo 32 5 (mkBits 3 0) < 5) /\
  (adjust_lo 32 5 (mkBits 3 0) < 5 <->
   ~ exists v, satisfies_from 32 5 (mkBits 3 0) v).
Proof.
  split.
  - closed_range.
  - apply (adjust_lo_least_unless_msb 32); closed_range.
Defined.

Lemma adjust_bounds_keeps_members_witness :
  2 <= 4 <= 9 <->
  _is_result_consistent
    (adjust_bounds_from_bits 32 (mkRange 2 9) (mkBits 3 0)) = true /\
  _lo (_result (adjust_bounds_from_bits 32 (mkRange 2 9) (mkBits 3 0))) <= 4
    <= _hi (_result (adjust_bounds_from_bits 32 (mkRange 2 9) (mkBits 3 0))).
Proof.
  apply (adjust_bounds_keeps_members 32 ltac:(lia) (mkRange 2 9) (mkBits 3 0) 4);
    closed_range.
Defined.

Lemma adjust_bounds_second_pass_witness :
  adjust_bounds_from_bits 32
    (_result (adjust_bounds_from_bits 32 (mkRange 2 9) (mkBits 3 0)))
    (mkBits 3 0)
  = mkAdjust false true
      (_result (adjust_bounds_from_bits 32 (mkRange 2 9) (mkBits 3 0))).
Proof.
  apply (adjust_bounds_second_pass 32 ltac:(lia) (mkRange 2 9) (mkBits 3 0));
    closed_range.
Defined.

Lemma adjust_bits_keeps_members_witness :
  is_satisfied_by 32
    (_result (adjust_bits_from_bounds 32 (mkBits 3 0) (mkRange 4 7))) 4
  = is_satisfied_by 32 (mkBits 3 0) 4 /\
  (_is_result_consistent (adjust_bits_from_bounds 32 (mkBits 3 0) (mkRange 4 7))
     = false ->
   is_satisfied_by 32 (mkBits 3 0) 4 = false).
Proof.
  apply (adjust_bits_keeps_members 32 ltac:(lia) (mkBits 3 0) (mkRange 4 7) 4);
    closed_range.
Defined.

Lemma canonicalize_simple_keeps_members_witness :
  in_simple 32 (mkRange 2 9) (mkBits 3 0) 4 <->
  sc_present (canonicalize_constraints_simple 32 (mkRange 2 9) (mkBits 3 0))
    = true /\
  in_simple 32
    (sc_bounds (canonicalize_constraints_simple 32 (mkRange 2 9) (mkBits 3 0)))
    (sc_bits (canonicalize_constraints_simple 32 (mkRange 2 9) (mkBits 3 0)))
    4.
Proof.
  apply (canonicalize_simple_keeps_members 32 ltac:(lia)
           (mkRange 2 9) (mkBits 3 0) 4); closed_range.
Defined.

Lemma canonicalize_simple_canonical_witness :
  canonicalize_constraints_simple 32
    (sc_bounds (canonicalize_constraints_simple 32 (mkRange 2 9) (mkBits 3 0)))
    (sc_bits (canonicalize_constraints_simple 32 (mkRange 2 9) (mkBits 3 0)))
  = canonicalize_constraints_simple 32 (mkRange 2 9) (mkBits 3 0).
Proof.
  apply (canonicalize_simple_canonical 32 ltac:(lia)
           (mkRange 2 9) (mkBits 3 0)); closed_range.
Defined.

Lemma canonicalize_simple_empty_iff_witness :
  sc_present (canonicalize_constraints_simple 32 (mkRange 5 6) (mkBits 3 0))
    = false <->
  (forall u, in_U 32 u -> ~ in_simple 32 (mkRange 5 6) (mkBits 3 0) u).
Proof.
  apply (canonicalize_simple_empty_iff 32 ltac:(lia)
           (mkRange 5 6) (mkBits 3 0)); closed_range.
Defined.

Lemma canonicalize_keeps_members_witness :
  contains 32 even_around_zero (-4) =
  _present (canonicalize_constraints 32 even_around_zero) &&
  contains 32 (_data (canonicalize_constraints 32 even_around_zero)) (-4).
Proof.
  apply (canonicalize_keeps_members 32 ltac:(lia) even_around_zero (-4));
    unfold even_around_zero, proto_in_range;
    cbn [_srange _urange _bits]; closed_range.
Defined.

Lemma canonicalize_present_iff_witness :
  _present (canonicalize_constraints 32 even_around_zero) = true <->
  exists v, in_S 32 v /\ contains 32 even_around_zero v = true.
Proof.
  apply (canonicalize_present_iff 32 ltac:(lia) even_around_zero);
    unfold even_around_zero, proto_in_range;
    cbn [_srange _urange _bits]; closed_range.
Defined.

Lemma canonicalize_result_fixed_witness :
  canonicalize_constraints 32
    (_data (canonicalize_constraints 32 even_around_zero))
  = canonicalize_constraints 32 even_around_zero.
Proof.
  apply (canonicalize_result_fixed 32 ltac:(lia) even_around_zero);
    unfold even_around_zero, proto_in_range;
    cbn [_srange _urange _bits]; closed_range.
Defined.

Lemma first_adjustment_keeps_members_witness :
  contains 32
    (mkProto (mkRange 3 5)
             (tighten_urange 32 (mkRange 3 5) (mkRange 0 4294967295))
             (mkBits 0 0)) 4
  = contains 32 (mkProto (mkRange 3 5) (mkRange 0 4294967295) (mkBits 0 0)) 4.
Proof.
  apply (first_adjustment_keeps_members 32 ltac:(lia)
           (mkProto (mkRange 3 5) (mkRange 0 4294967295) (mkBits 0 0)) 4);
    unfold proto_in_range; cbn [_srange _urange _bits]; closed_range.
Defined.

Lemma verify_constraints_holds_witness :
  verify_constraints 32 (_data (canonicalize_constraints 32 even_around_zero))
  = true.
Proof.
  apply (verify_constraints_holds 32 ltac:(lia) even_around_zero);
    unfold even_around_zero, proto_in_range;
    cbn [_srange _urange _bits]; closed_range.
Defined.

Lemma canonicalize_only_tightens_witness :
  -5 <= _lo (_srange (_data (canonicalize_constraints 32 even_around_zero))) /\
  _hi (_srange (_data (canonicalize_constraints 32 even_around_zero))) <= 5 /\
  0 <= _lo (_urange (_data (canonicalize_constraints 32 even_around_zero))) /\
  _hi (_urange (_data (canonicalize_constraints 32 even_around_zero)))
    <= 4294967295 /\
  bits_subset (mkBits 1 0)
    (_bits (_data (canonicalize_constraints 32 even_around_zero))).
Proof.
  apply (canonicalize_only_tightens 32 ltac:(lia) even_around_zero);
    unfold even_around_zero, proto_in_range;
    cbn [_srange _urange _bits]; closed_range.
Defined.

Lemma canonical_ranges_agree_witness :
  let d := _data (canonicalize_constraints 32 even_around_zero) in
  _lo (_srange d) <= _hi (_srange d) /\
  _lo (_urange d) <= _hi (_urange d) /\
  Z.land (_zeros (_bits d)) (_ones (_bits d)) = 0 /\
  ((to_U 32 (_lo (_srange d)) = _lo (_urange d) /\
    to_U 32 (_hi (_srange d)) = _hi (_urange d)) \/
   (_lo (_srange d) < 0 <= _hi (_srange d) /\
    _lo (_urange d) <= to_U 32 (_hi (_srange d)) /\
    to_U 32 (_hi (_srange d)) < to_U 32 (_lo (_srange d)) /\
    to_U 32 (_lo (_srange d)) <= _hi (_urange d))).
Proof.
  apply (canonical_ranges_agree 32 ltac:(lia) even_around_zero);
    unfold even_around_zero, proto_in_range;
    cbn [_srange _urange _bits]; closed_range.
Defined.


Lemma widen_domain_absorbs_witness :
  int_type_widen 32 0 3 widen_start (Some (TYPE_DOMAIN 32 3)) None
  = Some (TYPE_DOMAIN 32 3).
Proof.
  apply (widen_domain_absorbs 32 ltac:(lia) 0 3 widen_start None).
  unfold widen_start. closed_range.
Defined.

Lemma widen_hint_in_range_witness :
  0 <= TypeInt._widen (TypeInt.mk 0 11 0 11 (mkBits 4294967280 0) 1) <= 3.
Proof.
  apply (widen_hint_in_range 32 0 3
           (TypeInt.mk 0 11 0 11 (mkBits 4294967280 0) 0)
           (Some widen_start) None).
  - lia.
  - cbn. lia.
  - intros old E. injection E as <-. cbn. lia.
  - reflexivity.
Defined.

Lemma bitname_characters_witness :
  String.length (bitname 8 40 5 130) = Z.to_nat 8 /\
  forall i, 0 <= i < 8 ->
    String.get (Z.to_nat i) (bitname 8 40 5 130) =
    Some (if Z.testbit 5 (8 - 1 - i) then "0"%char
          else if Z.testbit 130 (8 - 1 - i) then "1"%char
          else "*"%char).
Proof. apply (bitname_characters 8); lia. Defined.

Lemma bitname_injective_witness : mkBits 5 130 = mkBits 5 130.
Proof.
  apply (bitname_injective 8 ltac:(lia) 40 (mkBits 5 130) (mkBits 5 130));
    closed_range.
Defined.

Lemma intname_injective_witness : 2147483640 = 2147483640.
Proof. apply intname_injective; closed_range. Defined.

Lemma uintname_injective_witness : 2147483650 = 2147483650.
Proof. apply uintname_injective; closed_range. Defined.

Lemma longname_injective_witness : 4294967300 = 4294967300.
Proof. apply longname_injective; closed_range. Defined.

Lemma ulongname_injective_witness :
  18446744073709551610 = 18446744073709551610.
Proof. apply ulongname_injective; closed_range. Defined.
